(** * Mars rover: the grid simulation of [src/rover.js] and [src/unnamed/part_000]

    The repository holds two near-identical programs.  They differ in the
    axis convention ([rover.js] indexes [map.squares] by [x] first, the
    other file by [y] first) and in what [repositionRover] pushes on the
    travel log (the [currentCoords] object itself in [rover.js], a fresh
    copy in the other file).  Every function below takes the file it is
    read from as its first argument where the two texts differ. *)

From Stdlib Require Import ZArith QArith Qround Qpower String Ascii Lia Lqa.
From stdpp Require Import base list sorting gmap.

Local Open Scope string_scope.
Local Open Scope list_scope.
Local Open Scope stdpp_scope.
Local Open Scope Z_scope.

(** ** Which file *)

Inductive source := rover_js | part_000.

#[global] Instance source_eq_dec : EqDecision source.
Proof. solve_decision. Defined.

(** ** Outcomes

    A JavaScript call returns, or throws a [TypeError] (a property read on
    [undefined]).  [OutOfFuel] is the model's own: the [while] loop of
    [landscapeSetup] has been unrolled as far as the fuel allows and has
    not left the loop yet. *)

Inductive outcome (A : Type) : Type :=
  | Ok (a : A)
  | TypeError
  | OutOfFuel.
Arguments Ok {A} a.
Arguments TypeError {A}.
Arguments OutOfFuel {A}.

#[global] Instance outcome_ret : MRet outcome := fun _ a => Ok a.
#[global] Instance outcome_bind : MBind outcome := fun _ _ f m =>
  match m with
  | Ok a => f a
  | TypeError => TypeError
  | OutOfFuel => OutOfFuel
  end.

(** [o.p] where [o] may be [undefined]. *)
Definition defined {A} (o : option A) : outcome A :=
  match o with
  | Some a => Ok a
  | None => TypeError
  end.

(** ** Data *)

(** A [{x, y}] object's content. *)
Record coords := Coords { x : Z; y : Z }.

#[global] Instance coords_eq_dec : EqDecision coords.
Proof. solve_decision. Defined.

(** Objects are addressed by their index in the store they live in. *)
Abbreviation ref := nat.   (* a rover object *)
Abbreviation cref := nat.  (* a [{x, y}] object *)

(** What a square of [map.squares] holds: [0], ["#"] or a rover object. *)
Inductive square :=
  | Empty
  | Rock
  | RoverAt (r : ref).

#[global] Instance square_eq_dec : EqDecision square.
Proof. solve_decision. Defined.

(** A rover object.  The rover definitions of the setup section carry
    [name] and [direction] only; [currentCoords] and [travelLog] are
    [undefined] until [landscapeSetup] has placed the rover. *)
Record rover := Rover {
  name : string;
  direction : string;
  currentCoords : option cref;
  travelLog : option (list cref)
}.

Module Bounds.
Record t := Make { left : Z; right : Z; top : Z; down : Z }.
End Bounds.

(** [map.squares] is an array of arrays; an index read that is out of
    range gives [undefined] ([None]), an index write creates the entry. *)
Record marsMap := MarsMap {
  squares : gmap Z (gmap Z square);
  boundaries : Bounds.t
}.

(** The lines the output formatters print.  [capitalize] is applied to
    the name when the line is printed; the record keeps its argument. *)
Inductive line :=
  | Message (text : string)
  | Warning (roverName : string) (message : string)
  | TravelLog (roverName : string) (steps : list coords).

(** The one map, the rover objects, the [{x, y}] objects and the console. *)
Record state := State {
  map : marsMap;
  rovers : list rover;
  coordObjs : list coords;
  console : list line
}.

(** ** Store access

    A reference always names an object in JavaScript; a read through an
    index that the store does not have is given the outcome of a read on
    [undefined]. *)

Definition getRover (r : ref) (st : state) : outcome rover :=
  defined (rovers st !! r).

Definition setRover (r : ref) (rv : rover) (st : state) : state :=
  State (map st) (<[r := rv]> (rovers st)) (coordObjs st) (console st).

Definition setMap (m : marsMap) (st : state) : state :=
  State m (rovers st) (coordObjs st) (console st).

(** [{x: .., y: ..}]: a new object, at the end of the store. *)
Definition newCoords (c : coords) (st : state) : cref * state :=
  (length (coordObjs st),
   State (map st) (rovers st) (coordObjs st ++ [c]) (console st)).

Definition setCoords (l : cref) (c : coords) (st : state) : state :=
  State (map st) (rovers st) (<[l := c]> (coordObjs st)) (console st).

Definition print (ln : line) (st : state) : state :=
  State (map st) (rovers st) (coordObjs st) (console st ++ [ln]).

(** The index into [map.squares] and the index into the row: [rover.js]
    writes [map.squares[c.x][c.y]], the other file [map.squares[c.y][c.x]]. *)
Definition rowOf (v : source) (c : coords) : Z :=
  match v with rover_js => x c | part_000 => y c end.
Definition colOf (v : source) (c : coords) : Z :=
  match v with rover_js => y c | part_000 => x c end.

(** [map.squares[i][j]]: throws when the row is [undefined]. *)
Definition readSquare (v : source) (m : marsMap) (c : coords) : outcome (option square) :=
  row ← defined (squares m !! rowOf v c);
  mret (row !! colOf v c).

(** [map.squares[i][j] = s]. *)
Definition writeSquare (v : source) (m : marsMap) (c : coords) (s : square) : outcome marsMap :=
  row ← defined (squares m !! rowOf v c);
  mret (MarsMap (<[rowOf v c := <[colOf v c := s]> row]> (squares m)) (boundaries m)).

(** ** Map creation *)

(** An array whose entries [0 .. n-1] all hold [a]. *)
Fixpoint fill {A} (n : nat) (a : A) : gmap Z A :=
  match n with
  | O => ∅
  | S k => <[Z.of_nat k := a]> (fill k a)
  end.

(** [generateMap] ([generateEmptyMap] in the other file); [None] is [false]. *)
Definition generateMap (v : source) (xSize ySize : Z) : option marsMap :=
  if (0 <? xSize) && (0 <? ySize) then
    match v with
    | rover_js =>
        Some (MarsMap (fill (Z.to_nat xSize) (fill (Z.to_nat ySize) Empty))
                      (Bounds.Make (-1) ySize (-1) xSize))
    | part_000 =>
        Some (MarsMap (fill (Z.to_nat ySize) (fill (Z.to_nat xSize) Empty))
                      (Bounds.Make (-1) xSize (-1) ySize))
    end
  else None.

(** *** Numbers

    A JavaScript number is a binary64 number; those that are finite are
    rationals, and the result of [a * b] is the binary64 number nearest
    to the exact product, the one with the even significand when two are
    as near. *)

(** The integer nearest to [q], the even one of two. *)
Definition roundHalfEven (q : Q) : Z :=
  let f := Qfloor q in
  match (q - inject_Z f ?= 1 # 2)%Q with
  | Lt => f
  | Gt => f + 1
  | Eq => if Z.even f then f else f + 1
  end.

Definition pow2 (e : Z) : Q := (2 ^ e)%Q.

(** The exponent [e] of the last place of [q > 0] written with a
    significand of 53 bits: [2^52 <= q / 2^e < 2^53]. *)
Definition lastPlace (q : Q) : Z :=
  let e := Z.log2 (Qnum q) - Z.log2 (Zpos (Qden q)) - 53 in
  if Qle_bool (pow2 53) (q * pow2 (- e)) then e + 1 else e.

Definition nearest (q : Q) : Q :=
  let e := lastPlace q in
  (inject_Z (roundHalfEven (q * pow2 (- e))) * pow2 e)%Q.

(** The binary64 number nearest to [q].  The exponent is left without
    bounds: the products below are those of a number of the unit interval
    and a size of the map (an integer the loops of [generateMap] count
    to, so below [2^53]), which stay below the largest binary64 number,
    and which are exact where binary64 has no 53 bits left, below
    [2^-1022], for being multiples of [2^-1074]. *)
Definition binary64 (q : Q) : Q :=
  match Qnum q with
  | 0 => 0%Q
  | Zpos _ => nearest q
  | Zneg _ => (- nearest (- q))%Q
  end.

(** [Math.floor(Math.random() * n)], [q] being what [Math.random]
    returned. *)
Definition floorTimes (q : Q) (n : Z) : Z := Qfloor (binary64 (q * inject_Z n)).

(** The random pair of one iteration: [Math.random()] is called for [x]
    first.  [rnd k] is what the [k]-th call of [Math.random] returns. *)
Definition randomPair (v : source) (rnd : nat → Q) (k : nat) (b : Bounds.t) : coords :=
  match v with
  | rover_js => Coords (floorTimes (rnd k) (Bounds.down b)) (floorTimes (rnd (S k)) (Bounds.right b))
  | part_000 => Coords (floorTimes (rnd k) (Bounds.right b)) (floorTimes (rnd (S k)) (Bounds.down b))
  end.

(** [rovers.pop()]: the last element of the array and the array without it. *)
Definition pop {A} (l : list A) : option (A * list A) :=
  match reverse l with
  | [] => None
  | a :: l' => Some (a, reverse l')
  end.

(** Places a rover on a sampled empty square. *)
Definition placeRover (v : source) (r : ref) (pair : coords) (st : state) : outcome state :=
  m ← writeSquare v (map st) pair (RoverAt r);
  let st := setMap m st in
  rv ← getRover r st;
  let '(cur, st) := newCoords (Coords (x pair) (y pair)) st in
  let '(first, st) := newCoords (Coords (x pair) (y pair)) st in
  mret (setRover r (Rover (name rv) (direction rv) (Some cur) (Some [first])) st).

(** The [while (deploys > 0)] loop of [landscapeSetup], [k] calls of
    [Math.random] having been made. *)
Fixpoint landscapeLoop (v : source) (fuel : nat) (rnd : nat → Q) (k : nat)
    (deploys numObst : nat) (rs : list ref) (st : state) : outcome state :=
  match deploys with
  | O => Ok st
  | S deploys' =>
      match fuel with
      | O => OutOfFuel
      | S fuel' =>
          let pair := randomPair v rnd k (boundaries (map st)) in
          sq ← readSquare v (map st) pair;
          if decide (sq = Some Empty) then
            match numObst with
            | S numObst' =>
                m ← writeSquare v (map st) pair Rock;
                landscapeLoop v fuel' rnd (2 + k) deploys' numObst' rs (setMap m st)
            | O =>
                '(r, rs') ← defined (pop rs);
                st' ← placeRover v r pair st;
                landscapeLoop v fuel' rnd (2 + k) deploys' O rs' st'
            end
          else landscapeLoop v fuel' rnd (2 + k) deploys numObst rs st
      end
  end.

(** [landscapeSetup]; the number of obstacles is a natural number. *)
Definition landscapeSetup (v : source) (fuel : nat) (rnd : nat → Q)
    (numObst : nat) (rs : list ref) (st : state) : outcome (bool * state) :=
  let deploys := (numObst + length rs)%nat in
  if Z.of_nat deploys <=? Bounds.down (boundaries (map st)) * Bounds.right (boundaries (map st)) then
    st' ← landscapeLoop v fuel rnd 0 deploys numObst rs st;
    mret (true, st')
  else mret (false, st).

(** [initializeMap]: the result is [true] with the state that holds the
    returned map, or [false] with the state the calls have left, the new
    map, which is not returned, apart. *)
Definition initializeMap (v : source) (fuel : nat) (rnd : nat → Q)
    (xSize ySize : Z) (numObstacles : nat) (rs : list ref) (st : state) : outcome (bool * state) :=
  match generateMap v xSize ySize with
  | Some m =>
      '(ok, st') ← landscapeSetup v fuel rnd numObstacles rs (setMap m st);
      if ok : bool then mret (true, st')
      else mret (false, print (Message "The map hasn't enough space to place all the elements")
                              (setMap (map st) st'))
  | None => mret (false, print (Message "Map size must be greater than 0") st)
  end.

(** ** Output formatters *)

(** [capitalize(word)] starts with [word[0].toUpperCase()], which throws
    on the empty string.  The letter case of what is printed is not
    modelled: the result stands for the capitalized name. *)
Definition capitalize (word : string) : outcome string :=
  match word with
  | EmptyString => TypeError
  | String _ _ => Ok word
  end.

Definition issueWarning (r : ref) (message : string) (st : state) : outcome state :=
  rv ← getRover r st;
  who ← capitalize (name rv);
  mret (print (Warning who message) st).

(** The steps are read from the [{x, y}] objects when the log is printed. *)
Definition showTravel (r : ref) (st : state) : outcome state :=
  rv ← getRover r st;
  who ← capitalize (name rv);
  log ← defined (travelLog rv);
  steps ← mapM (fun l => defined (coordObjs st !! l)) log;
  mret (print (TravelLog who steps) st).

(** ** Rover movement *)

(** The first test of [haveObstacle]. *)
Definition outOfBounds (v : source) (b : Bounds.t) (destination : coords) : bool :=
  match v with
  | rover_js =>
      (x destination <=? Bounds.top b) || (x destination >=? Bounds.down b) ||
      (y destination <=? Bounds.left b) || (y destination >=? Bounds.right b)
  | part_000 =>
      (y destination <=? Bounds.top b) || (y destination >=? Bounds.down b) ||
      (x destination <=? Bounds.left b) || (x destination >=? Bounds.right b)
  end.

(** [haveObstacle]: [None] is [false]; a square is free when it is [=== 0]. *)
Definition haveObstacle (v : source) (m : marsMap) (destination : coords) : outcome (option string) :=
  if outOfBounds v (boundaries m) destination then mret (Some "destination out of bounds")
  else
    sq ← readSquare v m destination;
    if decide (sq = Some Empty) then mret None
    else mret (Some "collision warning").

(** The [switch (rover.direction)] of [turnLeft]; [None] when no case matches. *)
Definition turnLeft_case (d : string) : option string :=
  if String.eqb d "N" then Some "W"
  else if String.eqb d "E" then Some "N"
  else if String.eqb d "S" then Some "E"
  else if String.eqb d "W" then Some "S"
  else None.

Definition turnRight_case (d : string) : option string :=
  if String.eqb d "N" then Some "E"
  else if String.eqb d "E" then Some "S"
  else if String.eqb d "S" then Some "W"
  else if String.eqb d "W" then Some "N"
  else None.

Definition setDirection (r : ref) (rv : rover) (d : string) (st : state) : state :=
  setRover r (Rover (name rv) d (currentCoords rv) (travelLog rv)) st.

Definition turnLeft (r : ref) (st : state) : outcome state :=
  rv ← getRover r st;
  match turnLeft_case (direction rv) with
  | Some d => mret (setDirection r rv d st)
  | None => mret st
  end.

Definition turnRight (r : ref) (st : state) : outcome state :=
  rv ← getRover r st;
  match turnRight_case (direction rv) with
  | Some d => mret (setDirection r rv d st)
  | None => mret st
  end.

(** The [destination] object of [moveForward] after its [switch]. *)
Definition moveForward_destination (v : source) (d : string) (cur : coords) : coords :=
  match v with
  | rover_js =>
      if String.eqb d "N" then Coords (x cur - 1) (y cur)
      else if String.eqb d "E" then Coords (x cur) (y cur + 1)
      else if String.eqb d "S" then Coords (x cur + 1) (y cur)
      else if String.eqb d "W" then Coords (x cur) (y cur - 1)
      else Coords (x cur) (y cur)
  | part_000 =>
      if String.eqb d "N" then Coords (x cur) (y cur - 1)
      else if String.eqb d "E" then Coords (x cur + 1) (y cur)
      else if String.eqb d "S" then Coords (x cur) (y cur + 1)
      else if String.eqb d "W" then Coords (x cur - 1) (y cur)
      else Coords (x cur) (y cur)
  end.

Definition moveBackwards_destination (v : source) (d : string) (cur : coords) : coords :=
  match v with
  | rover_js =>
      if String.eqb d "N" then Coords (x cur + 1) (y cur)
      else if String.eqb d "E" then Coords (x cur) (y cur - 1)
      else if String.eqb d "S" then Coords (x cur - 1) (y cur)
      else if String.eqb d "W" then Coords (x cur) (y cur + 1)
      else Coords (x cur) (y cur)
  | part_000 =>
      if String.eqb d "N" then Coords (x cur) (y cur + 1)
      else if String.eqb d "E" then Coords (x cur - 1) (y cur)
      else if String.eqb d "S" then Coords (x cur) (y cur - 1)
      else if String.eqb d "W" then Coords (x cur + 1) (y cur)
      else Coords (x cur) (y cur)
  end.

(** [rover.currentCoords], the object and its content. *)
Definition getCurrent (rv : rover) (st : state) : outcome (cref * coords) :=
  l ← defined (currentCoords rv);
  c ← defined (coordObjs st !! l);
  mret (l, c).

Definition repositionRover (v : source) (r : ref) (destination : coords) (st : state) : outcome state :=
  blockedWay ← haveObstacle v (map st) destination;
  match blockedWay with
  | None =>
      rv ← getRover r st;
      '(l, cur) ← getCurrent rv st;
      m ← writeSquare v (map st) cur Empty;
      let st := setMap m st in
      let st := setCoords l (Coords (x destination) (y cur)) st in
      let st := setCoords l (Coords (x destination) (y destination)) st in
      '(_, cur) ← getCurrent rv st;
      m ← writeSquare v (map st) cur (RoverAt r);
      let st := setMap m st in
      log ← defined (travelLog rv);
      match v with
      | rover_js =>
          mret (setRover r (Rover (name rv) (direction rv) (currentCoords rv) (Some (log ++ [l]))) st)
      | part_000 =>
          '(_, cur) ← getCurrent rv st;
          let '(step, st) := newCoords (Coords (x cur) (y cur)) st in
          mret (setRover r (Rover (name rv) (direction rv) (currentCoords rv) (Some (log ++ [step]))) st)
      end
  | Some message => issueWarning r message st
  end.

Definition moveForward (v : source) (r : ref) (st : state) : outcome state :=
  rv ← getRover r st;
  '(_, cur) ← getCurrent rv st;
  repositionRover v r (moveForward_destination v (direction rv) cur) st.

Definition moveBackwards (v : source) (r : ref) (st : state) : outcome state :=
  rv ← getRover r st;
  '(_, cur) ← getCurrent rv st;
  repositionRover v r (moveBackwards_destination v (direction rv) cur) st.

(** ** Rover command *)

(** An entry of the command list: [{rover, commands}].  A character of
    the string stands for one code unit of the JavaScript string, so that
    [String.length] is its [length] and [String.get] its [charAt]. *)
Module Request.
Record t := Make { rover : ref; commands : string }.
End Request.

(** An entry of the order chain: [{rover, command}], the command being
    the one character [charAt] returned. *)
Module Order.
Record t := Make { rover : ref; command : ascii }.
End Order.

(** [/[^lrfb]+/g.test(s)] on a fresh regular expression: some character
    of [s] is none of [l], [r], [f], [b]. *)
Definition isCommand (c : ascii) : bool :=
  Ascii.eqb c "l" || Ascii.eqb c "r" || Ascii.eqb c "f" || Ascii.eqb c "b".

Definition hasWrongCommand (s : string) : bool :=
  existsb (fun c => negb (isCommand c)) (list_ascii_of_string s).

(** [hasInvalidCommands]: [None] is [false]; [Some r] is the closure that
    warns about rover [r], the one assigned last. *)
Definition hasInvalidCommands (commandList : list Request.t) : option ref :=
  foldl (fun errorFlag pair =>
           if hasWrongCommand (Request.commands pair) then Some (Request.rover pair)
           else errorFlag)
        None commandList.

(** [Array.prototype.sort] with a comparator: the sort is stable, so that
    with a consistent comparator its result is the one stable ordering,
    which inserting each element in front of the sorted rest computes. *)
Fixpoint sort_insert {A} (compare : A → A → Z) (a : A) (l : list A) : list A :=
  match l with
  | [] => [a]
  | b :: l' => if compare a b <=? 0 then a :: l else b :: sort_insert compare a l'
  end.

Definition sort {A} (compare : A → A → Z) (l : list A) : list A :=
  foldr (sort_insert compare) [] l.

Definition commandsLength (a : Request.t) : Z :=
  Z.of_nat (String.length (Request.commands a)).

(** [chainList]: the chain, and the caller's array as the call leaves it
    ([sort] sorts the array it is called on). *)
Definition chainList (commandList : list Request.t) : outcome (list Order.t * list Request.t) :=
  let commandList := sort (fun a b => commandsLength b - commandsLength a) commandList in
  first ← defined (commandList !! 0%nat);
  let chain :=
    foldl (fun chain i =>
      foldl (fun chain row =>
        match String.get i (Request.commands row) with
        | Some c => chain ++ [Order.Make (Request.rover row) c]
        | None => chain
        end) chain commandList)
      [] (seq 0 (String.length (Request.commands first))) in
  mret (chain, commandList).

(** The [switch (order.command)] of [commandRovers]. *)
Definition runOrder (v : source) (o : Order.t) (st : state) : outcome state :=
  if Ascii.eqb (Order.command o) "l" then turnLeft (Order.rover o) st
  else if Ascii.eqb (Order.command o) "r" then turnRight (Order.rover o) st
  else if Ascii.eqb (Order.command o) "f" then moveForward v (Order.rover o) st
  else if Ascii.eqb (Order.command o) "b" then moveBackwards v (Order.rover o) st
  else mret st.

(** A loop over an array whose body updates the state. *)
Fixpoint forEach {A} (f : A → state → outcome state) (l : list A) (st : state) : outcome state :=
  match l with
  | [] => mret st
  | a :: l' => st' ← f a st; forEach f l' st'
  end.

(** [commandRovers]: the state, and the caller's command list as the call
    leaves it. *)
Definition commandRovers (v : source) (commandList : list Request.t) (st : state)
    : outcome (list Request.t * state) :=
  match hasInvalidCommands commandList with
  | None =>
      '(orders, commandList) ← chainList commandList;
      st ← forEach (runOrder v) orders st;
      st ← forEach (fun p => showTravel (Request.rover p)) commandList st;
      mret (commandList, st)
  | Some r =>
      st ← issueWarning r "has wrong commands. Only l,r,f,b are valid commands" st;
      mret (commandList, st)
  end.


(** ** Reading a state *)

(** The content of a square, [None] when the row or the entry is
    [undefined]. *)
Definition squareAt (v : source) (m : marsMap) (c : coords) : option square :=
  squares m !! rowOf v c ≫= fun row => row !! colOf v c.

(** The direction a rover faces after [turnLeft] / [turnRight]. *)
Definition turnedLeft (d : string) : string := default d (turnLeft_case d).
Definition turnedRight (d : string) : string := default d (turnRight_case d).

(** [rover.currentCoords] as a value. *)
Definition position (st : state) (r : ref) : option coords :=
  rv ← rovers st !! r;
  l ← currentCoords rv;
  coordObjs st !! l.

(** [rover.travelLog] as the values its entries hold now. *)
Definition history (st : state) (r : ref) : option (list coords) :=
  rv ← rovers st !! r;
  log ← travelLog rv;
  mapM (fun l => coordObjs st !! l) log.

(** What [showTravel] prints for a rover. *)
Definition travelLine (st : state) (r : ref) : option line :=
  rv ← rovers st !! r;
  steps ← history st r;
  Some (TravelLog (name rv) steps).

Definition heading (st : state) (r : ref) : option string :=
  direction <$> rovers st !! r.

(** The log entry an accepted move pushes: the [currentCoords] object in
    [rover.js], a new object in the other file. *)
Definition pushed (v : source) (l : cref) (st : state) : cref :=
  match v with rover_js => l | part_000 => length (coordObjs st) end.

(** A state before [initializeMap]: the rover definitions of the setup
    section, no map yet, nothing printed. *)
Definition setupState (defs : list (string * string)) : state :=
  State (MarsMap ∅ (Bounds.Make 0 0 0 0))
        ((fun d => Rover d.1 d.2 None None) <$> defs) [] [].


(** ** Invariants of the simulation *)

(** A square that holds an obstacle or a rover. *)
Definition occupied (v : source) (m : marsMap) (c : coords) : Prop :=
  ∃ s, squareAt v m c = Some s ∧ s ≠ Empty.

(** Every rover that has coordinates stands on the square they name, and
    a square that holds a rover is the one the coordinates of that rover
    name. *)
Definition consistent (v : source) (st : state) : Prop :=
  (∀ r rv l, rovers st !! r = Some rv → currentCoords rv = Some l →
     ∃ c, coordObjs st !! l = Some c ∧ squareAt v (map st) c = Some (RoverAt r)) ∧
  (∀ c r, squareAt v (map st) c = Some (RoverAt r) → position st r = Some c).

(** The entries of the travel logs are objects of the store. *)
Definition logged (st : state) : Prop :=
  ∀ r rv log l, rovers st !! r = Some rv → travelLog rv = Some log → l ∈ log →
    (l < length (coordObjs st))%nat.

(** No entry of a travel log is the [currentCoords] object of a rover. *)
Definition logsApart (st : state) : Prop :=
  ∀ r rv log l r2 rv2, rovers st !! r = Some rv → travelLog rv = Some log → l ∈ log →
    rovers st !! r2 = Some rv2 → currentCoords rv2 ≠ Some l.

(** What the travel logs rely on: in both files the map and the rovers
    agree and the logs hold objects of the store; in [part_000] the
    entries are copies. *)
Definition tracked (v : source) (st : state) : Prop :=
  consistent v st ∧ logged st ∧ (v = part_000 → logsApart st).

(** Rover definitions as the setup section writes them: no coordinates,
    no travel log. *)
Definition undeployed (st : state) : Prop :=
  ∀ r rv, rovers st !! r = Some rv → currentCoords rv = None ∧ travelLog rv = None.

(** A binary64 number of the unit interval, 1 excluded: [m / 2^e] with
    [m] of at most 53 bits and [e] at most 1074. *)
Definition unitSample (q : Q) : Prop :=
  ∃ (m : Z) (e : nat),
    0 ≤ m < 2 ^ 53 ∧ m < 2 ^ Z.of_nat e ∧ (e ≤ 1074)%nat ∧
    (q == inject_Z m / inject_Z (2 ^ Z.of_nat e))%Q.

(** [Math.random] returns numbers of the unit interval, 1 excluded. *)
Definition unitSamples (rnd : nat → Q) : Prop := ∀ k, unitSample (rnd k).

(** The pairs the loop of [landscapeSetup] draws come back to every square
    of the map: whatever the number of iterations made, a later one draws
    the square. *)
Definition fairSamples (v : source) (rnd : nat → Q) (b : Bounds.t) : Prop :=
  ∀ (j : nat) (c : coords), outOfBounds v b c = false →
    ∃ j', (j ≤ j')%nat ∧ randomPair v rnd (2 * j') b = c.

(** The state of the loop of [landscapeSetup] that started in [st0], after
    [rocks] obstacles and the rovers [placed] (in this order) have been
    deployed, on the squares [cells]. *)
Record placing (v : source) (st0 : state) (rocks : nat) (cells : list coords)
    (placed : list ref) (st : state) : Prop := Placing {
  pl_bounds : boundaries (map st) = boundaries (map st0);
  pl_console : console st = console st0;
  pl_grid : ∀ c, is_Some (squareAt v (map st) c) ↔ outOfBounds v (boundaries (map st)) c = false;
  pl_nodup : NoDup cells;
  pl_cells : ∀ c, c ∈ cells ↔ occupied v (map st) c;
  pl_count : length cells = (rocks + length placed)%nat;
  pl_rovers : length (rovers st) = length (rovers st0);
  pl_others : ∀ r, r ∉ placed → rovers st !! r = rovers st0 !! r;
  pl_objs : ∃ new, coordObjs st = coordObjs st0 ++ new ∧ length new = (2 * length placed)%nat;
  pl_placed : ∀ (i : nat) r, placed !! i = Some r →
    ∃ rv0 c,
      rovers st0 !! r = Some rv0 ∧
      rovers st !! r =
        Some (Rover (name rv0) (direction rv0)
                    (Some (length (coordObjs st0) + 2 * i)%nat)
                    (Some [(length (coordObjs st0) + 2 * i + 1)%nat])) ∧
      coordObjs st !! (length (coordObjs st0) + 2 * i)%nat = Some c ∧
      coordObjs st !! (length (coordObjs st0) + 2 * i + 1)%nat = Some c ∧
      squareAt v (map st) c = Some (RoverAt r);
  pl_squares : ∀ c r, squareAt v (map st) c = Some (RoverAt r) →
    r ∈ placed ∧ position st r = Some c
}.

(** The squares of a map whose top and left boundaries are -1, counted
    row by row. *)
Definition cellOf (v : source) (b : Bounds.t) (n : nat) : coords :=
  let row := Z.of_nat n / Bounds.right b in
  let col := Z.of_nat n mod Bounds.right b in
  match v with
  | rover_js => Coords row col
  | part_000 => Coords col row
  end.

(** Samples that draw the two squares of a map of one row in turn:
    0, 0, 0, 1/2, 0, 0, 0, 1/2, ... *)
Definition alternating (k : nat) : Q :=
  if (k mod 4 =? 3)%nat then (1 # 2)%Q else 0%Q.

(** Two rover definitions, and the map of one row and two squares. *)
Definition twoRovers : state := setupState [("Alpha", "N"); ("Beta", "E")].

(** The example of the specification: a 10 by 10 map without obstacles
    on which Alpha, heading N, is placed at (5,5), both samples being
    0.5. *)
Definition alphaPlaced (v : source) : state :=
  match initializeMap v 1 (fun _ => (1 # 2)%Q) 10 10 0 [0%nat] (setupState [("Alpha", "N")]) with
  | Ok (true, st) => st
  | _ => setupState []
  end.

(** ** The interleaving, in the words of the specification *)

Definition commandCount (q : Request.t) : nat := String.length (Request.commands q).

(** The longest command string of the batch. *)
Definition maxLen (commandList : list Request.t) : nat :=
  max_list (commandCount <$> commandList).

(** [sorted] is [commandList] in a stable order sorted by descending
    command-string length: lengths never grow along [sorted], and the
    requests of any one length are those of [commandList], in the order
    of submission. *)
Definition stableDescending (commandList sorted : list Request.t) : Prop :=
  StronglySorted (fun a b => (commandCount b ≤ commandCount a)%nat) sorted ∧
  ∀ n : nat, filter (fun q => commandCount q = n) sorted
           = filter (fun q => commandCount q = n) commandList.

(** For [i] from 0 to [maxLen - 1], for each request of the sorted list
    whose string has a character at index [i], the pair of the rover and
    that character. *)
Definition orderAt (i : nat) (q : Request.t) : option Order.t :=
  Order.Make (Request.rover q) <$> String.get i (Request.commands q).

Definition interleave (sorted : list Request.t) (maxLen : nat) : list Order.t :=
  i ← seq 0 maxLen; omap (orderAt i) sorted.

(** The command string of a request has a character that is no command. *)
Definition offending (q : Request.t) : Prop :=
  hasWrongCommand (Request.commands q) = true.


(** ** Further invariants *)

(** The squares of the map are those strictly inside its boundaries. *)
Definition gridded (v : source) (st : state) : Prop :=
  ∀ c, is_Some (squareAt v (map st) c) ↔ outOfBounds v (boundaries (map st)) c = false.

(** A rover that [landscapeSetup] has deployed and that has a name: it
    has coordinates and a travel log. *)
Definition deployed (st : state) (r : ref) : Prop :=
  ∃ rv l c log,
    rovers st !! r = Some rv ∧ name rv ≠ EmptyString ∧
    currentCoords rv = Some l ∧ coordObjs st !! l = Some c ∧
    travelLog rv = Some log.

(** One of the four headings. *)
Definition isHeading (d : string) : Prop :=
  d = "N" ∨ d = "E" ∨ d = "S" ∨ d = "W".

(** A character of a command string that [commandRovers] knows. *)
Definition knownCommand (c : ascii) : Prop :=
  c = "l"%char ∨ c = "r"%char ∨ c = "f"%char ∨ c = "b"%char.

(** What the simulation keeps from [initializeMap] on. *)
Definition steady (v : source) (st : state) : Prop :=
  tracked v st ∧ gridded v st.

(** The rover a square holds, for the squares that hold one. *)
Definition roverOf (v : source) (m : marsMap) (c : coords) : ref :=
  match squareAt v m c with
  | Some (RoverAt r) => r
  | _ => O
  end.

(** A map of one row and two squares on which an obstacle, then Alpha,
    are deployed, Beta being left out. *)
Definition rockAndAlpha (v : source) : state :=
  match initializeMap v 2 alternating 1 2 1 [0%nat] twoRovers with
  | Ok (true, st) => st
  | _ => twoRovers
  end.

(** What no order changes: the boundaries, the squares that exist, the
    obstacles, and which rovers are on the map. *)
Definition sameLandscape (v : source) (st st' : state) : Prop :=
  boundaries (map st') = boundaries (map st) ∧
  (∀ c, is_Some (squareAt v (map st') c) ↔ is_Some (squareAt v (map st) c)) ∧
  (∀ c, squareAt v (map st') c = Some Rock ↔ squareAt v (map st) c = Some Rock) ∧
  (∀ r, (∃ c, squareAt v (map st') c = Some (RoverAt r)) ↔
        (∃ c, squareAt v (map st) c = Some (RoverAt r))).


(** A rover whose direction is written in lower case, deployed alone on
    a map of one square. *)
Definition strayPlaced (v : source) : state :=
  match initializeMap v 1 (fun _ => 0%Q) 1 1 0 [0%nat] (setupState [("Gamma", "n")]) with
  | Ok (true, st) => st
  | _ => setupState []
  end.

(** Two states that show the same scene: the same squares, the same
    positions and directions of the rovers, the same lines printed. *)
Definition sameScene (v : source) (st st' : state) : Prop :=
  boundaries (map st') = boundaries (map st) ∧
  (∀ c, squareAt v (map st') c = squareAt v (map st) c) ∧
  (∀ r, position st' r = position st r) ∧
  (∀ r, heading st' r = heading st r) ∧
  console st' = console st.

(** The travel logs as [rover.js] builds them: the object the setup has
    made for the first entry, which is the [currentCoords] object of no
    rover, then the [currentCoords] object of the rover itself, once for
    every accepted move. *)
Definition aliased (st : state) : Prop :=
  ∀ r rv l log,
    rovers st !! r = Some rv → currentCoords rv = Some l → travelLog rv = Some log →
    ∃ l0 k, log = l0 :: replicate k l ∧
      ∀ r2 rv2, rovers st !! r2 = Some rv2 → currentCoords rv2 ≠ Some l0.

(** What [s] keeps of an earlier state [st]: a rover has the coordinates
    object it had, and the travel log of a rover that has one starts
    with the entry it started with, which holds the value it held. *)
Definition sinceState (st s : state) : Prop :=
  ∀ r rv', rovers s !! r = Some rv' →
    ∃ rv, rovers st !! r = Some rv ∧ currentCoords rv = currentCoords rv' ∧
      ∀ l l0 rest c0,
        currentCoords rv = Some l → travelLog rv = Some (l0 :: rest) →
        coordObjs st !! l0 = Some c0 →
        ∃ rest', travelLog rv' = Some (l0 :: rest') ∧ coordObjs s !! l0 = Some c0.

(** Alpha and Beta deployed side by side on a map of one row and three
    squares of [rover.js], the third square being free. *)
Definition bothPlaced : state :=
  match initializeMap rover_js 2 alternating 1 3 0 [1%nat; 0%nat] twoRovers with
  | Ok (true, st) => st
  | _ => twoRovers
  end.

(** A rover whose name is the empty string, deployed alone, heading N,
    on a map of one square. *)
Definition namelessPlaced (v : source) : state :=
  match initializeMap v 1 (fun _ => 0%Q) 1 1 0 [0%nat] (setupState [(EmptyString, "N")]) with
  | Ok (true, st) => st
  | _ => setupState []
  end.
(** ** The outcome monad *)

Lemma bind_Ok {A B} (m : outcome A) (f : A → outcome B) (b : B) :
  m ≫= f = Ok b ↔ ∃ a, m = Ok a ∧ f a = Ok b.
Proof.
  destruct m as [a| |]; simpl; split.
  - eauto.
  - intros (a' & [= ->] & Hf). exact Hf.
  - discriminate.
  - intros (a' & [=] & _).
  - discriminate.
  - intros (a' & [=] & _).
Qed.

Lemma defined_Ok {A} (o : option A) (a : A) : defined o = Ok a ↔ o = Some a.
Proof. destruct o; simpl; split; intro; congruence. Qed.

Lemma mret_Ok {A} (a b : A) : (mret a : outcome A) = Ok b → a = b.
Proof. by intros [= ->]. Qed.

(** Splits the hypotheses that say a sequence of calls has returned. *)
Ltac ok_inv :=
  repeat match goal with
  | H : _ ≫= _ = Ok _ |- _ => apply (proj1 (bind_Ok _ _ _)) in H; destruct H as [? [? H]]
  | H : defined _ = Ok _ |- _ => apply (proj1 (defined_Ok _ _)) in H
  | H : mret _ = Ok _ |- _ => apply mret_Ok in H
  | H : Ok _ = Ok _ |- _ => apply mret_Ok in H
  end.

(** ** Heading and destination *)

Ltac string_cases d :=
  repeat match goal with
  | |- context [String.eqb d ?s] =>
      destruct (String.eqb_spec d s); subst; simpl; try reflexivity; try congruence
  end.

(** C1, as the claim has it, fails in [rover.js]: there a rover heading
    N moves from (5,5) to (4,5), its [x] being decremented, and not to
    (5,4). *)
Lemma moveForward_north_rover_js :
  moveForward_destination rover_js "N" (Coords 5 5) = Coords 4 5 ∧
  moveForward_destination rover_js "N" (Coords 5 5) ≠ Coords 5 (5 - 1).
Proof. split; [reflexivity | discriminate]. Qed.

(** C1 (amended): in [part_000] a forward move targets the square one step
    along N:-y, E:+x, S:+y, W:-x; in [rover.js], where [x] is the row, it
    is N:-x, E:+y, S:+x, W:-y; in both files the offset of a backward
    move is the negation of the offset of the forward move, for every
    position and every direction string, and [moveForward] and
    [moveBackwards] hand exactly this destination to [repositionRover]. *)
Theorem destination_offsets :
  (∀ px py,
     moveForward_destination part_000 "N" (Coords px py) = Coords px (py - 1) ∧
     moveForward_destination part_000 "E" (Coords px py) = Coords (px + 1) py ∧
     moveForward_destination part_000 "S" (Coords px py) = Coords px (py + 1) ∧
     moveForward_destination part_000 "W" (Coords px py) = Coords (px - 1) py) ∧
  (∀ px py,
     moveForward_destination rover_js "N" (Coords px py) = Coords (px - 1) py ∧
     moveForward_destination rover_js "E" (Coords px py) = Coords px (py + 1) ∧
     moveForward_destination rover_js "S" (Coords px py) = Coords (px + 1) py ∧
     moveForward_destination rover_js "W" (Coords px py) = Coords px (py - 1)) ∧
  (∀ v d cur,
     x (moveBackwards_destination v d cur) - x cur = - (x (moveForward_destination v d cur) - x cur) ∧
     y (moveBackwards_destination v d cur) - y cur = - (y (moveForward_destination v d cur) - y cur)) ∧
  (∀ v r st rv l cur,
     rovers st !! r = Some rv → currentCoords rv = Some l → coordObjs st !! l = Some cur →
     moveForward v r st = repositionRover v r (moveForward_destination v (direction rv) cur) st ∧
     moveBackwards v r st = repositionRover v r (moveBackwards_destination v (direction rv) cur) st).
Proof.
  split; [|split; [|split]].
  - intros; repeat split; reflexivity.
  - intros; repeat split; reflexivity.
  - intros v d cur. unfold moveBackwards_destination, moveForward_destination.
    destruct v; string_cases d; simpl; lia.
  - intros v r st rv l cur Hr Hl Hc.
    unfold moveForward, moveBackwards, getRover, getCurrent.
    rewrite Hr; simpl. rewrite Hl; simpl. rewrite Hc; simpl. done.
Qed.

Lemma setDirection_same r rv st :
  rovers st !! r = Some rv → setDirection r rv (direction rv) st = st.
Proof.
  intros Hr. destruct st as [m rs cs out], rv as [n d c t]; simpl in *.
  unfold setDirection, setRover; simpl. f_equal. by apply list_insert_id.
Qed.

Lemma setDirection_twice r rv d1 d2 st :
  setDirection r (Rover (name rv) d1 (currentCoords rv) (travelLog rv)) d2 (setDirection r rv d1 st)
  = setDirection r rv d2 st.
Proof.
  unfold setDirection, setRover; simpl. f_equal. apply list_insert_insert_eq.
Qed.

Lemma setDirection_lookup r rv d st :
  rovers st !! r = Some rv →
  rovers (setDirection r rv d st) !! r = Some (Rover (name rv) d (currentCoords rv) (travelLog rv)).
Proof.
  intros Hr. unfold setDirection, setRover; simpl.
  apply list_lookup_insert_eq. by eapply lookup_lt_Some.
Qed.

Lemma turnLeft_spec r rv st :
  rovers st !! r = Some rv →
  turnLeft r st = Ok (setDirection r rv (turnedLeft (direction rv)) st).
Proof.
  intros Hr. unfold turnLeft, turnedLeft, getRover. rewrite Hr; simpl.
  destruct (turnLeft_case (direction rv)); simpl; [done|].
  by rewrite setDirection_same.
Qed.

Lemma turnRight_spec r rv st :
  rovers st !! r = Some rv →
  turnRight r st = Ok (setDirection r rv (turnedRight (direction rv)) st).
Proof.
  intros Hr. unfold turnRight, turnedRight, getRover. rewrite Hr; simpl.
  destruct (turnRight_case (direction rv)); simpl; [done|].
  by rewrite setDirection_same.
Qed.

Lemma turnedLeft_right d : turnedLeft (turnedRight d) = d.
Proof. unfold turnedLeft, turnedRight, turnLeft_case, turnRight_case. string_cases d. Qed.

Lemma turnedRight_left d : turnedRight (turnedLeft d) = d.
Proof. unfold turnedLeft, turnedRight, turnLeft_case, turnRight_case. string_cases d. Qed.

Lemma turnedRight_four d : turnedRight (turnedRight (turnedRight (turnedRight d))) = d.
Proof. unfold turnedRight, turnRight_case. string_cases d. Qed.

Lemma turnedLeft_four d : turnedLeft (turnedLeft (turnedLeft (turnedLeft d))) = d.
Proof. unfold turnedLeft, turnLeft_case. string_cases d. Qed.

(** Two turns in a row, when the first one is known. *)
Lemma turn_then (turn : ref → state → outcome state) (f : string → string) r rv d st :
  (∀ rv' st', rovers st' !! r = Some rv' →
     turn r st' = Ok (setDirection r rv' (f (direction rv')) st')) →
  rovers st !! r = Some rv →
  mret (setDirection r rv d st) ≫= turn r = Ok (setDirection r rv (f d) st).
Proof.
  intros Hturn Hr. simpl.
  rewrite (Hturn _ _ (setDirection_lookup r rv d st Hr)); simpl.
  by rewrite setDirection_twice.
Qed.

(** C9: over the headings, [turnRight] is the cycle N, E, S, W, N and
    [turnLeft] the opposite one; on a state, four right turns (or four
    left turns) of a rover give the state back, as do a left turn followed
    by a right turn and a right turn followed by a left turn; a turn
    changes nothing but the [direction] of the rover, and the new
    direction is a function of the old one alone. *)
Theorem turns_cycle :
  (turnedRight "N" = "E" ∧ turnedRight "E" = "S" ∧ turnedRight "S" = "W" ∧ turnedRight "W" = "N") ∧
  (turnedLeft "N" = "W" ∧ turnedLeft "W" = "S" ∧ turnedLeft "S" = "E" ∧ turnedLeft "E" = "N") ∧
  ∀ r st rv, rovers st !! r = Some rv →
    ((turnRight r st ≫= turnRight r) ≫= turnRight r) ≫= turnRight r = Ok st ∧
    ((turnLeft r st ≫= turnLeft r) ≫= turnLeft r) ≫= turnLeft r = Ok st ∧
    turnLeft r st ≫= turnRight r = Ok st ∧
    turnRight r st ≫= turnLeft r = Ok st ∧
    turnLeft r st = Ok (setDirection r rv (turnedLeft (direction rv)) st) ∧
    turnRight r st = Ok (setDirection r rv (turnedRight (direction rv)) st).
Proof.
  split; [by repeat split|]. split; [by repeat split|].
  intros r st rv Hr.
  pose proof (λ rv' st', turnRight_spec r rv' st') as HR.
  pose proof (λ rv' st', turnLeft_spec r rv' st') as HL.
  repeat split.
  - rewrite (turnRight_spec r rv st Hr).
    change (Ok ?s) with (mret s : outcome state).
    rewrite (turn_then turnRight turnedRight) by done.
    change (Ok ?s) with (mret s : outcome state).
    rewrite (turn_then turnRight turnedRight) by done.
    change (Ok ?s) with (mret s : outcome state).
    rewrite (turn_then turnRight turnedRight) by done.
    by rewrite turnedRight_four, setDirection_same.
  - rewrite (turnLeft_spec r rv st Hr).
    change (Ok ?s) with (mret s : outcome state).
    rewrite (turn_then turnLeft turnedLeft) by done.
    change (Ok ?s) with (mret s : outcome state).
    rewrite (turn_then turnLeft turnedLeft) by done.
    change (Ok ?s) with (mret s : outcome state).
    rewrite (turn_then turnLeft turnedLeft) by done.
    by rewrite turnedLeft_four, setDirection_same.
  - rewrite (turnLeft_spec r rv st Hr).
    change (Ok ?s) with (mret s : outcome state).
    rewrite (turn_then turnRight turnedRight) by done.
    by rewrite turnedRight_left, setDirection_same.
  - rewrite (turnRight_spec r rv st Hr).
    change (Ok ?s) with (mret s : outcome state).
    rewrite (turn_then turnLeft turnedLeft) by done.
    by rewrite turnedLeft_right, setDirection_same.
  - by apply turnLeft_spec.
  - by apply turnRight_spec.
Qed.

(** ** Sorting the command list *)

Section sorting.
Context {A : Type} (key : A → nat).

(** The comparator is [(a, b) => key b - key a]; it sorts by descending
    key. *)

Lemma sort_insert_perm a l :
  sort_insert (fun a b : A => Z.of_nat (key b) - Z.of_nat (key a)) a l ≡ₚ a :: l.
Proof.
  induction l as [|b l IH]; simpl; [done|].
  destruct (Z.of_nat (key b) - Z.of_nat (key a) <=? 0); [done|].
  rewrite IH. apply Permutation_swap.
Qed.

Lemma sort_perm l :
  sort (fun a b : A => Z.of_nat (key b) - Z.of_nat (key a)) l ≡ₚ l.
Proof.
  induction l as [|a l IH]; simpl; [done|].
  rewrite sort_insert_perm. by rewrite IH.
Qed.

Lemma sort_insert_sorted a l :
  StronglySorted (fun a b : A => (key b ≤ key a)%nat) l →
  StronglySorted (fun a b : A => (key b ≤ key a)%nat)
    (sort_insert (fun a b : A => Z.of_nat (key b) - Z.of_nat (key a)) a l).
Proof.
  induction 1 as [|b l Hl IH Hb]; simpl.
  - repeat constructor.
  - destruct (Z.leb_spec (Z.of_nat (key b) - Z.of_nat (key a)) 0) as [Hab|Hab]; simpl in *.
    + constructor; [by constructor|].
      constructor; [lia|].
      eapply Forall_impl; [exact Hb|]. simpl. intros c Hc. lia.
    + constructor; [exact IH|].
      rewrite sort_insert_perm. constructor; [lia|exact Hb].
Qed.

Lemma sort_sorted l :
  StronglySorted (fun a b : A => (key b ≤ key a)%nat)
    (sort (fun a b : A => Z.of_nat (key b) - Z.of_nat (key a)) l).
Proof.
  induction l as [|a l IH]; simpl; [constructor|].
  by apply sort_insert_sorted.
Qed.

(** Elements of equal key keep their order: the sort is stable. *)
Lemma sort_insert_filter n a l :
  filter (fun q => key q = n)
    (sort_insert (fun a b : A => Z.of_nat (key b) - Z.of_nat (key a)) a l)
  = filter (fun q => key q = n) (a :: l).
Proof.
  induction l as [|b l IH]; simpl; [done|].
  destruct (Z.leb_spec (Z.of_nat (key b) - Z.of_nat (key a)) 0) as [Hab|Hab]; [done|].
  simpl in *.
  rewrite (filter_cons _ b), IH, !filter_cons.
  repeat case_decide; try done; lia.
Qed.

Lemma sort_filter n l :
  filter (fun q => key q = n) (sort (fun a b : A => Z.of_nat (key b) - Z.of_nat (key a)) l)
  = filter (fun q => key q = n) l.
Proof.
  induction l as [|a l IH]; simpl; [done|].
  rewrite sort_insert_filter, !filter_cons, IH. done.
Qed.

(** A list sorted by descending key is determined by its sublists of
    equal key. *)
Lemma sorted_filter_unique s1 s2 :
  StronglySorted (fun a b : A => (key b ≤ key a)%nat) s1 →
  StronglySorted (fun a b : A => (key b ≤ key a)%nat) s2 →
  (∀ n, filter (fun q => key q = n) s1 = filter (fun q => key q = n) s2) →
  s1 = s2.
Proof.
  intros H1. revert s2. induction H1 as [|a s1 Hs1 IH Ha]; intros s2 H2 Heq.
  - destruct s2 as [|b s2]; [done|].
    specialize (Heq (key b)). rewrite filter_cons, decide_True in Heq by done.
    by rewrite filter_nil in Heq.
  - destruct H2 as [|b s2 Hs2 Hb].
    + specialize (Heq (key a)). rewrite filter_cons, decide_True in Heq by done.
      by rewrite filter_nil in Heq.
    + assert (key a = key b) as Hab.
      { pose proof (Heq (key a)) as Ea. pose proof (Heq (key b)) as Eb.
        rewrite !filter_cons in Ea, Eb. simpl in *.
        assert (a ∈ b :: s2) as Hin.
        { apply (list_elem_of_filter (fun q => key q = key a) _ a).
          rewrite filter_cons, <- Ea, decide_True by done. left. }
        assert (b ∈ a :: s1) as Hin'.
        { apply (list_elem_of_filter (fun q => key q = key b) _ b).
          rewrite filter_cons, Eb, decide_True by done. left. }
        apply elem_of_cons in Hin as [->|Hin]; [done|].
        apply elem_of_cons in Hin' as [->|Hin']; [done|].
        rewrite Forall_forall in Ha, Hb.
        specialize (Ha _ Hin'). specialize (Hb _ Hin). lia. }
      assert (a = b) as ->.
      { specialize (Heq (key a)). rewrite !filter_cons in Heq.
        rewrite Hab in Heq. rewrite !decide_True in Heq by done. congruence. }
      f_equal. apply IH; [done|]. intros n.
      specialize (Heq n). rewrite !filter_cons in Heq.
      case_decide; congruence.
Qed.
End sorting.

(** ** The order chain *)

Lemma get_lookup (s : string) (i : nat) : String.get i s = list_ascii_of_string s !! i.
Proof.
  revert i. induction s as [|c s IH]; intros [|i]; simpl; try done.
Qed.








Lemma chain_inner i (cl : list Request.t) (acc : list Order.t) :
  foldl (fun chain row =>
           match String.get i (Request.commands row) with
           | Some c => chain ++ [Order.Make (Request.rover row) c]
           | None => chain
           end) acc cl
  = acc ++ omap (orderAt i) cl.
Proof.
  revert acc. induction cl as [|q cl IH]; intros acc; simpl.
  - by rewrite app_nil_r.
  - rewrite IH. unfold orderAt at 2.
    destruct (String.get i (Request.commands q)); simpl; [|done].
    by rewrite <- app_assoc.
Qed.

Lemma chain_outer (cl : list Request.t) (idx : list nat) (acc : list Order.t) :
  foldl (fun chain i =>
    foldl (fun chain row =>
           match String.get i (Request.commands row) with
           | Some c => chain ++ [Order.Make (Request.rover row) c]
           | None => chain
           end) chain cl) acc idx
  = acc ++ (idx ≫= fun i => omap (orderAt i) cl).
Proof.
  revert acc. induction idx as [|i idx IH]; intros acc; cbn [foldl].
  - by rewrite app_nil_r.
  - rewrite IH, chain_inner, bind_cons. by rewrite <- app_assoc.
Qed.

Lemma max_list_greatest (n : nat) (ns : list nat) :
  n ∈ ns → (∀ m, m ∈ ns → (m ≤ n)%nat) → max_list ns = n.
Proof.
  intros Hn Hle. apply Nat.le_antisymm.
  - destruct (decide (ns = [])) as [->|Hne]; [by apply elem_of_nil in Hn|].
    apply Hle. by apply max_list_elem_of.
  - by apply max_list_elem_of_le.
Qed.









(** What [chainList] computes. *)
Lemma chainList_eq (cl : list Request.t) :
  cl ≠ [] →
  let sorted := sort (fun a b => commandsLength b - commandsLength a) cl in
  stableDescending cl sorted ∧
  chainList cl = Ok (interleave sorted (maxLen cl), sorted).
Proof.
  intros Hne sorted.
  assert (StronglySorted (fun a b => (commandCount b ≤ commandCount a)%nat) sorted) as Hs
    by apply (sort_sorted commandCount cl).
  assert (sorted ≡ₚ cl) as Hp by apply (sort_perm commandCount cl).
  assert (∀ n : nat, filter (fun q => commandCount q = n) sorted
                   = filter (fun q => commandCount q = n) cl) as Hf
    by (intros n; apply (sort_filter commandCount n cl)).
  split; [by split|].
  unfold chainList. fold sorted. clearbody sorted.
  destruct sorted as [|first rest].
  { apply Permutation_nil_l in Hp. done. }
  change (defined ((first :: rest) !! 0%nat)) with (Ok first).
  cbn [mbind outcome_bind mret outcome_ret].
  rewrite chain_outer, app_nil_l. unfold interleave. do 3 f_equal.
  unfold maxLen. f_equal. symmetry. apply max_list_greatest.
  - apply list_elem_of_fmap. exists first. split; [done|]. rewrite <- Hp. left.
  - intros m Hm. apply list_elem_of_fmap in Hm as (q & -> & Hq).
    rewrite <- Hp in Hq. apply elem_of_cons in Hq as [->|Hq]; [done|].
    apply StronglySorted_inv in Hs as [_ Hs]. rewrite Forall_forall in Hs. by apply Hs.
Qed.




(** ** Validation of a batch *)

Lemma hasInvalidCommands_app (pre post : list Request.t) :
  hasInvalidCommands (pre ++ post)
  = foldl (fun errorFlag pair =>
             if hasWrongCommand (Request.commands pair) then Some (Request.rover pair)
             else errorFlag)
          (hasInvalidCommands pre) post.
Proof. unfold hasInvalidCommands. apply foldl_app. Qed.

Lemma foldl_no_offender (flag : option ref) (l : list Request.t) :
  Forall (fun p => ¬ offending p) l →
  foldl (fun errorFlag pair =>
           if hasWrongCommand (Request.commands pair) then Some (Request.rover pair)
           else errorFlag) flag l = flag.
Proof.
  induction 1 as [|p l Hp _ IH]; simpl; [done|].
  unfold offending in Hp. destruct (hasWrongCommand _); [done|]. exact IH.
Qed.

Lemma hasInvalidCommands_last (pre post : list Request.t) (q : Request.t) :
  offending q → Forall (fun p => ¬ offending p) post →
  hasInvalidCommands (pre ++ q :: post) = Some (Request.rover q).
Proof.
  intros Hq Hpost. rewrite hasInvalidCommands_app. simpl.
  unfold offending in Hq. rewrite Hq. by apply foldl_no_offender.
Qed.

Lemma hasInvalidCommands_None (cl : list Request.t) :
  hasInvalidCommands cl = None ↔ Forall (fun p => ¬ offending p) cl.
Proof.
  split.
  - induction cl as [|q cl IH] using rev_ind; [constructor|].
    rewrite hasInvalidCommands_app. simpl. intros H.
    destruct (hasWrongCommand (Request.commands q)) eqn:E; [done|].
    apply Forall_app. split; [by apply IH|].
    constructor; [|constructor]. unfold offending. congruence.
  - intros H. by apply (foldl_no_offender None).
Qed.

(** The last offending request of a batch that has one. *)
Lemma last_offender (cl : list Request.t) :
  Exists offending cl →
  ∃ pre q post, cl = pre ++ q :: post ∧ offending q ∧ Forall (fun p => ¬ offending p) post.
Proof.
  induction cl as [|q cl IH] using rev_ind; intros H; [by apply Exists_nil in H|].
  destruct (decide (offending q)) as [Hq|Hq].
  - exists cl, q, []. by repeat split.
  - apply Exists_app in H as [H|H].
    + destruct (IH H) as (pre & q' & post & -> & Hq' & Hpost).
      exists pre, q', (post ++ [q]). rewrite <- app_assoc. repeat split; [done|].
      apply Forall_app. split; [done|]. by constructor.
    + apply Exists_cons in H as [H|H]; [done|]. by apply Exists_nil in H.
Qed.

Lemma issueWarning_spec r rv message st :
  rovers st !! r = Some rv → name rv ≠ EmptyString →
  issueWarning r message st = Ok (print (Warning (name rv) message) st).
Proof.
  intros Hr Hn. unfold issueWarning, getRover. rewrite Hr; simpl.
  destruct (name rv); [done|]. done.
Qed.

(** C5, as the claim has it, fails when two rovers have invalid strings:
    of Alpha (["lrx"]) and Beta (["y"]), only Beta, the last one, is named
    by a warning. *)
Lemma two_offenders_one_warning :
  offending (Request.Make 0%nat "lrx") ∧
  offending (Request.Make 1%nat "y") ∧
  ∃ st',
    commandRovers rover_js [Request.Make 0%nat "lrx"; Request.Make 1%nat "y"] twoRovers
    = Ok ([Request.Make 0%nat "lrx"; Request.Make 1%nat "y"], st') ∧
    console st' = [Warning "Beta" "has wrong commands. Only l,r,f,b are valid commands"] ∧
    ¬ ∃ message, Warning "Alpha" message ∈ console st'.
Proof.
  split; [reflexivity|]. split; [reflexivity|].
  eexists. split; [reflexivity|]. split; [reflexivity|].
  intros [message Hm]. simpl in Hm.
  apply list_elem_of_singleton in Hm. discriminate.
Qed.

(** C5 (amended): a batch in which some command string has a character
    outside l, r, f, b is rejected as a whole: [commandRovers] executes no
    order, leaves the map, the rovers, their coordinates and the command
    list as they were, and prints exactly one warning, which names the
    rover of the last offending request of the list (a rover with a name);
    when one request alone is offending, that is its rover. *)
Theorem invalid_batch_rejected (v : source) (cl : list Request.t) (st : state) :
  Exists offending cl →
  ∃ pre q post,
    cl = pre ++ q :: post ∧ offending q ∧ Forall (fun p => ¬ offending p) post ∧
    (∀ q0, (∀ p, p ∈ cl → offending p → p = q0) → q = q0) ∧
    ∀ rv, rovers st !! Request.rover q = Some rv → name rv ≠ EmptyString →
      ∃ st', commandRovers v cl st = Ok (cl, st') ∧
             map st' = map st ∧ rovers st' = rovers st ∧ coordObjs st' = coordObjs st ∧
             console st' = console st ++
               [Warning (name rv) "has wrong commands. Only l,r,f,b are valid commands"].
Proof.
  intros Hex. destruct (last_offender cl Hex) as (pre & q & post & -> & Hq & Hpost).
  exists pre, q, post. repeat split; try done.
  - intros q0 Hq0. apply Hq0; [|done]. apply elem_of_app. right. left.
  - intros rv Hr Hn. eexists. unfold commandRovers.
    rewrite (hasInvalidCommands_last pre post q Hq Hpost).
    rewrite (issueWarning_spec _ rv) by done. simpl. by repeat split.
Qed.

Lemma invalid_batch_rejected_witness :
  ∃ st',
    commandRovers part_000 [Request.Make 0%nat "lrx"; Request.Make 1%nat "ff"] twoRovers
    = Ok ([Request.Make 0%nat "lrx"; Request.Make 1%nat "ff"], st') ∧
    console st' = [Warning "Alpha" "has wrong commands. Only l,r,f,b are valid commands"].
Proof.
  destruct (invalid_batch_rejected part_000
              [Request.Make 0%nat "lrx"; Request.Make 1%nat "ff"] twoRovers)
    as (pre & q & post & Hcl & Hq & Hpost & Hone & Hrun).
  { apply Exists_cons. left. reflexivity. }
  assert (q = Request.Make 0%nat "lrx") as ->.
  { apply Hone. intros p Hp Hoff.
    apply elem_of_cons in Hp as [->|Hp]; [done|].
    apply list_elem_of_singleton in Hp as ->. discriminate Hoff. }
  destruct (Hrun (Rover "Alpha" "N" None None)) as (st' & Hst' & _ & _ & _ & Hout);
    [reflexivity | discriminate |].
  exists st'. split; [exact Hst' | exact Hout].
Defined.

(** ** Squares and moves *)

Lemma outOfBounds_true v b d :
  outOfBounds v b d = true ↔
  rowOf v d ≤ Bounds.top b ∨ Bounds.down b ≤ rowOf v d ∨
  colOf v d ≤ Bounds.left b ∨ Bounds.right b ≤ colOf v d.
Proof.
  unfold outOfBounds, rowOf, colOf.
  destruct v; rewrite !orb_true_iff, !Z.leb_le, !Z.geb_le; lia.
Qed.

Lemma outOfBounds_false v b d :
  outOfBounds v b d = false ↔
  Bounds.top b < rowOf v d < Bounds.down b ∧ Bounds.left b < colOf v d < Bounds.right b.
Proof.
  rewrite <- not_true_iff_false, outOfBounds_true. lia.
Qed.

Lemma coords_by_index v c c' : rowOf v c = rowOf v c' → colOf v c = colOf v c' → c = c'.
Proof. destruct v, c, c'; simpl; congruence. Qed.

Lemma readSquare_squareAt v m c sq : readSquare v m c = Ok sq → squareAt v m c = sq.
Proof.
  unfold readSquare, squareAt. intros H. ok_inv.
  match goal with E : squares m !! _ = _ |- _ => rewrite E end. done.
Qed.

Lemma squareAt_readSquare v m c s : squareAt v m c = Some s → readSquare v m c = Ok (Some s).
Proof.
  unfold readSquare, squareAt. destruct (squares m !! rowOf v c); simpl; [|done].
  by intros ->.
Qed.

Lemma squareAt_write v m c s m' :
  writeSquare v m c s = Ok m' →
  boundaries m' = boundaries m ∧
  ∀ c', squareAt v m' c' = if decide (c' = c) then Some s else squareAt v m c'.
Proof.
  unfold writeSquare. intros H. ok_inv. subst m'. split; [done|].
  match goal with E : squares m !! _ = Some ?row |- _ => rename E into Hrow end.
  intros c'. unfold squareAt; simpl.
  destruct (decide (rowOf v c' = rowOf v c)) as [Hr|Hr].
  - rewrite Hr, lookup_insert_eq. simpl.
    destruct (decide (colOf v c' = colOf v c)) as [Hc|Hc].
    + rewrite Hc, lookup_insert_eq.
      rewrite decide_True by (by apply (coords_by_index v)). done.
    + rewrite lookup_insert_ne by done.
      rewrite decide_False by congruence. by rewrite Hrow.
  - rewrite lookup_insert_ne by done.
    rewrite decide_False by congruence. done.
Qed.

Lemma writeSquare_Ok v m c s :
  is_Some (squareAt v m c) → ∃ m', writeSquare v m c s = Ok m'.
Proof.
  unfold squareAt, writeSquare. intros [s' H].
  destruct (squares m !! rowOf v c); simpl in *; [eauto|done].
Qed.

(** The two ways a call of [haveObstacle] that returns can go wrong for
    the rover, and the way it goes right. *)
Lemma haveObstacle_spec v m d :
  match haveObstacle v m d with
  | Ok (Some message) =>
      (message = "destination out of bounds" ∧ outOfBounds v (boundaries m) d = true) ∨
      (message = "collision warning" ∧ outOfBounds v (boundaries m) d = false ∧
       is_Some (squares m !! rowOf v d) ∧ squareAt v m d ≠ Some Empty)
  | Ok None => outOfBounds v (boundaries m) d = false ∧ squareAt v m d = Some Empty
  | TypeError => outOfBounds v (boundaries m) d = false ∧ squares m !! rowOf v d = None
  | OutOfFuel => False
  end.
Proof.
  unfold haveObstacle. destruct (outOfBounds v (boundaries m) d) eqn:Hout; simpl; [by left|].
  unfold readSquare, squareAt.
  destruct (squares m !! rowOf v d) as [row|] eqn:Hrow; simpl; [|done].
  case_decide as Hsq; simpl; [done|]. right. eauto.
Qed.

(** A move that [haveObstacle] turns down: a warning, and nothing else. *)
Lemma repositionRover_blocked v r rv d st message :
  haveObstacle v (map st) d = Ok (Some message) →
  rovers st !! r = Some rv → name rv ≠ EmptyString →
  repositionRover v r d st = Ok (print (Warning (name rv) message) st).
Proof.
  intros Hh Hr Hn. unfold repositionRover. rewrite Hh. simpl.
  by apply issueWarning_spec.
Qed.

(** A move that [haveObstacle] lets through. *)
Lemma repositionRover_accepted v r d st st' :
  haveObstacle v (map st) d = Ok None →
  repositionRover v r d st = Ok st' →
  ∃ rv l cur log,
    rovers st !! r = Some rv ∧ currentCoords rv = Some l ∧
    coordObjs st !! l = Some cur ∧ travelLog rv = Some log ∧
    boundaries (map st') = boundaries (map st) ∧
    (∀ c, squareAt v (map st') c =
          if decide (c = d) then Some (RoverAt r)
          else if decide (c = cur) then Some Empty
          else squareAt v (map st) c) ∧
    rovers st' = <[r := Rover (name rv) (direction rv) (Some l) (Some (log ++ [pushed v l st]))]> (rovers st) ∧
    coordObjs st' = match v with
                    | rover_js => <[l := d]> (coordObjs st)
                    | part_000 => <[l := d]> (coordObjs st) ++ [d]
                    end ∧
    console st' = console st.
Proof.
  intros Hh H. unfold repositionRover in H. rewrite Hh in H. simpl in H.
  unfold getRover, getCurrent in H.
  destruct (rovers st !! r) as [rv|] eqn:Hr; simpl in H; [|done].
  destruct (currentCoords rv) as [l|] eqn:Hl; simpl in H; [|done].
  destruct (coordObjs st !! l) as [cur|] eqn:Hcur; simpl in H; [|done].
  destruct (writeSquare v (map st) cur Empty) as [m1| |] eqn:Hw1; simpl in H; try done.
  rewrite list_lookup_insert_eq in H by (rewrite ?length_insert; by eapply lookup_lt_Some).
  simpl in H.
  destruct d as [dx dy]; simpl in H.
  destruct (writeSquare v m1 (Coords dx dy) (RoverAt r)) as [m2| |] eqn:Hw2; simpl in H; try done.
  destruct (travelLog rv) as [log|] eqn:Hlog; simpl in H; [|done].
  apply squareAt_write in Hw1 as [Hb1 Hs1]. apply squareAt_write in Hw2 as [Hb2 Hs2].
  exists rv, l, cur, log.
  assert (∀ c, squareAt v m2 c =
          if decide (c = Coords dx dy) then Some (RoverAt r)
          else if decide (c = cur) then Some Empty
          else squareAt v (map st) c) as Hsq.
  { intros c. rewrite Hs2. case_decide; [done|]. apply Hs1. }
  destruct v; simpl in H.
  - apply mret_Ok in H. subst st'. simpl. rewrite Hl.
    repeat split; try done; try congruence. apply list_insert_insert_eq.
  - apply mret_Ok in H. subst st'. simpl. rewrite Hl, !length_insert.
    repeat split; try done; try congruence. f_equal. apply list_insert_insert_eq.
Qed.

Lemma position_print ln st r : position (print ln st) r = position st r.
Proof. done. Qed.

(** X16: for every destination handed to [repositionRover] by a rover
    whose name is not the empty string: when the destination is at or
    beyond a boundary the warning "destination out of bounds" is printed and nothing else
    changes; when it is inside and its square holds an obstacle or a rover
    the warning "collision warning" is printed and nothing else changes;
    whenever [repositionRover] returns, the rover is where it was or
    exactly on the destination. *)
Theorem blocked_move_changes_nothing (v : source) (r : ref) (destination : coords)
    (st : state) (rv : rover) :
  rovers st !! r = Some rv → name rv ≠ EmptyString →
  let b := boundaries (map st) in
  ((rowOf v destination ≤ Bounds.top b ∨ Bounds.down b ≤ rowOf v destination ∨
    colOf v destination ≤ Bounds.left b ∨ Bounds.right b ≤ colOf v destination) →
   repositionRover v r destination st
   = Ok (State (map st) (rovers st) (coordObjs st)
               (console st ++ [Warning (name rv) "destination out of bounds"]))) ∧
  (Bounds.top b < rowOf v destination < Bounds.down b →
   Bounds.left b < colOf v destination < Bounds.right b →
   (squareAt v (map st) destination = Some Rock ∨
    ∃ r', squareAt v (map st) destination = Some (RoverAt r')) →
   repositionRover v r destination st
   = Ok (State (map st) (rovers st) (coordObjs st)
               (console st ++ [Warning (name rv) "collision warning"]))) ∧
  (∀ st', repositionRover v r destination st = Ok st' →
     position st' r = position st r ∨ position st' r = Some destination).
Proof.
  intros Hr Hn b. split; [|split].
  - intros Hout. apply outOfBounds_true in Hout.
    apply (repositionRover_blocked v r rv); [|done|done].
    unfold haveObstacle. fold b. by rewrite Hout.
  - intros Hrow Hcol Hsq.
    apply (repositionRover_blocked v r rv); [|done|done].
    unfold haveObstacle. fold b.
    rewrite (proj2 (outOfBounds_false v b destination)) by done.
    destruct Hsq as [Hsq|[r' Hsq]]; rewrite (squareAt_readSquare _ _ _ _ Hsq); done.
  - intros st' H.
    pose proof (haveObstacle_spec v (map st) destination) as Hh.
    destruct (haveObstacle v (map st) destination) as [[message|]| |] eqn:E.
    + rewrite (repositionRover_blocked v r rv destination st message E Hr Hn) in H.
      apply mret_Ok in H. subst st'. by left.
    + right.
      destruct (repositionRover_accepted v r destination st st' E H)
        as (rv' & l & cur & log & Hr' & Hl & Hcur & _ & _ & _ & Hrs & Hcs & _).
      unfold position. rewrite Hrs.
      rewrite list_lookup_insert_eq by (by eapply lookup_lt_Some). simpl.
      rewrite Hcs. apply lookup_lt_Some in Hcur.
      destruct v.
      * by apply list_lookup_insert_eq.
      * rewrite lookup_app_l by (by rewrite length_insert).
        by apply list_lookup_insert_eq.
    + unfold repositionRover in H. by rewrite E in H.
    + done.
Qed.

Lemma blocked_move_changes_nothing_witness :
  repositionRover part_000 0%nat (Coords 5 (-1)) (alphaPlaced part_000)
  = Ok (State (map (alphaPlaced part_000)) (rovers (alphaPlaced part_000))
              (coordObjs (alphaPlaced part_000))
              (console (alphaPlaced part_000) ++ [Warning "Alpha" "destination out of bounds"])).
Proof.
  apply (proj1 (blocked_move_changes_nothing part_000 0%nat (Coords 5 (-1))
                  (alphaPlaced part_000) (Rover "Alpha" "N" (Some 0%nat) (Some [1%nat]))
                  eq_refl ltac:(discriminate))).
  left. vm_compute. discriminate.
Defined.

(** C3: the claim fails for a rover whose name is the empty string.
    Deployed alone on a map of one square, the rover has the destination
    of a move forward beyond a boundary, and its own square is occupied;
    [haveObstacle] answers "destination out of bounds" for the first and
    "collision warning" for the second, and [issueWarning] then throws
    in [capitalize], on [word[0].toUpperCase()]: in both files the move
    ends in a TypeError and no warning is printed. *)
Theorem nameless_rover_throws :
  (initializeMap rover_js 1 (fun _ => 0%Q) 1 1 0 [0%nat] (setupState [(EmptyString, "N")])
   = Ok (true, namelessPlaced rover_js) ∧
   position (namelessPlaced rover_js) 0%nat = Some (Coords 0 0) ∧
   haveObstacle rover_js (map (namelessPlaced rover_js)) (Coords (-1) 0)
   = Ok (Some "destination out of bounds") ∧
   moveForward rover_js 0%nat (namelessPlaced rover_js) = TypeError ∧
   repositionRover rover_js 0%nat (Coords (-1) 0) (namelessPlaced rover_js) = TypeError ∧
   haveObstacle rover_js (map (namelessPlaced rover_js)) (Coords 0 0)
   = Ok (Some "collision warning") ∧
   repositionRover rover_js 0%nat (Coords 0 0) (namelessPlaced rover_js) = TypeError) ∧
  (initializeMap part_000 1 (fun _ => 0%Q) 1 1 0 [0%nat] (setupState [(EmptyString, "N")])
   = Ok (true, namelessPlaced part_000) ∧
   position (namelessPlaced part_000) 0%nat = Some (Coords 0 0) ∧
   haveObstacle part_000 (map (namelessPlaced part_000)) (Coords 0 (-1))
   = Ok (Some "destination out of bounds") ∧
   moveForward part_000 0%nat (namelessPlaced part_000) = TypeError ∧
   repositionRover part_000 0%nat (Coords 0 (-1)) (namelessPlaced part_000) = TypeError ∧
   haveObstacle part_000 (map (namelessPlaced part_000)) (Coords 0 0)
   = Ok (Some "collision warning") ∧
   repositionRover part_000 0%nat (Coords 0 0) (namelessPlaced part_000) = TypeError).
Proof. split; repeat split; by vm_compute. Qed.

(** ** Deploying obstacles and rovers *)

Lemma fill_lookup {A} (n : nat) (a : A) (i : Z) :
  fill n a !! i = if decide (0 ≤ i < Z.of_nat n) then Some a else None.
Proof.
  induction n as [|n IH]; simpl.
  - rewrite lookup_empty. by rewrite decide_False by lia.
  - destruct (decide (i = Z.of_nat n)) as [->|Hne].
    + rewrite lookup_insert_eq. by rewrite decide_True by lia.
    + rewrite lookup_insert_ne by done. rewrite IH.
      repeat case_decide; try done; lia.
Qed.

(** A new map: the squares inside the boundaries hold [0], there are no
    others. *)
Lemma generateMap_squares v xSize ySize m :
  generateMap v xSize ySize = Some m →
  0 < xSize ∧ 0 < ySize ∧
  Bounds.top (boundaries m) = -1 ∧ Bounds.left (boundaries m) = -1 ∧
  Bounds.down (boundaries m) * Bounds.right (boundaries m) = xSize * ySize ∧
  0 < Bounds.down (boundaries m) ∧ 0 < Bounds.right (boundaries m) ∧
  ∀ c, squareAt v m c = if outOfBounds v (boundaries m) c then None else Some Empty.
Proof.
  unfold generateMap.
  destruct (Z.ltb_spec 0 xSize) as [Hx|Hx]; [|done].
  destruct (Z.ltb_spec 0 ySize) as [Hy|Hy]; [|done]. simpl.
  destruct v; intros [= <-]; simpl; (repeat split; try done; try lia);
    intros c; unfold squareAt, outOfBounds, rowOf, colOf; simpl;
    rewrite fill_lookup; case_decide as H1; simpl;
    rewrite ?fill_lookup; try case_decide as H2; simpl;
    repeat match goal with
    | |- context [?a <=? ?b] => destruct (Z.leb_spec a b); simpl
    | |- context [?a >=? ?b] => rewrite (Z.geb_leb a b); destruct (Z.leb_spec b a); simpl
    end; try done; lia.
Qed.

Lemma generateMap_positive v xSize ySize :
  0 < xSize → 0 < ySize → is_Some (generateMap v xSize ySize).
Proof.
  intros Hx Hy. unfold generateMap.
  destruct (Z.ltb_spec 0 xSize); [|lia]. destruct (Z.ltb_spec 0 ySize); [|lia].
  simpl. destruct v; eauto.
Qed.

(** *** Rounding to binary64 *)

Section numbers.
Local Open Scope Q_scope.

Lemma pow2_pos e : 0 < pow2 e.
Proof. apply Qpower_0_lt. reflexivity. Qed.

Lemma pow2_add a b : pow2 (a + b) == pow2 a * pow2 b.
Proof. apply Qpower_plus. discriminate. Qed.

Lemma pow2_cancel e : pow2 (- e) * pow2 e == 1.
Proof. rewrite <- pow2_add. replace (- e + e)%Z with 0%Z by lia. reflexivity. Qed.

Lemma pow2_inject (k : Z) : (0 <= k)%Z → inject_Z (2 ^ k) == pow2 k.
Proof. intros Hk. unfold pow2. by rewrite Zpower_Qpower. Qed.

Lemma roundHalfEven_bounds q :
  q - (1 # 2) <= inject_Z (roundHalfEven q) <= q + (1 # 2).
Proof.
  unfold roundHalfEven.
  pose proof (Qfloor_le q) as Hlo. pose proof (Qlt_floor q) as Hhi.
  rewrite inject_Z_plus in Hhi. change (inject_Z 1) with 1 in Hhi.
  destruct (q - inject_Z (Qfloor q) ?= 1 # 2) eqn:E.
  - apply Qeq_alt in E. destruct (Z.even (Qfloor q)).
    + lra.
    + rewrite inject_Z_plus. change (inject_Z 1) with 1. lra.
  - apply Qlt_alt in E. lra.
  - apply Qgt_alt in E. rewrite inject_Z_plus. change (inject_Z 1) with 1. lra.
Qed.

Lemma lastPlace_scaled q : 0 < q → pow2 52 <= q * pow2 (- lastPlace q).
Proof.
  intros Hq. unfold lastPlace.
  destruct (Qle_bool (pow2 53) _) eqn:E.
  - apply Qle_bool_iff in E.
    replace (- (Z.log2 (Qnum q) - Z.log2 (Z.pos (Qden q)) - 53 + 1))%Z
      with (- (Z.log2 (Qnum q) - Z.log2 (Z.pos (Qden q)) - 53) + - 1)%Z by lia.
    rewrite pow2_add. change (pow2 (-1)) with (1 # 2).
    change (pow2 53) with (2 * pow2 52) in E. lra.
  - clear E. destruct q as [a b]. cbn [Qnum Qden].
    assert (0 < a)%Z as Ha by (unfold Qlt in Hq; simpl in Hq; lia).
    destruct (Z.log2_spec a Ha) as [Hla _].
    destruct (Z.log2_spec (Z.pos b) (Pos2Z.is_pos b)) as [_ Hlb].
    pose proof (Z.log2_nonneg a) as Hla0. pose proof (Z.log2_nonneg (Z.pos b)) as Hlb0.
    generalize dependent (Z.log2 a). generalize dependent (Z.log2 (Z.pos b)).
    intros lb Hlb Hlb0 la Hla Hla0.
    assert (pow2 la <= inject_Z a) as Ha'.
    { rewrite <- pow2_inject by done. by rewrite <- Zle_Qle. }
    assert (inject_Z (Z.pos b) <= pow2 (lb + 1)) as Hb'.
    { rewrite <- pow2_inject by lia. rewrite <- Zle_Qle. unfold Z.succ in Hlb. lia. }
    rewrite (Qmake_Qdiv a b).
    assert (0 < inject_Z (Z.pos b)) as Hb0 by (by rewrite <- (Zlt_Qlt 0)).
    set (e := (la - lb - 53)%Z).
    assert (pow2 la == pow2 52 * pow2 (lb + 1) * pow2 e) as Hsplit.
    { rewrite <- !pow2_add. replace (52 + (lb + 1) + e)%Z with la by (unfold e; lia). reflexivity. }
    pose proof (pow2_cancel e) as Hc. pose proof (pow2_pos e) as He.
    pose proof (pow2_pos (- e)) as He'. pose proof (pow2_pos 52) as H52.
    pose proof (pow2_pos (lb + 1)) as Hl1.
        assert (pow2 52 * inject_Z (Z.pos b) * pow2 e <= inject_Z a) as Hkey.
    { eapply Qle_trans; [|exact Ha']. rewrite Hsplit.
      apply Qmult_le_compat_r; [|lra].
      rewrite !(Qmult_comm (pow2 52)). apply Qmult_le_compat_r; [done|lra]. }
    assert (inject_Z a / inject_Z (Z.pos b) * pow2 (- e) ==
            inject_Z a * pow2 (- e) / inject_Z (Z.pos b)) as -> by (field; lra).
    apply Qle_shift_div_l; [done|].
    apply (Qmult_le_r _ _ (pow2 e)); [done|].
    rewrite <- (Qmult_assoc (inject_Z a)), Hc, Qmult_1_r. exact Hkey.
Qed.

Lemma nearest_bounds q : 0 < q → 0 <= nearest q <= q * (1 + pow2 (-53)).
Proof.
  intros Hq. pose proof (lastPlace_scaled q Hq) as Hs. unfold nearest.
  set (e := lastPlace q) in *.
  pose proof (roundHalfEven_bounds (q * pow2 (- e))) as [Hlo Hhi].
  pose proof (pow2_cancel e) as Hc. pose proof (pow2_pos e) as He.
  set (m := inject_Z (roundHalfEven (q * pow2 (- e)))) in *.
  set (x := q * pow2 (- e)) in *.
  assert (q == x * pow2 e) as Hx.
  { unfold x. by rewrite <- Qmult_assoc, Hc, Qmult_1_r. }
  change (pow2 52) with (4503599627370496 # 1) in Hs.
  change (pow2 (-53)) with (1 # 9007199254740992).
  split.
  - apply Qmult_le_0_compat; lra.
  - rewrite Hx. rewrite <- Qmult_assoc, (Qmult_comm (pow2 e)), Qmult_assoc.
    apply Qmult_le_compat_r; lra.
Qed.

Lemma binary64_bounds p : 0 <= p → 0 <= binary64 p <= p * (1 + pow2 (-53)).
Proof.
  intros Hp. unfold binary64.
  assert (0 <= Qnum p)%Z as Hn by (unfold Qle in Hp; simpl in Hp; lia).
  change (pow2 (-53)) with (1 # 9007199254740992).
  destruct (Qnum p) as [|a|a] eqn:E; [split; lra| |lia].
  assert (0 < p) by (unfold Qlt; simpl; lia).
  pose proof (nearest_bounds p). change (pow2 (-53)) with (1 # 9007199254740992) in *. tauto.
Qed.

Lemma unitSample_range q : unitSample q → 0 <= q <= 1 - pow2 (-53).
Proof.
  intros (m & e & [Hm0 Hm] & Hme & _ & ->).
  change (pow2 (-53)) with (1 # 9007199254740992).
  assert (0 < 2 ^ Z.of_nat e)%Z as Hp by (apply Z.pow_pos_nonneg; lia).
  assert (0 < inject_Z (2 ^ Z.of_nat e)) as Hp' by (by rewrite <- (Zlt_Qlt 0)).
  split.
  - apply Qle_shift_div_l; [done|]. rewrite Qmult_0_l. by rewrite <- (Zle_Qle 0).
  - apply Qle_shift_div_r; [done|].
    destruct (decide (Z.of_nat e ≤ 53)%Z) as [Hle|Hgt].
    + assert (2 ^ 53 = 2 ^ (53 - Z.of_nat e) * 2 ^ Z.of_nat e)%Z as Hsplit.
      { rewrite <- Z.pow_add_r by lia. f_equal. lia. }
      assert (1 <= 2 ^ (53 - Z.of_nat e))%Z by (pose proof (Z.pow_pos_nonneg 2 (53 - Z.of_nat e)); lia).
      assert (inject_Z m * (9007199254740992 # 1) <= (9007199254740991 # 1) * inject_Z (2 ^ Z.of_nat e)) as Hk.
      { change (9007199254740992 # 1) with (inject_Z (2 ^ 53)).
        change (9007199254740991 # 1) with (inject_Z (2 ^ 53 - 1)).
        rewrite <- !inject_Z_mult, <- Zle_Qle. nia. }
      lra.
    + assert (2 ^ 53 <= 2 ^ Z.of_nat e)%Z as Hbig by (apply Z.pow_le_mono_r; lia).
      assert (inject_Z m <= (9007199254740991 # 1)) as Hm'.
      { change (9007199254740991 # 1) with (inject_Z (2 ^ 53 - 1)). rewrite <- Zle_Qle. lia. }
      assert ((9007199254740992 # 1) <= inject_Z (2 ^ Z.of_nat e)) as Hb'.
      { change (9007199254740992 # 1) with (inject_Z (2 ^ 53)). by rewrite <- Zle_Qle. }
      lra.
Qed.

Lemma floorTimes_range (q : Q) (n : Z) :
  unitSample q → (0 < n)%Z → (0 ≤ floorTimes q n < n)%Z.
Proof.
  intros [Hq0 Hq1]%unitSample_range Hn. unfold floorTimes.
  change (pow2 (-53)) with (1 # 9007199254740992) in Hq1.
  assert (0 < inject_Z n) as Hn' by (by rewrite <- (Zlt_Qlt 0)).
  assert (0 <= q * inject_Z n) as Hp by (apply Qmult_le_0_compat; lra).
  destruct (binary64_bounds _ Hp) as [Hlo Hhi].
  change (pow2 (-53)) with (1 # 9007199254740992) in Hhi.
  split.
  - rewrite <- (Qfloor_Z 0). by apply Qfloor_resp_le.
  - rewrite Zlt_Qlt. eapply Qle_lt_trans; [apply Qfloor_le|].
    eapply Qle_lt_trans; [exact Hhi|].
    assert (q * inject_Z n <= (1 - (1 # 9007199254740992)) * inject_Z n) as Hqn
      by (apply Qmult_le_compat_r; lra).
    nra.
Qed.

(** The product is rounded before it is floored: 7 times the binary64
    number 2573485501354569 / 2^52 is 4 - 2^-52, which is no binary64
    number, and the nearest one is 4. *)
Lemma floorTimes_rounds :
  floorTimes (2573485501354569 # 4503599627370496) 7 = 4%Z ∧
  Qfloor ((2573485501354569 # 4503599627370496) * inject_Z 7) = 3%Z.
Proof. split; by vm_compute. Qed.

End numbers.

Lemma randomPair_inside v rnd k b :
  unitSamples rnd → Bounds.top b = -1 → Bounds.left b = -1 →
  0 < Bounds.down b → 0 < Bounds.right b →
  outOfBounds v b (randomPair v rnd k b) = false.
Proof.
  intros Hu Ht Hl Hd Hr. apply outOfBounds_false.
  pose proof (floorTimes_range (rnd k) (Bounds.down b) (Hu k) Hd).
  pose proof (floorTimes_range (rnd k) (Bounds.right b) (Hu k) Hr).
  pose proof (floorTimes_range (rnd (S k)) (Bounds.down b) (Hu (S k)) Hd).
  pose proof (floorTimes_range (rnd (S k)) (Bounds.right b) (Hu (S k)) Hr).
  destruct v; simpl; lia.
Qed.

Lemma pop_app {A} (l : list A) (a : A) : pop (l ++ [a]) = Some (a, l).
Proof. unfold pop. rewrite reverse_app. simpl. by rewrite reverse_involutive. Qed.

Lemma pop_Some {A} (l l' : list A) (a : A) : pop l = Some (a, l') → l = l' ++ [a].
Proof.
  destruct l as [|b l _] using rev_ind; [done|].
  rewrite pop_app. by intros [= -> ->].
Qed.

Lemma placing_init v xSize ySize m st :
  generateMap v xSize ySize = Some m →
  placing v (setMap m st) 0 [] [] (setMap m st).
Proof.
  intros Hm. apply generateMap_squares in Hm as (_ & _ & _ & _ & _ & _ & _ & Hsq).
  split; simpl; try done.
  - intros c. rewrite Hsq. destruct (outOfBounds v (boundaries m) c).
    + split; [by intros [? ?]|done].
    + split; [done|eauto].
  - constructor.
  - intros c. split; [by intros ?%elem_of_nil|].
    intros (s & Hs & Hne). rewrite Hsq in Hs.
    destruct (outOfBounds v (boundaries m) c); congruence.
  - exists []. by rewrite app_nil_r.
  - intros c r. rewrite Hsq. destruct (outOfBounds v (boundaries m) c); done.
Qed.

Lemma placing_rock v st0 rocks cells placed st pair m :
  placing v st0 rocks cells placed st →
  squareAt v (map st) pair = Some Empty →
  writeSquare v (map st) pair Rock = Ok m →
  placing v st0 (S rocks) (pair :: cells) placed (setMap m st).
Proof.
  intros [pl_bounds0 pl_console0 pl_grid0 pl_nodup0 pl_cells0 pl_count0 pl_rovers0 pl_others0 pl_objs0 pl_placed0 pl_squares0] Hpair Hw. apply squareAt_write in Hw as [Hb Hsq].
  assert (pair ∉ cells) as Hnew.
  { intros (s & Hs & Hne)%pl_cells0. congruence. }
  split; simpl; try done.
  - congruence.
  - intros c. rewrite Hsq, Hb. case_decide as Hc; [|done]. subst c.
    rewrite <- pl_grid0, Hpair. split; eauto.
  - by constructor.
  - intros c. rewrite elem_of_cons, pl_cells0. unfold occupied. rewrite Hsq.
    case_decide as Hc.
    + split; [|by left]. intros _. by exists Rock.
    + split; [|by right]. by intros [?|?].
  - simpl. lia.
  - intros i r Hi. destruct (pl_placed0 i r Hi) as (rv0 & c & H0 & H1 & H2 & H3 & H4).
    exists rv0, c. repeat split; try done.
    rewrite Hsq. rewrite decide_False; [done|]. intros ->. congruence.
  - intros c r. rewrite Hsq. case_decide; [done|]. apply pl_squares0.
Qed.

Lemma position_kept st st' r c new :
  position st r = Some c →
  rovers st' !! r = rovers st !! r →
  coordObjs st' = coordObjs st ++ new →
  position st' r = Some c.
Proof.
  unfold position. intros H Hr Hc. rewrite Hr, Hc.
  destruct (rovers st !! r) as [rv|]; simpl in *; [|done].
  destruct (currentCoords rv) as [l|]; simpl in *; [|done].
  by apply lookup_app_l_Some.
Qed.

Lemma placing_rover v st0 rocks cells placed st pair r :
  placing v st0 rocks cells placed st →
  squareAt v (map st) pair = Some Empty →
  r ∉ placed → (r < length (rovers st0))%nat →
  ∃ st', placeRover v r pair st = Ok st' ∧
         placing v st0 rocks (pair :: cells) (placed ++ [r]) st'.
Proof.
  intros [pl_bounds0 pl_console0 pl_grid0 pl_nodup0 pl_cells0 pl_count0 pl_rovers0 pl_others0 pl_objs0 pl_placed0 pl_squares0] Hpair Hr Hlt.
  destruct (writeSquare_Ok v (map st) pair (RoverAt r)) as [m Hw]; [by rewrite Hpair|].
  destruct (lookup_lt_is_Some_2 (rovers st0) r Hlt) as [rv0 Hrv0].
  assert (rovers st !! r = Some rv0) as Hrv by (by rewrite pl_others0).
  destruct pl_objs0 as (new & Hobjs & Hnew).
  unfold placeRover. rewrite Hw. simpl. unfold getRover. simpl. rewrite Hrv. simpl.
  eexists. split; [reflexivity|].
  apply squareAt_write in Hw as [Hb Hsq].
  assert (pair ∉ cells) as Hfresh.
  { intros (s & Hs & Hne)%pl_cells0. congruence. }
  assert (Coords (x pair) (y pair) = pair) as Heta by (by destruct pair).
  assert (length (coordObjs st) = (length (coordObjs st0) + 2 * length placed)%nat) as Hlen.
  { rewrite Hobjs, length_app. lia. }
  split; simpl; try done.
  - congruence.
  - intros c. rewrite Hsq, Hb. case_decide as Hc; [|done]. subst c.
    rewrite <- pl_grid0, Hpair. split; eauto.
  - by constructor.
  - intros c. rewrite elem_of_cons, pl_cells0. unfold occupied. rewrite Hsq.
    case_decide as Hc.
    + split; [|by left]. intros _. by exists (RoverAt r).
    + split; [|by right]. by intros [?|?].
  - rewrite length_app. simpl. lia.
  - by rewrite length_insert.
  - intros r' Hr'. rewrite list_lookup_insert_ne; [apply pl_others0|].
    + intros Hin. apply Hr'. apply elem_of_app. by left.
    + intros ->. apply Hr'. apply elem_of_app. right. left.
  - exists (new ++ [pair; pair]). rewrite Heta, Hobjs, !length_app. simpl.
    split; [|lia]. by rewrite <- !app_assoc.
  - intros i r' Hi. apply lookup_app_Some in Hi as [Hi|[Hge Hi]].
    + destruct (pl_placed0 i r' Hi) as (rv1 & c & H0 & H1 & H2 & H3 & H4).
      assert (r' ≠ r) as Hne.
      { intros ->. apply Hr. by eapply list_elem_of_lookup_2. }
      exists rv1, c. rewrite list_lookup_insert_ne by done.
      repeat split; try done.
      * rewrite <- app_assoc. by apply lookup_app_l_Some.
      * rewrite <- app_assoc. by apply lookup_app_l_Some.
      * rewrite Hsq. rewrite decide_False; [done|]. intros ->. congruence.
    + destruct (i - length placed)%nat as [|j] eqn:Hj; simpl in Hi; [|done].
      injection Hi as <-. assert (i = length placed) as -> by lia.
      exists rv0, pair. rewrite list_lookup_insert_eq by (rewrite pl_rovers0; lia).
      rewrite Heta.
      replace (length (coordObjs st0) + 2 * length placed)%nat
        with (length (coordObjs st)) by lia.
      repeat split; try done.
      * rewrite length_app. simpl. repeat f_equal; lia.
      * rewrite lookup_app_l by (rewrite length_app; simpl; lia).
        rewrite lookup_app_r by lia. by replace (_ - _)%nat with 0%nat by lia.
      * rewrite lookup_app_r by (rewrite length_app; simpl; lia).
        rewrite length_app. simpl.
        by replace (_ - _)%nat with 0%nat by lia.
      * rewrite Hsq. by rewrite decide_True.
  - intros c r'. rewrite Hsq. case_decide as Hc.
    + intros [= <-]. subst c. split; [apply elem_of_app; right; left|].
      unfold position; simpl.
      rewrite list_lookup_insert_eq by (rewrite pl_rovers0; lia). simpl.
      rewrite lookup_app_l by (rewrite length_app; simpl; lia).
      by rewrite lookup_app_r, Nat.sub_diag, Heta.
    + intros H'. destruct (pl_squares0 c r' H') as [Hin Hpos].
      split; [apply elem_of_app; by left|].
      apply (position_kept st _ r' c [pair; pair] Hpos); simpl.
      * apply list_lookup_insert_ne. by intros ->.
      * by rewrite Heta, <- app_assoc.
Qed.

Lemma landscapeLoop_done v fuel rnd k numObst rs st :
  landscapeLoop v fuel rnd k 0 numObst rs st = Ok st.
Proof. by destruct fuel. Qed.

Lemma landscapeLoop_step v fuel rnd k deploys numObst rs st :
  landscapeLoop v (S fuel) rnd k (S deploys) numObst rs st =
  (let pair := randomPair v rnd k (boundaries (map st)) in
   sq ← readSquare v (map st) pair;
   if decide (sq = Some Empty) then
     match numObst with
     | S numObst' =>
         m ← writeSquare v (map st) pair Rock;
         landscapeLoop v fuel rnd (2 + k) deploys numObst' rs (setMap m st)
     | O =>
         '(r, rs') ← defined (pop rs);
         st' ← placeRover v r pair st;
         landscapeLoop v fuel rnd (2 + k) deploys O rs' st'
     end
   else landscapeLoop v fuel rnd (2 + k) (S deploys) numObst rs st).
Proof. reflexivity. Qed.

Section deploying.
Context (v : source) (rnd : nat → Q) (st0 : state) (fleet : list ref).
Hypothesis Hunit : unitSamples rnd.
Hypothesis Hfleet : NoDup fleet.
Hypothesis Hvalid : ∀ r, r ∈ fleet → (r < length (rovers st0))%nat.
Hypothesis Htop : Bounds.top (boundaries (map st0)) = -1.
Hypothesis Hleft : Bounds.left (boundaries (map st0)) = -1.
Hypothesis Hdown : 0 < Bounds.down (boundaries (map st0)).
Hypothesis Hright : 0 < Bounds.right (boundaries (map st0)).

(** The square an iteration draws is a square of the map. *)
Lemma drawn_square rocks cells placed st k :
  placing v st0 rocks cells placed st →
  ∃ s, readSquare v (map st) (randomPair v rnd k (boundaries (map st))) = Ok (Some s).
Proof.
  intros Hp. pose proof (pl_bounds _ _ _ _ _ _ Hp) as Hb.
  assert (is_Some (squareAt v (map st) (randomPair v rnd k (boundaries (map st))))) as [s Hs].
  { apply (pl_grid _ _ _ _ _ _ Hp). rewrite Hb. by apply randomPair_inside. }
  exists s. by apply squareAt_readSquare.
Qed.

(** The rover [pop] returns has not been deployed yet. *)
Lemma next_rover rs r placed :
  fleet = rs ++ r :: reverse placed →
  (r ∉ placed) ∧ (r < length (rovers st0))%nat ∧ fleet = rs ++ reverse (placed ++ [r]).
Proof.
  intros Heq. repeat split.
  - rewrite Heq in Hfleet. apply NoDup_app in Hfleet as (_ & _ & Hd).
    apply NoDup_cons in Hd as [Hd _].
    intros Hin. apply Hd. by apply elem_of_reverse.
  - apply Hvalid. rewrite Heq. apply elem_of_app. right. left.
  - by rewrite Heq, reverse_app.
Qed.

(** When the loop has returned, everything has been deployed. *)
Lemma landscapeLoop_placing fuel :
  ∀ k deploys numObst rs rocks cells placed st st',
    placing v st0 rocks cells placed st →
    fleet = rs ++ reverse placed →
    deploys = (numObst + length rs)%nat →
    landscapeLoop v fuel rnd k deploys numObst rs st = Ok st' →
    ∃ cells', placing v st0 (rocks + numObst) cells' (reverse fleet) st'.
Proof.
  induction fuel as [|fuel IH]; intros k deploys numObst rs rocks cells placed st st' Hp Heq Hd H.
  - destruct deploys; [|done]. simpl in H. apply mret_Ok in H. subst st'.
    destruct numObst; [|done]. destruct rs; [|done]. simpl in Heq.
    exists cells. rewrite Heq, reverse_involutive, Nat.add_0_r. done.
  - destruct deploys as [|deploys].
    { rewrite landscapeLoop_done in H. apply mret_Ok in H. subst st'.
      destruct numObst; [|done]. destruct rs; [|done]. simpl in Heq.
      exists cells. rewrite Heq, reverse_involutive, Nat.add_0_r. done. }
    rewrite landscapeLoop_step in H. cbv zeta in H.
    destruct (drawn_square rocks cells placed st k Hp) as [s Hs].
    rewrite Hs in H. simpl in H.
    pose proof (readSquare_squareAt _ _ _ _ Hs) as Hsq.
    destruct (decide (Some s = Some Empty)) as [[= ->]|Hne].
    + destruct numObst as [|numObst].
      * destruct rs as [|r rs _] using rev_ind; [done|].
        rewrite pop_app in H. simpl in H.
        rewrite <- app_assoc in Heq.
        destruct (next_rover rs r placed Heq) as (Hr & Hlt & Heq').
        destruct (placing_rover v st0 rocks cells placed st _ r Hp Hsq Hr Hlt)
          as (st1 & Hst1 & Hp1).
        rewrite Hst1 in H. simpl in H.
        rewrite length_app in Hd. simpl in Hd.
        refine (IH _ _ _ _ _ _ _ _ _ Hp1 Heq' _ H). lia.
      * destruct (writeSquare v (map st) _ Rock) as [m| |] eqn:Hw; simpl in H; try done.
        pose proof (placing_rock v st0 rocks cells placed st _ m Hp Hsq Hw) as Hp1.
        assert (deploys = (numObst + length rs)%nat) as Hd' by lia.
        destruct (IH _ _ _ _ _ _ _ _ _ Hp1 Heq Hd' H) as [cells' Hc].
        exists cells'. by replace (rocks + S numObst)%nat with (S rocks + numObst)%nat by lia.
    + by eapply IH.
Qed.
End deploying.

Lemma cellOf_inside v b n :
  Bounds.top b = -1 → Bounds.left b = -1 → 0 < Bounds.right b →
  Z.of_nat n < Bounds.down b * Bounds.right b →
  outOfBounds v b (cellOf v b n) = false.
Proof.
  intros Ht Hl Hr Hn. apply outOfBounds_false.
  assert (0 ≤ Z.of_nat n / Bounds.right b < Bounds.down b).
  { split; [apply Z.div_pos; lia|]. apply Z.div_lt_upper_bound; lia. }
  pose proof (Z.mod_pos_bound (Z.of_nat n) (Bounds.right b) Hr).
  destruct v; simpl; lia.
Qed.

Lemma cellOf_inj v b n1 n2 :
  0 < Bounds.right b → cellOf v b n1 = cellOf v b n2 → n1 = n2.
Proof.
  intros Hr Heq.
  assert (Z.of_nat n1 / Bounds.right b = Z.of_nat n2 / Bounds.right b ∧
          Z.of_nat n1 mod Bounds.right b = Z.of_nat n2 mod Bounds.right b) as [Hd Hm].
  { destruct v; injection Heq; auto. }
  pose proof (Z.div_mod (Z.of_nat n1) (Bounds.right b) ltac:(lia)).
  pose proof (Z.div_mod (Z.of_nat n2) (Bounds.right b) ltac:(lia)).
  apply Nat2Z.inj. congruence.
Qed.

(** Fewer squares taken than the map has: one of them is free. *)
Lemma free_square v st0 rocks cells placed st :
  Bounds.top (boundaries (map st0)) = -1 → Bounds.left (boundaries (map st0)) = -1 →
  0 < Bounds.right (boundaries (map st0)) →
  placing v st0 rocks cells placed st →
  Z.of_nat (length cells) < Bounds.down (boundaries (map st0)) * Bounds.right (boundaries (map st0)) →
  ∃ c, outOfBounds v (boundaries (map st0)) c = false ∧ squareAt v (map st) c = Some Empty.
Proof.
  intros Ht Hl Hr Hp Hlen. set (b := boundaries (map st0)) in *.
  set (N := Z.to_nat (Bounds.down b * Bounds.right b)).
  destruct (decide (Forall (fun n => cellOf v b n ∈ cells) (seq 0 N))) as [Hall|Hex].
  - exfalso.
    assert (cellOf v b <$> seq 0 N ⊆+ cells) as Hsub.
    { apply NoDup_submseteq.
      - apply NoDup_fmap_2_strong; [|apply NoDup_seq].
        intros n1 n2 _ _. by apply cellOf_inj.
      - intros c (n & -> & Hn)%list_elem_of_fmap.
        rewrite Forall_forall in Hall. by apply Hall. }
    apply submseteq_length in Hsub. rewrite length_fmap, length_seq in Hsub. lia.
  - apply not_Forall_Exists in Hex; [|apply _].
    apply Exists_exists in Hex as (n & Hn & Hfree). simpl in Hfree.
    apply elem_of_seq in Hn.
    assert (outOfBounds v b (cellOf v b n) = false) as Hin by (apply cellOf_inside; lia).
    exists (cellOf v b n). split; [done|].
    pose proof (pl_bounds _ _ _ _ _ _ Hp) as Hb. fold b in Hb.
    destruct (proj2 (pl_grid _ _ _ _ _ _ Hp (cellOf v b n))) as [s Hs]; [by rewrite Hb|].
    destruct (decide (s = Empty)) as [->|Hne]; [done|].
    exfalso. apply Hfree. apply (pl_cells _ _ _ _ _ _ Hp). by exists s.
Qed.

Lemma landscapeLoop_skip v fuel rnd k deploys numObst rs st sq :
  readSquare v (map st) (randomPair v rnd k (boundaries (map st))) = Ok sq →
  sq ≠ Some Empty →
  landscapeLoop v (S fuel) rnd k (S deploys) numObst rs st
  = landscapeLoop v fuel rnd (2 + k) (S deploys) numObst rs st.
Proof.
  intros Hs Hne. rewrite landscapeLoop_step. cbv zeta. rewrite Hs. simpl.
  by rewrite decide_False.
Qed.

Lemma landscapeLoop_rock v fuel rnd k deploys numObst rs st m :
  readSquare v (map st) (randomPair v rnd k (boundaries (map st))) = Ok (Some Empty) →
  writeSquare v (map st) (randomPair v rnd k (boundaries (map st))) Rock = Ok m →
  landscapeLoop v (S fuel) rnd k (S deploys) (S numObst) rs st
  = landscapeLoop v fuel rnd (2 + k) deploys numObst rs (setMap m st).
Proof.
  intros Hs Hw. rewrite landscapeLoop_step. cbv zeta. rewrite Hs. simpl.
  by rewrite Hw.
Qed.

Lemma landscapeLoop_rover v fuel rnd k deploys rs r st st1 :
  readSquare v (map st) (randomPair v rnd k (boundaries (map st))) = Ok (Some Empty) →
  placeRover v r (randomPair v rnd k (boundaries (map st))) st = Ok st1 →
  landscapeLoop v (S fuel) rnd k (S deploys) O (rs ++ [r]) st
  = landscapeLoop v fuel rnd (2 + k) deploys O rs st1.
Proof.
  intros Hs Hw. rewrite landscapeLoop_step. cbv zeta. rewrite Hs. simpl.
  rewrite pop_app. simpl. by rewrite Hw.
Qed.

Lemma next_iteration (j : nat) : (2 + 2 * j = 2 * S j)%nat.
Proof. lia. Qed.

Section fair_deploying.
Context (v : source) (rnd : nat → Q) (st0 : state) (fleet : list ref).
Hypothesis Hunit : unitSamples rnd.
Hypothesis Hfair : fairSamples v rnd (boundaries (map st0)).
Hypothesis Hfleet : NoDup fleet.
Hypothesis Hvalid : ∀ r, r ∈ fleet → (r < length (rovers st0))%nat.
Hypothesis Htop : Bounds.top (boundaries (map st0)) = -1.
Hypothesis Hleft : Bounds.left (boundaries (map st0)) = -1.
Hypothesis Hdown : 0 < Bounds.down (boundaries (map st0)).
Hypothesis Hright : 0 < Bounds.right (boundaries (map st0)).

(** With a free square to come at iteration [j'], the loop gets to deploy
    its next item, and goes on as [next] says. *)
Lemma wait_for_free (deploys numObst : nat) rs rocks cells placed st (j' : nat) :
  placing v st0 rocks cells placed st →
  fleet = rs ++ reverse placed →
  S deploys = (numObst + length rs)%nat →
  squareAt v (map st) (randomPair v rnd (2 * j') (boundaries (map st0))) = Some Empty →
  (∀ j numObst' rs' rocks' cells' placed' st1,
     placing v st0 rocks' cells' placed' st1 →
     fleet = rs' ++ reverse placed' →
     deploys = (numObst' + length rs')%nat →
     length cells' = S (length cells) →
     ∃ fuel st', landscapeLoop v fuel rnd (2 * j) deploys numObst' rs' st1 = Ok st') →
  ∀ (n j : nat), (j' = j + n)%nat →
    ∃ fuel st', landscapeLoop v fuel rnd (2 * j) (S deploys) numObst rs st = Ok st'.
Proof.
  intros Hp Heq Hd Hfree Hnext.
  pose proof (pl_bounds _ _ _ _ _ _ Hp) as Hb.
  induction n as [|n IH]; intros j Hj.
  - assert (j = j') as -> by lia.
    destruct (drawn_square v rnd st0 Hunit Htop Hleft Hdown Hright rocks cells placed st (2 * j') Hp)
      as [s Hs].
    pose proof (readSquare_squareAt _ _ _ _ Hs) as Hsq.
    rewrite Hb, Hfree in Hsq. injection Hsq as <-. rewrite <- Hb in Hfree.
    destruct numObst as [|numObst].
    + destruct rs as [|r rs _] using rev_ind; [simpl in Hd; lia|].
      rewrite <- app_assoc in Heq.
      destruct (next_rover st0 fleet Hfleet Hvalid rs r placed Heq) as (Hr & Hlt & Heq').
      destruct (placing_rover v st0 rocks cells placed st _ r Hp Hfree Hr Hlt)
        as (st1 & Hst1 & Hp1).
      destruct (Hnext (S j') O rs rocks _ _ st1 Hp1 Heq') as (fuel & st' & Hrun); [|done|].
      { rewrite length_app in Hd. simpl in Hd. lia. }
      exists (S fuel), st'.
      rewrite (landscapeLoop_rover _ _ _ _ _ _ _ _ st1), next_iteration; done.
    + destruct (writeSquare_Ok v (map st) (randomPair v rnd (2 * j') (boundaries (map st))) Rock)
        as [m Hw]; [by rewrite Hfree|].
      pose proof (placing_rock v st0 rocks cells placed st _ m Hp Hfree Hw) as Hp1.
      destruct (Hnext (S j') numObst rs (S rocks) _ _ _ Hp1 Heq) as (fuel & st' & Hrun);
        [lia|done|].
      exists (S fuel), st'.
      rewrite (landscapeLoop_rock _ _ _ _ _ _ _ _ m), next_iteration; done.
  - destruct (drawn_square v rnd st0 Hunit Htop Hleft Hdown Hright rocks cells placed st (2 * j) Hp)
      as [s Hs].
    pose proof (readSquare_squareAt _ _ _ _ Hs) as Hsq.
    destruct (decide (s = Empty)) as [->|Hne].
    + destruct numObst as [|numObst].
      * destruct rs as [|r rs _] using rev_ind; [simpl in Hd; lia|].
        rewrite <- app_assoc in Heq.
        destruct (next_rover st0 fleet Hfleet Hvalid rs r placed Heq) as (Hr & Hlt & Heq').
        destruct (placing_rover v st0 rocks cells placed st _ r Hp Hsq Hr Hlt)
          as (st1 & Hst1 & Hp1).
        destruct (Hnext (S j) O rs rocks _ _ st1 Hp1 Heq') as (fuel & st' & Hrun); [|done|].
        { rewrite length_app in Hd. simpl in Hd. lia. }
        exists (S fuel), st'.
        by rewrite (landscapeLoop_rover _ _ _ _ _ _ _ _ st1), next_iteration.
      * destruct (writeSquare_Ok v (map st) (randomPair v rnd (2 * j) (boundaries (map st))) Rock)
          as [m Hw]; [by rewrite Hsq|].
        pose proof (placing_rock v st0 rocks cells placed st _ m Hp Hsq Hw) as Hp1.
        destruct (Hnext (S j) numObst rs (S rocks) _ _ _ Hp1 Heq) as (fuel & st' & Hrun);
          [lia|done|].
        exists (S fuel), st'.
        by rewrite (landscapeLoop_rock _ _ _ _ _ _ _ _ m), next_iteration.
    + destruct (IH (S j)) as (fuel & st' & Hrun); [lia|].
      exists (S fuel), st'.
      rewrite (landscapeLoop_skip _ _ _ _ _ _ _ _ (Some s)), next_iteration; try done.
      congruence.
Qed.

(** On samples that come back to every square, the loop returns. *)
Lemma landscapeLoop_returns :
  ∀ (deploys j numObst : nat) rs rocks cells placed st,
    placing v st0 rocks cells placed st →
    fleet = rs ++ reverse placed →
    deploys = (numObst + length rs)%nat →
    Z.of_nat (length cells + deploys)
      ≤ Bounds.down (boundaries (map st0)) * Bounds.right (boundaries (map st0)) →
    ∃ fuel st', landscapeLoop v fuel rnd (2 * j) deploys numObst rs st = Ok st'.
Proof.
  induction deploys as [|deploys IH]; intros j numObst rs rocks cells placed st Hp Heq Hd Hcap.
  - exists 0%nat, st. done.
  - destruct (free_square v st0 rocks cells placed st Htop Hleft Hright Hp) as (c & Hin & Hc);
      [lia|].
    destruct (Hfair j c Hin) as (j' & Hj' & Hdraw).
    apply (wait_for_free deploys numObst rs rocks cells placed st j' Hp Heq Hd)
      with (n := (j' - j)%nat); [by rewrite Hdraw| |lia].
    intros j1 numObst' rs' rocks' cells' placed' st1 Hp1 Heq1 Hd1 Hlen.
    apply (IH j1 numObst' rs' rocks' cells' placed' st1 Hp1 Heq1 Hd1). lia.
Qed.
End fair_deploying.

Lemma landscapeLoop_more_fuel v rnd fuel :
  ∀ fuel' k deploys numObst rs st st',
    (fuel ≤ fuel')%nat →
    landscapeLoop v fuel rnd k deploys numObst rs st = Ok st' →
    landscapeLoop v fuel' rnd k deploys numObst rs st = Ok st'.
Proof.
  induction fuel as [|fuel IH]; intros fuel' k deploys numObst rs st st' Hle H.
  - destruct deploys; [|done]. by rewrite landscapeLoop_done.
  - destruct deploys as [|deploys]; [by rewrite landscapeLoop_done in *|].
    destruct fuel' as [|fuel']; [lia|].
    rewrite landscapeLoop_step in *. cbv zeta in *.
    destruct (readSquare v (map st) _) as [sq| |]; simpl in *; try done.
    case_decide.
    + destruct numObst.
      * destruct (pop rs) as [[r rs']|]; simpl in *; [|done].
        destruct (placeRover v r _ st) as [st1| |]; simpl in *; try done.
        apply IH; [lia|done].
      * destruct (writeSquare v (map st) _ Rock) as [m| |]; simpl in *; try done.
        apply IH; [lia|done].
    + apply IH; [lia|done].
Qed.

(** What a finished deployment leaves. *)
Lemma placing_deployed v st0 rocks cells placed st :
  placing v st0 rocks cells placed st →
  NoDup cells ∧ length cells = (rocks + length placed)%nat ∧
  (∀ c, c ∈ cells ↔ occupied v (map st) c) ∧
  (∀ c, c ∈ cells → outOfBounds v (boundaries (map st)) c = false) ∧
  (∀ r, r ∈ placed →
     ∃ c, c ∈ cells ∧ squareAt v (map st) c = Some (RoverAt r) ∧
          position st r = Some c ∧ history st r = Some [c]).
Proof.
  intros Hp. destruct Hp as [Hb Hcon Hgrid Hnd Hcells Hcount Hrov Hoth Hobj Hpl Hsqr].
  repeat split; try done; try apply Hcells.
  - intros c (s & Hs & _)%Hcells. apply Hgrid. by rewrite Hs.
  - intros r (i & Hi)%list_elem_of_lookup_1.
    destruct (Hpl i r Hi) as (rv0 & c & H0 & H1 & H2 & H3 & H4).
    exists c. repeat split; try done.
    + apply Hcells. by exists (RoverAt r).
    + unfold position. rewrite H1. simpl. done.
    + unfold history. rewrite H1. simpl. simpl in H3. by rewrite H3.
Qed.

Lemma placing_consistent v st0 rocks cells placed st :
  (∀ r rv, rovers st0 !! r = Some rv → currentCoords rv = None) →
  placing v st0 rocks cells placed st → consistent v st.
Proof.
  intros Hnew Hp. destruct Hp as [Hb Hcon Hgrid Hnd Hcells Hcount Hrov Hoth Hobj Hpl Hsqr].
  split.
  - intros r rv l Hr Hl.
    destruct (decide (r ∈ placed)) as [Hin|Hout].
    + apply list_elem_of_lookup_1 in Hin as [i Hi].
      destruct (Hpl i r Hi) as (rv0 & c & H0 & H1 & H2 & H3 & H4).
      rewrite H1 in Hr. injection Hr as <-. simpl in Hl. injection Hl as <-.
      by exists c.
    + rewrite (Hoth r Hout) in Hr. apply Hnew in Hr. congruence.
  - intros c r Hc. by apply Hsqr.
Qed.

Section setup.
Context (v : source) (xSize ySize : Z) (m : marsMap) (numObst : nat)
        (rs : list ref) (st : state) (rnd : nat → Q).
Hypothesis Hm : generateMap v xSize ySize = Some m.
Hypothesis Hrs : NoDup rs.
Hypothesis Hvalid : ∀ r, r ∈ rs → (r < length (rovers st))%nat.
Hypothesis Hunit : unitSamples rnd.

Lemma landscapeSetup_refuses fuel :
  xSize * ySize < Z.of_nat (numObst + length rs) →
  landscapeSetup v fuel rnd numObst rs (setMap m st) = Ok (false, setMap m st).
Proof.
  intros Hcap. apply generateMap_squares in Hm as (_ & _ & _ & _ & Hsize & _).
  unfold landscapeSetup. simpl. rewrite Hsize.
  destruct (Z.leb_spec (Z.of_nat (numObst + length rs)) (xSize * ySize)); [lia|done].
Qed.

Lemma landscapeSetup_placing fuel ok st' :
  Z.of_nat (numObst + length rs) ≤ xSize * ySize →
  landscapeSetup v fuel rnd numObst rs (setMap m st) = Ok (ok, st') →
  ok = true ∧ ∃ cells, placing v (setMap m st) numObst cells (reverse rs) st'.
Proof.
  intros Hcap H.
  pose proof (placing_init v xSize ySize m st Hm) as Hp.
  apply generateMap_squares in Hm as (_ & _ & Ht & Hl & Hsize & Hd & Hr & _).
  unfold landscapeSetup in H. simpl in H. rewrite Hsize in H.
  destruct (Z.leb_spec (Z.of_nat (numObst + length rs)) (xSize * ySize)); [|lia].
  ok_inv. injection H as <- <-. split; [done|].
  match goal with H : landscapeLoop _ _ _ _ _ _ _ _ = Ok _ |- _ => rename H into Hloop end.
  eapply (landscapeLoop_placing v rnd (setMap m st) rs Hunit Hrs Hvalid Ht Hl Hd Hr
            fuel 0%nat _ numObst rs 0%nat [] []); [exact Hp| |reflexivity|exact Hloop].
  by rewrite app_nil_r.
Qed.

Lemma landscapeSetup_fair :
  Z.of_nat (numObst + length rs) ≤ xSize * ySize →
  fairSamples v rnd (boundaries m) →
  ∃ fuel st', ∀ fuel', (fuel ≤ fuel')%nat →
    landscapeSetup v fuel' rnd numObst rs (setMap m st) = Ok (true, st').
Proof.
  intros Hcap Hfair.
  pose proof (placing_init v xSize ySize m st Hm) as Hp.
  apply generateMap_squares in Hm as (_ & _ & Ht & Hl & Hsize & Hd & Hr & _).
  destruct (landscapeLoop_returns v rnd (setMap m st) rs Hunit Hfair Hrs Hvalid Ht Hl Hd Hr
              (numObst + length rs) 0 numObst rs 0%nat [] [] (setMap m st) Hp)
    as (fuel & st' & Hloop); [by rewrite app_nil_r|done|simpl; lia|].
  exists fuel, st'. intros fuel' Hle.
  unfold landscapeSetup. simpl. rewrite Hsize.
  destruct (Z.leb_spec (Z.of_nat (numObst + length rs)) (xSize * ySize)); [|lia].
  change (2 * 0)%nat with 0%nat in Hloop.
  by rewrite (landscapeLoop_more_fuel v rnd fuel fuel' _ _ _ _ _ st' Hle Hloop).
Qed.
End setup.

Lemma unitSample_zero : unitSample 0.
Proof. exists 0, 0%nat. repeat split; done || lia. Qed.

Lemma unitSample_half : unitSample (1 # 2).
Proof. exists 1, 1%nat. repeat split; done || lia. Qed.

Lemma alternating_unit : unitSamples alternating.
Proof.
  intros k. unfold alternating.
  destruct (_ =? _)%nat; [apply unitSample_half|apply unitSample_zero].
Qed.

Lemma alternating_pair v (j : nat) :
  randomPair v alternating (2 * j)
    (match v with
     | rover_js => Bounds.Make (-1) 2 (-1) 1
     | part_000 => Bounds.Make (-1) 1 (-1) 2
     end)
  = match v with
    | rover_js => Coords 0 (if Nat.even j then 0 else 1)
    | part_000 => Coords 0 (if Nat.even j then 0 else 1)
    end.
Proof.
  assert ((2 * j) mod 4 = if Nat.even j then 0 else 2)%nat as H0.
  { destruct (Nat.Even_or_Odd j) as [[t ->]|[t ->]].
    - rewrite Nat.even_even. replace (2 * (2 * t))%nat with (0 + t * 4)%nat by lia.
      by rewrite Nat.Div0.mod_add.
    - rewrite Nat.even_odd. replace (2 * (2 * t + 1))%nat with (2 + t * 4)%nat by lia.
      by rewrite Nat.Div0.mod_add. }
  assert (S (2 * j) mod 4 = if Nat.even j then 1 else 3)%nat as H1.
  { destruct (Nat.Even_or_Odd j) as [[t ->]|[t ->]].
    - rewrite Nat.even_even. replace (S (2 * (2 * t)))%nat with (1 + t * 4)%nat by lia.
      by rewrite Nat.Div0.mod_add.
    - rewrite Nat.even_odd. replace (S (2 * (2 * t + 1)))%nat with (3 + t * 4)%nat by lia.
      by rewrite Nat.Div0.mod_add. }
  unfold randomPair, alternating. rewrite H0, H1.
  destruct v, (Nat.even j); reflexivity.
Qed.

Lemma alternating_fair v m :
  generateMap v 1 2 = Some m → fairSamples v alternating (boundaries m).
Proof.
  intros Hm j c Hc.
  assert (boundaries m = match v with
                         | rover_js => Bounds.Make (-1) 2 (-1) 1
                         | part_000 => Bounds.Make (-1) 1 (-1) 2
                         end) as Hb.
  { destruct v; by injection Hm as <-. }
  rewrite Hb in *. apply outOfBounds_false in Hc.
  assert (x c = 0 ∧ (y c = 0 ∨ y c = 1)) as [Hx Hy] by (destruct v; simpl in Hc; lia).
  exists (if decide (Nat.even j = bool_decide (y c = 0)) then j else S j).
  split; [case_decide; lia|].
  rewrite alternating_pair.
  assert (Nat.even (if decide (Nat.even j = bool_decide (y c = 0)) then j else S j)
          = bool_decide (y c = 0)) as ->.
  { case_decide as E; [done|]. rewrite Nat.even_succ, <- Nat.negb_even.
    destruct (Nat.even j), (bool_decide (y c = 0)); done. }
  destruct c as [cx cy]; simpl in *. subst cx.
  destruct Hy as [-> | ->]; by destruct v.
Qed.




(** C6, as the claim has it, fails: two rovers and no obstacle are within
    the capacity of a map of two squares, and on the samples 0, 0, 0, ...
    the first rover is placed on the square that every iteration draws
    and the second one never is: whatever the fuel, the call has not
    returned. *)
Lemma second_rover_never_placed :
  unitSamples (fun _ => 0%Q) ∧
  (Z.of_nat (0 + length [0%nat; 1%nat]) ≤ 2 * 1) ∧
  ¬ ∃ fuel result,
      initializeMap part_000 fuel (fun _ => 0%Q) 2 1 0 [0%nat; 1%nat] twoRovers = Ok result.
Proof.
  set (rnd := fun _ : nat => 0%Q).
  split; [intros k; apply unitSample_zero|]. split; [done|].
  intros (fuel & result & H).
  assert (∀ b k, randomPair part_000 rnd k b = Coords 0 0) as Hpair by done.
  assert (∀ fuel k st,
    readSquare part_000 (map st) (Coords 0 0) = Ok (Some (RoverAt 1)) →
    landscapeLoop part_000 fuel rnd k 1 0 [0%nat] st = OutOfFuel) as Hstuck.
  { clear -Hpair. induction fuel as [|fuel IH]; intros k st Hs; [done|].
    rewrite (landscapeLoop_skip _ _ _ _ _ _ _ _ (Some (RoverAt 1))); [by apply IH| |done].
    by rewrite Hpair. }
  destruct (generateMap part_000 2 1) as [m|] eqn:Hm; [|done].
  unfold initializeMap in H. rewrite Hm in H. unfold landscapeSetup in H.
  injection Hm as <-.
  change (Z.of_nat (0 + length [0%nat; 1%nat]) <=? _) with true in H. cbv iota in H.
  change (0 + length [0%nat; 1%nat])%nat with 2%nat in H.
  destruct fuel as [|fuel]; [done|].
  set (st0 := setMap _ twoRovers) in H.
  destruct (placeRover part_000 1 (Coords 0 0) st0) as [st1| |] eqn:Hpl;
    [|vm_compute in Hpl; discriminate..].
  change [0%nat; 1%nat] with ([0%nat] ++ [1%nat]) in H.
  rewrite (landscapeLoop_rover part_000 fuel rnd 0 1 [0%nat] 1%nat st0 st1) in H.
  - rewrite Hstuck in H; [done|].
    vm_compute in Hpl. injection Hpl as <-. by vm_compute.
  - by rewrite Hpair.
  - by rewrite Hpair.
Qed.

(** C6 (amended): for a map of positive sizes, distinct rovers of the
    store and samples of the unit interval: when obstacles and rovers are
    more than the squares, [landscapeSetup] returns [false] and leaves the state as
    it was ([initializeMap] prints that the map has not enough space);
    otherwise, whenever the loop has returned, [landscapeSetup] returns
    [true], exactly [numObst + |rovers|] squares, all different and all
    inside the boundaries, are occupied, and every rover stands on one of
    them, which its coordinates and the one entry of its travel log name;
    and the loop does return on samples that come back to every square. *)
Theorem landscapeSetup_deploys (v : source) (xSize ySize : Z) (numObst : nat)
    (rs : list ref) (st : state) (rnd : nat → Q) :
  0 < xSize → 0 < ySize →
  NoDup rs → (∀ r, r ∈ rs → (r < length (rovers st))%nat) →
  unitSamples rnd →
  ∃ m, generateMap v xSize ySize = Some m ∧
    (xSize * ySize < Z.of_nat (numObst + length rs) →
       ∀ fuel,
         landscapeSetup v fuel rnd numObst rs (setMap m st) = Ok (false, setMap m st) ∧
         initializeMap v fuel rnd xSize ySize numObst rs st
         = Ok (false, print (Message "The map hasn't enough space to place all the elements") st)) ∧
    (Z.of_nat (numObst + length rs) ≤ xSize * ySize →
       (∀ fuel ok st',
          landscapeSetup v fuel rnd numObst rs (setMap m st) = Ok (ok, st') →
          ok = true ∧
          ∃ cells,
            NoDup cells ∧ length cells = (numObst + length rs)%nat ∧
            (∀ c, c ∈ cells ↔ occupied v (map st') c) ∧
            (∀ c, c ∈ cells → outOfBounds v (boundaries (map st')) c = false) ∧
            (∀ r, r ∈ rs →
               ∃ c, c ∈ cells ∧ squareAt v (map st') c = Some (RoverAt r) ∧
                    position st' r = Some c ∧ history st' r = Some [c])) ∧
       (fairSamples v rnd (boundaries m) →
          ∃ fuel st', ∀ fuel', (fuel ≤ fuel')%nat →
            landscapeSetup v fuel' rnd numObst rs (setMap m st) = Ok (true, st'))).
Proof.
  intros Hx Hy Hrs Hvalid Hunit.
  destruct (generateMap_positive v xSize ySize Hx Hy) as [m Hm].
  exists m. split; [done|]. split.
  - intros Hcap fuel.
    pose proof (landscapeSetup_refuses v xSize ySize m numObst rs st rnd Hm fuel Hcap) as Hno.
    split; [done|]. unfold initializeMap. by rewrite Hm, Hno.
  - intros Hcap. split.
    + intros fuel ok st' H.
      destruct (landscapeSetup_placing v xSize ySize m numObst rs st rnd Hm Hrs Hvalid Hunit
                  fuel ok st' Hcap H) as (-> & cells & Hp).
      split; [done|]. exists cells.
      destruct (placing_deployed _ _ _ _ _ _ Hp) as (Hnd & Hlen & Hocc & Hin & Hrov).
      rewrite length_reverse in Hlen. repeat split; try done; try apply Hocc.
      intros r Hr. apply Hrov. by apply elem_of_reverse.
    + intros Hfair.
      by apply (landscapeSetup_fair v xSize ySize m).
Qed.

Lemma landscapeSetup_deploys_witness :
  ∃ m fuel st' c,
    generateMap part_000 1 2 = Some m ∧
    landscapeSetup part_000 fuel alternating 1 [0%nat] (setMap m twoRovers) = Ok (true, st') ∧
    position st' 0%nat = Some c ∧ history st' 0%nat = Some [c].
Proof.
  destruct (landscapeSetup_deploys part_000 1 2 1 [0%nat] twoRovers alternating)
    as (m & Hm & _ & Hfits).
  - lia.
  - lia.
  - apply NoDup_singleton.
  - intros r ->%list_elem_of_singleton. simpl. lia.
  - apply alternating_unit.
  - destruct Hfits as [Hpost Hret]; [simpl; lia|].
    destruct (Hret (alternating_fair part_000 m Hm)) as (fuel & st' & Hrun).
    specialize (Hrun fuel (Nat.le_refl fuel)).
    destruct (Hpost fuel true st' Hrun) as (_ & cells & _ & _ & _ & _ & Hrov).
    destruct (Hrov 0%nat) as (c & _ & _ & Hpos & Hhist); [left|].
    exists m, fuel, st', c. by repeat split.
Defined.

(** ** The invariant of the map and the rovers *)

Lemma issueWarning_Ok r message st st' :
  issueWarning r message st = Ok st' →
  ∃ rv, rovers st !! r = Some rv ∧ st' = print (Warning (name rv) message) st.
Proof.
  unfold issueWarning, getRover. intros H.
  destruct (rovers st !! r) as [rv|]; simpl in H; [|done].
  destruct (name rv) eqn:E; simpl in H; [done|].
  apply mret_Ok in H. exists rv. by rewrite E.
Qed.

(** The two ways [repositionRover] returns. *)
Lemma repositionRover_Ok v r d st st' :
  repositionRover v r d st = Ok st' →
  (∃ rv message,
     haveObstacle v (map st) d = Ok (Some message) ∧
     rovers st !! r = Some rv ∧ st' = print (Warning (name rv) message) st) ∨
  haveObstacle v (map st) d = Ok None.
Proof.
  intros H. destruct (haveObstacle v (map st) d) as [[message|]| |] eqn:E.
  - left. unfold repositionRover in H. rewrite E in H. simpl in H.
    apply issueWarning_Ok in H as (rv & Hr & ->). by exists rv, message.
  - by right.
  - unfold repositionRover in H. by rewrite E in H.
  - unfold repositionRover in H. by rewrite E in H.
Qed.

Lemma consistent_print v ln st : consistent v st → consistent v (print ln st).
Proof. by intros [H1 H2]. Qed.

Lemma consistent_setDirection v r rv d st :
  rovers st !! r = Some rv → consistent v st → consistent v (setDirection r rv d st).
Proof.
  intros Hr [H1 H2]. split.
  - intros r2 rv2 l2. simpl. intros Hr2 Hl2.
    destruct (decide (r2 = r)) as [->|Hne].
    + rewrite list_lookup_insert_eq in Hr2 by (by eapply lookup_lt_Some).
      injection Hr2 as <-. simpl in Hl2. by apply (H1 r rv).
    + rewrite list_lookup_insert_ne in Hr2 by done. by apply (H1 r2 rv2).
  - intros c r2 Hc. specialize (H2 c r2 Hc). unfold position in *. simpl.
    destruct (decide (r2 = r)) as [->|Hne].
    + rewrite list_lookup_insert_eq by (by eapply lookup_lt_Some).
      rewrite Hr in H2. done.
    + by rewrite list_lookup_insert_ne.
Qed.

Lemma consistent_accepted v r d st st' :
  consistent v st →
  haveObstacle v (map st) d = Ok None →
  repositionRover v r d st = Ok st' →
  consistent v st'.
Proof.
  intros [H1 H2] Hh H.
  destruct (repositionRover_accepted v r d st st' Hh H)
    as (rv & l & cur & log & Hr & Hl & Hcur & Hlog & Hb & Hsq & Hrs & Hcs & Hout).
  pose proof (haveObstacle_spec v (map st) d) as Hd. rewrite Hh in Hd. destruct Hd as [_ Hd].
  destruct (H1 r rv l Hr Hl) as (c0 & Hc0 & Hhere).
  assert (c0 = cur) as -> by congruence.
  assert (l < length (coordObjs st))%nat as Hlt by (by eapply lookup_lt_Some).
  assert (coordObjs st' !! l = Some d) as Hnew.
  { rewrite Hcs. destruct v.
    - by apply list_lookup_insert_eq.
    - rewrite lookup_app_l by (by rewrite length_insert). by apply list_lookup_insert_eq. }
  assert (∀ l2 c2, l2 ≠ l → coordObjs st !! l2 = Some c2 → coordObjs st' !! l2 = Some c2) as Hold.
  { intros l2 c2 Hne Hc2. rewrite Hcs. destruct v.
    - by rewrite list_lookup_insert_ne.
    - apply lookup_app_l_Some. by rewrite list_lookup_insert_ne. }
  assert (∀ r2 rv2 l2 c2, r2 ≠ r → rovers st !! r2 = Some rv2 → currentCoords rv2 = Some l2 →
            coordObjs st !! l2 = Some c2 → squareAt v (map st) c2 = Some (RoverAt r2) →
            l2 ≠ l ∧ c2 ≠ d ∧ c2 ≠ cur) as Hother.
  { intros r2 rv2 l2 c2 Hne Hr2 Hl2 Hc2 Hsq2. repeat split.
    - intros ->. congruence.
    - intros ->. congruence.
    - intros ->. congruence. }
  split.
  - intros r2 rv2 l2 Hr2 Hl2. rewrite Hrs in Hr2.
    destruct (decide (r2 = r)) as [->|Hne].
    + rewrite list_lookup_insert_eq in Hr2 by (by eapply lookup_lt_Some).
      injection Hr2 as <-. simpl in Hl2. injection Hl2 as <-.
      exists d. split; [done|]. rewrite Hsq. by rewrite decide_True.
    + rewrite list_lookup_insert_ne in Hr2 by done.
      destruct (H1 r2 rv2 l2 Hr2 Hl2) as (c2 & Hc2 & Hsq2).
      destruct (Hother r2 rv2 l2 c2 Hne Hr2 Hl2 Hc2 Hsq2) as (Hl2' & Hd2 & Hcur2).
      exists c2. split; [by apply Hold|].
      rewrite Hsq. by rewrite !decide_False.
  - intros c r2. rewrite Hsq. case_decide as Hcd.
    + intros [= <-]. subst c. unfold position. rewrite Hrs.
      rewrite list_lookup_insert_eq by (by eapply lookup_lt_Some). done.
    + case_decide as Hcc; [done|]. intros Hc.
      pose proof (H2 c r2 Hc) as Hpos.
      assert (r2 ≠ r) as Hne.
      { intros ->. unfold position in Hpos. rewrite Hr in Hpos. simpl in Hpos.
        rewrite Hl in Hpos. simpl in Hpos. congruence. }
      unfold position in *. rewrite Hrs, list_lookup_insert_ne by done.
      destruct (rovers st !! r2) as [rv2|] eqn:Hr2; simpl in *; [|done].
      destruct (currentCoords rv2) as [l2|] eqn:Hl2; simpl in *; [|done].
      destruct (Hother r2 rv2 l2 c Hne Hr2 Hl2 Hpos Hc) as (Hl2' & _ & _).
      by apply Hold.
Qed.

Lemma consistent_repositionRover v r d st st' :
  consistent v st → repositionRover v r d st = Ok st' → consistent v st'.
Proof.
  intros Hc H. destruct (repositionRover_Ok v r d st st' H) as [(rv & message & _ & _ & ->)|Hh].
  - by apply consistent_print.
  - by apply (consistent_accepted v r d st).
Qed.

Lemma moveForward_Ok v r st st' :
  moveForward v r st = Ok st' →
  ∃ rv l cur, rovers st !! r = Some rv ∧ currentCoords rv = Some l ∧
    coordObjs st !! l = Some cur ∧
    repositionRover v r (moveForward_destination v (direction rv) cur) st = Ok st'.
Proof.
  unfold moveForward, getRover, getCurrent. intros H.
  destruct (rovers st !! r) as [rv|] eqn:Hr; simpl in H; [|done].
  destruct (currentCoords rv) as [l|] eqn:Hl; simpl in H; [|done].
  destruct (coordObjs st !! l) as [cur|] eqn:E; simpl in H; [|done].
  by exists rv, l, cur.
Qed.

Lemma moveBackwards_Ok v r st st' :
  moveBackwards v r st = Ok st' →
  ∃ rv l cur, rovers st !! r = Some rv ∧ currentCoords rv = Some l ∧
    coordObjs st !! l = Some cur ∧
    repositionRover v r (moveBackwards_destination v (direction rv) cur) st = Ok st'.
Proof.
  unfold moveBackwards, getRover, getCurrent. intros H.
  destruct (rovers st !! r) as [rv|] eqn:Hr; simpl in H; [|done].
  destruct (currentCoords rv) as [l|] eqn:Hl; simpl in H; [|done].
  destruct (coordObjs st !! l) as [cur|] eqn:E; simpl in H; [|done].
  by exists rv, l, cur.
Qed.

Lemma turnLeft_Ok r st st' :
  turnLeft r st = Ok st' →
  ∃ rv, rovers st !! r = Some rv ∧ st' = setDirection r rv (turnedLeft (direction rv)) st.
Proof.
  intros H. destruct (rovers st !! r) as [rv|] eqn:Hr.
  - rewrite (turnLeft_spec r rv st Hr) in H. apply mret_Ok in H. by exists rv.
  - unfold turnLeft, getRover in H. by rewrite Hr in H.
Qed.

Lemma turnRight_Ok r st st' :
  turnRight r st = Ok st' →
  ∃ rv, rovers st !! r = Some rv ∧ st' = setDirection r rv (turnedRight (direction rv)) st.
Proof.
  intros H. destruct (rovers st !! r) as [rv|] eqn:Hr.
  - rewrite (turnRight_spec r rv st Hr) in H. apply mret_Ok in H. by exists rv.
  - unfold turnRight, getRover in H. by rewrite Hr in H.
Qed.

(** The five ways an order goes. *)
Lemma runOrder_cases v o st st' :
  runOrder v o st = Ok st' →
  turnLeft (Order.rover o) st = Ok st' ∨ turnRight (Order.rover o) st = Ok st' ∨
  moveForward v (Order.rover o) st = Ok st' ∨ moveBackwards v (Order.rover o) st = Ok st' ∨
  st' = st.
Proof.
  unfold runOrder. intros H.
  repeat match type of H with
  | (if ?b then _ else _) = _ => destruct b; [tauto|]
  end.
  apply mret_Ok in H. subst. tauto.
Qed.

Lemma consistent_runOrder v o st st' :
  consistent v st → runOrder v o st = Ok st' → consistent v st'.
Proof.
  intros Hc H. destruct (runOrder_cases v o st st' H) as [H'|[H'|[H'|[H'| ->]]]]; [| | | |done].
  - apply turnLeft_Ok in H' as (rv & Hr & ->). by apply consistent_setDirection.
  - apply turnRight_Ok in H' as (rv & Hr & ->). by apply consistent_setDirection.
  - apply moveForward_Ok in H' as (rv & l & cur & _ & _ & _ & H').
    by eapply consistent_repositionRover.
  - apply moveBackwards_Ok in H' as (rv & l & cur & _ & _ & _ & H').
    by eapply consistent_repositionRover.
Qed.

Lemma forEach_invariant {A} (P : state → Prop) (f : A → state → outcome state) (l : list A) :
  (∀ a st st', P st → f a st = Ok st' → P st') →
  ∀ st st', P st → forEach f l st = Ok st' → P st'.
Proof.
  intros Hf. induction l as [|a l IH]; intros st st' HP H; simpl in H.
  - apply mret_Ok in H. by subst.
  - ok_inv. eapply IH; [|done]. by eapply Hf.
Qed.

Lemma mapM_defined {A B} (f : A → option B) (l : list A) :
  mapM (fun a => defined (f a)) l = defined (mapM f l).
Proof.
  induction l as [|a l IH]; simpl; [done|].
  destruct (f a) as [b|]; simpl; [|done].
  rewrite IH. by destruct (mapM f l).
Qed.

Lemma showTravel_Ok r st st' :
  showTravel r st = Ok st' → ∃ ln, travelLine st r = Some ln ∧ st' = print ln st.
Proof.
  unfold showTravel, travelLine, history, getRover. intros H.
  destruct (rovers st !! r) as [rv|]; simpl in *; [|done].
  destruct (name rv) eqn:En; simpl in H; [done|].
  destruct (travelLog rv) as [log|]; simpl in *; [|done].
  rewrite mapM_defined in H.
  destruct (mapM (fun l => coordObjs st !! l) log) as [steps|]; simpl in *; [|done].
  apply mret_Ok in H. eexists. split; [done|]. done.
Qed.

(** [commandRovers] on a batch without offending request. *)
Lemma commandRovers_valid v cl st cl' st' :
  hasInvalidCommands cl = None →
  commandRovers v cl st = Ok (cl', st') →
  ∃ chain st1,
    chainList cl = Ok (chain, cl') ∧
    forEach (runOrder v) chain st = Ok st1 ∧
    forEach (fun p => showTravel (Request.rover p)) cl' st1 = Ok st'.
Proof.
  intros Hv H. unfold commandRovers in H. rewrite Hv in H.
  destruct (chainList cl) as [[chain sorted]| |]; simpl in H; try done.
  destruct (forEach (runOrder v) chain st) as [st1| |] eqn:E1; simpl in H; try done.
  destruct (forEach _ sorted st1) as [st2| |] eqn:E2; simpl in H; try done.
  apply mret_Ok in H. injection H as <- <-. by exists chain, st1.
Qed.

Lemma commandRovers_invalid v cl st cl' st' r :
  hasInvalidCommands cl = Some r →
  commandRovers v cl st = Ok (cl', st') →
  cl' = cl ∧ ∃ rv, rovers st !! r = Some rv ∧
    st' = print (Warning (name rv) "has wrong commands. Only l,r,f,b are valid commands") st.
Proof.
  intros Hv H. unfold commandRovers in H. rewrite Hv in H.
  destruct (issueWarning r _ st) as [st1| |] eqn:E; simpl in H; try done.
  apply mret_Ok in H. injection H as <- <-. split; [done|].
  by apply issueWarning_Ok in E.
Qed.

Lemma consistent_commandRovers v cl st cl' st' :
  consistent v st → commandRovers v cl st = Ok (cl', st') → consistent v st'.
Proof.
  intros Hc H. destruct (hasInvalidCommands cl) as [r|] eqn:Hv.
  - destruct (commandRovers_invalid v cl st cl' st' r Hv H) as (_ & rv & _ & ->).
    by apply consistent_print.
  - destruct (commandRovers_valid v cl st cl' st' Hv H) as (chain & st1 & _ & H1 & H2).
    apply (forEach_invariant (consistent v) _ _ (consistent_runOrder v) _ _ Hc) in H1.
    revert H2. apply forEach_invariant; [|done].
    intros p s s' Hs (ln & _ & ->)%showTravel_Ok. by apply consistent_print.
Qed.

Lemma initializeMap_placing v fuel rnd xSize ySize numObst rs st st' :
  NoDup rs → (∀ r, r ∈ rs → (r < length (rovers st))%nat) → unitSamples rnd →
  initializeMap v fuel rnd xSize ySize numObst rs st = Ok (true, st') →
  ∃ m cells, generateMap v xSize ySize = Some m ∧
             placing v (setMap m st) numObst cells (reverse rs) st'.
Proof.
  intros Hrs Hvalid Hunit H. unfold initializeMap in H.
  destruct (generateMap v xSize ySize) as [m|] eqn:Hm; [|by apply mret_Ok in H].
  destruct (landscapeSetup v fuel rnd numObst rs (setMap m st)) as [[ok st1]| |] eqn:E;
    simpl in H; try done.
  destruct ok; apply mret_Ok in H; [|done]. injection H as <-.
  destruct (Z.le_gt_cases (Z.of_nat (numObst + length rs)) (xSize * ySize)) as [Hcap|Hcap].
  - destruct (landscapeSetup_placing v xSize ySize m numObst rs st rnd Hm Hrs Hvalid Hunit
                fuel true st1 Hcap E) as (_ & cells & Hp).
    by exists m, cells.
  - rewrite (landscapeSetup_refuses v xSize ySize m numObst rs st rnd Hm fuel) in E by lia.
    done.
Qed.

(** C7: a square holds one value, and every rover stands on the square
    its coordinates name while no other square holds it; this holds when
    [initializeMap] has deployed distinct rover definitions, and every
    operation that returns (a turn, a move that is accepted or rejected,
    an order, a whole batch) keeps it; under it, two rovers never have
    the same coordinates. *)
Theorem consistent_invariant (v : source) :
  (∀ fuel rnd xSize ySize numObst rs st st',
     (∀ r rv, rovers st !! r = Some rv → currentCoords rv = None) →
     NoDup rs → (∀ r, r ∈ rs → (r < length (rovers st))%nat) → unitSamples rnd →
     initializeMap v fuel rnd xSize ySize numObst rs st = Ok (true, st') →
     consistent v st') ∧
  (∀ st st' r d o cl cl',
     consistent v st →
     turnLeft r st = Ok st' ∨ turnRight r st = Ok st' ∨
     moveForward v r st = Ok st' ∨ moveBackwards v r st = Ok st' ∨
     repositionRover v r d st = Ok st' ∨ runOrder v o st = Ok st' ∨
     commandRovers v cl st = Ok (cl', st') →
     consistent v st') ∧
  (∀ st r1 r2 c,
     consistent v st → position st r1 = Some c → position st r2 = Some c → r1 = r2).
Proof.
  split; [|split].
  - intros fuel rnd xSize ySize numObst rs st st' Hnew Hrs Hvalid Hunit H.
    destruct (initializeMap_placing v fuel rnd xSize ySize numObst rs st st' Hrs Hvalid Hunit H)
      as (m & cells & _ & Hp).
    by apply (placing_consistent v (setMap m st) numObst cells (reverse rs)).
  - intros st st' r d o cl cl' Hc [H|[H|[H|[H|[H|[H|H]]]]]].
    + apply turnLeft_Ok in H as (rv & Hr & ->). by apply consistent_setDirection.
    + apply turnRight_Ok in H as (rv & Hr & ->). by apply consistent_setDirection.
    + apply moveForward_Ok in H as (rv & l & cur & _ & _ & _ & H).
      by eapply consistent_repositionRover.
    + apply moveBackwards_Ok in H as (rv & l & cur & _ & _ & _ & H).
      by eapply consistent_repositionRover.
    + by eapply consistent_repositionRover.
    + by eapply consistent_runOrder.
    + by eapply consistent_commandRovers.
  - intros st r1 r2 c [H1 _] Hp1 Hp2. unfold position in Hp1, Hp2.
    destruct (rovers st !! r1) as [rv1|] eqn:Hr1; simpl in Hp1; [|done].
    destruct (currentCoords rv1) as [l1|] eqn:Hl1; simpl in Hp1; [|done].
    destruct (rovers st !! r2) as [rv2|] eqn:Hr2; simpl in Hp2; [|done].
    destruct (currentCoords rv2) as [l2|] eqn:Hl2; simpl in Hp2; [|done].
    destruct (H1 r1 rv1 l1 Hr1 Hl1) as (c1 & Hc1 & Hs1).
    destruct (H1 r2 rv2 l2 Hr2 Hl2) as (c2 & Hc2 & Hs2).
    congruence.
Qed.

Lemma alphaPlaced_run v :
  initializeMap v 1 (fun _ => (1 # 2)%Q) 10 10 0 [0%nat] (setupState [("Alpha", "N")])
  = Ok (true, alphaPlaced v).
Proof. destruct v; vm_compute; reflexivity. Qed.

Lemma consistent_invariant_witness :
  consistent part_000 (alphaPlaced part_000) ∧
  ∃ st', moveForward part_000 0%nat (alphaPlaced part_000) = Ok st' ∧ consistent part_000 st'.
Proof.
  assert (consistent part_000 (alphaPlaced part_000)) as Hc.
  { apply (proj1 (consistent_invariant part_000) 1%nat (fun _ => (1 # 2)%Q) 10 10 0%nat [0%nat]
             (setupState [("Alpha", "N")])).
    - intros [|[|r]] rv; simpl; [by intros [= <-]|done|done].
    - apply NoDup_singleton.
    - intros r ->%list_elem_of_singleton. simpl. lia.
    - intros k. apply unitSample_half.
    - apply alphaPlaced_run. }
  split; [exact Hc|].
  destruct (moveForward part_000 0%nat (alphaPlaced part_000)) as [st'| |] eqn:E;
    [|vm_compute in E; discriminate..].
  exists st'. split; [reflexivity|].
  apply (proj1 (proj2 (consistent_invariant part_000)) (alphaPlaced part_000) st' 0%nat
           (Coords 0 0) (Order.Make 0%nat "f"%char) [] [] Hc).
  right; right; left. exact E.
Defined.

(** ** Travel logs *)

Lemma placing_tracked v st0 rocks cells placed st :
  undeployed st0 → placing v st0 rocks cells placed st → tracked v st.
Proof.
  intros Hnew Hp. split; [|split].
  - apply (placing_consistent v st0 rocks cells placed); [|done].
    intros r rv Hr. by apply (Hnew r rv).
  - destruct Hp as [Hb Hcon Hgrid Hnd Hcells Hcount Hrov Hoth Hobj Hpl Hsqr].
    intros r rv log l Hr Hlog Hl.
    destruct (decide (r ∈ placed)) as [Hin|Hout].
    + apply list_elem_of_lookup_1 in Hin as [i Hi].
      destruct (Hpl i r Hi) as (rv0 & c & H0 & H1 & H2 & H3 & H4).
      rewrite H1 in Hr. injection Hr as <-. simpl in Hlog. injection Hlog as <-.
      apply list_elem_of_singleton in Hl as ->. by eapply lookup_lt_Some.
    + rewrite (Hoth r Hout) in Hr. apply Hnew in Hr as [_ Hr]. congruence.
  - intros _. destruct Hp as [Hb Hcon Hgrid Hnd Hcells Hcount Hrov Hoth Hobj Hpl Hsqr].
    intros r rv log l r2 rv2 Hr Hlog Hl Hr2 Hcur.
    destruct (decide (r ∈ placed)) as [Hin|Hout].
    + apply list_elem_of_lookup_1 in Hin as [i Hi].
      destruct (Hpl i r Hi) as (rv0 & c & H0 & H1 & H2 & H3 & H4).
      rewrite H1 in Hr. injection Hr as <-. simpl in Hlog. injection Hlog as <-.
      apply list_elem_of_singleton in Hl as ->.
      destruct (decide (r2 ∈ placed)) as [Hin2|Hout2].
      * apply list_elem_of_lookup_1 in Hin2 as [i2 Hi2].
        destruct (Hpl i2 r2 Hi2) as (rv1 & c2 & H0' & H1' & _).
        rewrite H1' in Hr2. injection Hr2 as <-. simpl in Hcur. injection Hcur as Hcur. lia.
      * rewrite (Hoth r2 Hout2) in Hr2. apply Hnew in Hr2 as [Hr2 _]. congruence.
    + rewrite (Hoth r Hout) in Hr. apply Hnew in Hr as [_ Hr]. congruence.
Qed.

Lemma history_print ln st r : history (print ln st) r = history st r.
Proof. done. Qed.

Lemma history_setDirection r rv d st r' :
  rovers st !! r = Some rv → history (setDirection r rv d st) r' = history st r'.
Proof.
  intros Hr. unfold history. simpl.
  destruct (decide (r' = r)) as [->|Hne].
  - rewrite list_lookup_insert_eq by (by eapply lookup_lt_Some). by rewrite Hr.
  - by rewrite list_lookup_insert_ne.
Qed.

Lemma position_setDirection r rv d st r' :
  rovers st !! r = Some rv → position (setDirection r rv d st) r' = position st r'.
Proof.
  intros Hr. unfold position. simpl.
  destruct (decide (r' = r)) as [->|Hne].
  - rewrite list_lookup_insert_eq by (by eapply lookup_lt_Some). by rewrite Hr.
  - by rewrite list_lookup_insert_ne.
Qed.

Lemma tracked_print v ln st : tracked v st → tracked v (print ln st).
Proof. by intros (H1 & H2 & H3). Qed.

Lemma tracked_setDirection v r rv d st :
  rovers st !! r = Some rv → tracked v st → tracked v (setDirection r rv d st).
Proof.
  intros Hr (H1 & H2 & H3). split; [by apply consistent_setDirection|]. split.
  - intros r1 rv1 log l. simpl. intros Hr1 Hlog Hl.
    destruct (decide (r1 = r)) as [->|Hne].
    + rewrite list_lookup_insert_eq in Hr1 by (by eapply lookup_lt_Some).
      injection Hr1 as <-. simpl in Hlog. by apply (H2 r rv log l).
    + rewrite list_lookup_insert_ne in Hr1 by done. by apply (H2 r1 rv1 log l).
  - intros Hv. specialize (H3 Hv).
    assert (∀ r1 rv1, rovers (setDirection r rv d st) !! r1 = Some rv1 →
              ∃ rv1', rovers st !! r1 = Some rv1' ∧ currentCoords rv1' = currentCoords rv1 ∧
                      travelLog rv1' = travelLog rv1) as Hsame.
    { intros r1 rv1. simpl. intros Hr1. destruct (decide (r1 = r)) as [->|Hne].
      - rewrite list_lookup_insert_eq in Hr1 by (by eapply lookup_lt_Some).
        injection Hr1 as <-. by exists rv.
      - rewrite list_lookup_insert_ne in Hr1 by done. by exists rv1. }
    intros r1 rv1 log l r2 rv2 Hr1 Hlog Hl Hr2.
    destruct (Hsame r1 rv1 Hr1) as (rv1' & Hr1' & _ & Hlog1).
    destruct (Hsame r2 rv2 Hr2) as (rv2' & Hr2' & Hcur2 & _).
    rewrite <- Hcur2. apply (H3 r1 rv1' log l r2 rv2'); try done. congruence.
Qed.

Lemma mapM_ext_elem {A B} (f g : A → option B) (l : list A) :
  (∀ a, a ∈ l → f a = g a) → mapM f l = mapM g l.
Proof.
  induction l as [|a l IH]; intros Hfg; simpl; [done|].
  rewrite (Hfg a) by left. rewrite IH; [done|].
  intros b Hb. apply Hfg. by right.
Qed.

Lemma mapM_snoc {A B} (f : A → option B) (l : list A) (a : A) (k : list B) (b : B) :
  mapM f l = Some k → f a = Some b → mapM f (l ++ [a]) = Some (k ++ [b]).
Proof.
  intros Hl Ha. apply mapM_Some. apply Forall2_app; [by apply mapM_Some|].
  by constructor.
Qed.

Lemma mapM_lookup_valid {A} (cs : list A) (log : list nat) :
  (∀ l, l ∈ log → (l < length cs)%nat) →
  ∃ h, mapM (fun l => cs !! l) log = Some h ∧ length h = length log.
Proof.
  intros Hv.
  destruct (mapM_is_Some_2 (fun l => cs !! l) log) as [h Hh].
  { apply Forall_forall. intros l Hl. by apply lookup_lt_is_Some_2, Hv. }
  exists h. split; [done|]. apply mapM_Some_1 in Hh. symmetry. by eapply Forall2_length.
Qed.

(** What an accepted move does to the travel logs. *)
Lemma accepted_history v r d st st' :
  tracked v st →
  haveObstacle v (map st) d = Ok None →
  repositionRover v r d st = Ok st' →
  tracked v st' ∧ position st' r = Some d ∧
  ∃ h h',
    history st r = Some h ∧ history st' r = Some (h' ++ [d]) ∧ length h' = length h ∧
    (v = part_000 → h' = h ∧ ∀ r', r' ≠ r → history st' r' = history st r').
Proof.
  intros (Hcons & Hlogged & Hapart) Hh H.
  pose proof (consistent_accepted v r d st st' Hcons Hh H) as Hcons'.
  destruct (repositionRover_accepted v r d st st' Hh H)
    as (rv & l & cur & log & Hr & Hl & Hcur & Hlog & Hb & Hsq & Hrs & Hcs & Hout).
  assert (l < length (coordObjs st))%nat as Hlt by (by eapply lookup_lt_Some).
  assert (r < length (rovers st))%nat as Hrlt by (by eapply lookup_lt_Some).
  assert (length (coordObjs st) ≤ length (coordObjs st'))%nat as Hgrow.
  { rewrite Hcs. destruct v; rewrite ?length_app, length_insert; lia. }
  assert (coordObjs st' !! pushed v l st = Some d) as Hpushed.
  { rewrite Hcs. destruct v; simpl.
    - by apply list_lookup_insert_eq.
    - rewrite lookup_app_r by (by rewrite length_insert).
      by rewrite length_insert, Nat.sub_diag. }
  assert (pushed v l st < length (coordObjs st'))%nat as Hplt by (by eapply lookup_lt_Some).
  assert (∀ l2, l2 ≠ l → (l2 < length (coordObjs st))%nat →
            coordObjs st' !! l2 = coordObjs st !! l2) as Hold.
  { intros l2 Hne Hl2. rewrite Hcs. destruct v.
    - by rewrite list_lookup_insert_ne.
    - rewrite lookup_app_l by (by rewrite length_insert). by rewrite list_lookup_insert_ne. }
  assert (position st' r = Some d) as Hpos.
  { unfold position. rewrite Hrs, list_lookup_insert_eq by done. simpl.
    rewrite Hcs. destruct v.
    - by apply list_lookup_insert_eq.
    - rewrite lookup_app_l by (by rewrite length_insert). by apply list_lookup_insert_eq. }
  (* the rover objects after the move *)
  assert (∀ r1 rv1, rovers st' !! r1 = Some rv1 →
            ∃ rv0, rovers st !! r1 = Some rv0 ∧ currentCoords rv1 = currentCoords rv0 ∧
              ((r1 = r ∧ rv0 = rv ∧ travelLog rv1 = Some (log ++ [pushed v l st])) ∨
               (r1 ≠ r ∧ travelLog rv1 = travelLog rv0))) as Hrov.
  { intros r1 rv1 Hr1. rewrite Hrs in Hr1. destruct (decide (r1 = r)) as [->|Hne].
    - rewrite list_lookup_insert_eq in Hr1 by done. injection Hr1 as <-.
      exists rv. simpl. repeat split; [done|by rewrite Hl|]. left. done.
    - rewrite list_lookup_insert_ne in Hr1 by done. exists rv1. repeat split; try done.
      by right. }
  split; [split; [done|split]|].
  - intros r1 rv1 log1 l1 Hr1 Hlog1 Hl1.
    destruct (Hrov r1 rv1 Hr1) as (rv0 & Hr0 & _ & [(-> & -> & Hlog')|(Hne & Hlog')]).
    + rewrite Hlog' in Hlog1. injection Hlog1 as <-.
      apply elem_of_app in Hl1 as [Hl1|Hl1].
      * specialize (Hlogged r rv log l1 Hr Hlog Hl1). lia.
      * by apply list_elem_of_singleton in Hl1 as ->.
    + rewrite Hlog' in Hlog1. specialize (Hlogged r1 rv0 log1 l1 Hr0 Hlog1 Hl1). lia.
  - intros Hv. specialize (Hapart Hv). subst v. simpl in *.
    intros r1 rv1 log1 l1 r2 rv2 Hr1 Hlog1 Hl1 Hr2.
    destruct (Hrov r2 rv2 Hr2) as (rv2' & Hr2' & Hcur2 & _). rewrite Hcur2.
    assert (∀ l2, currentCoords rv2' = Some l2 → (l2 < length (coordObjs st))%nat) as Hvalid2.
    { intros l2 Hl2. destruct (proj1 Hcons r2 rv2' l2 Hr2' Hl2) as (c2 & Hc2 & _).
      by eapply lookup_lt_Some. }
    destruct (Hrov r1 rv1 Hr1) as (rv0 & Hr0 & _ & [(-> & -> & Hlog')|(Hne & Hlog')]).
    + rewrite Hlog' in Hlog1. injection Hlog1 as <-.
      apply elem_of_app in Hl1 as [Hl1|Hl1].
      * by apply (Hapart r rv log l1 r2 rv2').
      * apply list_elem_of_singleton in Hl1 as ->. intros Heq.
        specialize (Hvalid2 _ Heq). lia.
    + rewrite Hlog' in Hlog1. by apply (Hapart r1 rv0 log1 l1 r2 rv2').
  - split; [exact Hpos|].
    destruct (mapM_lookup_valid (coordObjs st) log) as (h & Hmh & Hlenh).
    { intros l1 Hl1. by apply (Hlogged r rv log l1). }
    destruct (mapM_lookup_valid (coordObjs st') log) as (h' & Hmh' & Hlenh').
    { intros l1 Hl1. specialize (Hlogged r rv log l1 Hr Hlog Hl1). lia. }
    exists h, h'. split; [|split; [|split]].
    + unfold history. rewrite Hr. simpl. by rewrite Hlog.
    + unfold history. rewrite Hrs, list_lookup_insert_eq by done. simpl.
      by apply mapM_snoc.
    + congruence.
    + intros ->. specialize (Hapart eq_refl).
      assert (∀ r1 rv1 log1, rovers st !! r1 = Some rv1 → travelLog rv1 = Some log1 →
                mapM (fun l1 => coordObjs st' !! l1) log1
                = mapM (fun l1 => coordObjs st !! l1) log1) as Hsame.
      { intros r1 rv1 log1 Hr1 Hlog1. apply mapM_ext_elem. intros l1 Hl1. apply Hold.
        - intros ->. by apply (Hapart r1 rv1 log1 l r rv).
        - by apply (Hlogged r1 rv1 log1 l1). }
      split.
      * rewrite (Hsame r rv log Hr Hlog) in Hmh'. congruence.
      * intros r' Hne. unfold history. rewrite Hrs, list_lookup_insert_ne by done.
        destruct (rovers st !! r') as [rv1|] eqn:Hr1; simpl; [|done].
        destruct (travelLog rv1) as [log1|] eqn:Hlog1; simpl; [|done].
        by apply (Hsame r' rv1 log1).
Qed.

(** C2, as the claim has it, fails in [rover.js]: from (5,5), heading N,
    the commands "ff" take the rover to (3,5), and the travel log then
    reads (5,5), (3,5), (3,5): its second and third entry are the
    [currentCoords] object itself. *)
Lemma travelLog_rover_js_example :
  position (alphaPlaced rover_js) 0%nat = Some (Coords 5 5) ∧
  heading (alphaPlaced rover_js) 0%nat = Some "N" ∧
  ∃ cl' st',
    commandRovers rover_js [Request.Make 0%nat "ff"] (alphaPlaced rover_js) = Ok (cl', st') ∧
    position st' 0%nat = Some (Coords 3 5) ∧
    position st' 0%nat ≠ Some (Coords 5 3) ∧
    history st' 0%nat = Some [Coords 5 5; Coords 3 5; Coords 3 5] ∧
    history st' 0%nat ≠ Some [Coords 5 5; Coords 5 4; Coords 5 3].
Proof.
  split; [by vm_compute|]. split; [by vm_compute|].
  eexists _, _. split; [vm_compute; reflexivity|].
  split; [by vm_compute|]. split; [by vm_compute|]. split; by vm_compute.
Qed.

(** C2 (amended): when [initializeMap] has deployed distinct rover
    definitions, the travel log of each rover holds one entry, its
    placement; a turn and a rejected move leave every travel log and
    every position as they are; an accepted move takes the rover to the
    destination and adds exactly one entry, which holds the destination,
    to its travel log; in [part_000] the entries already there keep their
    values and the logs of the other rovers are as they were, and from
    (5,5), heading N, on a map of 10 by 10 without obstacles, the commands
    "ff" end at (5,3) with the log (5,5), (5,4), (5,3); in [rover.js],
    where N decrements [x], they end at (3,5) with a log of three
    entries, the first (5,5) and the last (3,5). *)
Theorem travelLog_grows :
  (∀ v fuel rnd xSize ySize numObst rs st st',
     undeployed st → NoDup rs → (∀ r, r ∈ rs → (r < length (rovers st))%nat) →
     unitSamples rnd →
     initializeMap v fuel rnd xSize ySize numObst rs st = Ok (true, st') →
     tracked v st' ∧
     ∀ r, r ∈ rs → ∃ c, position st' r = Some c ∧ history st' r = Some [c]) ∧
  (∀ v st st' r r',
     turnLeft r st = Ok st' ∨ turnRight r st = Ok st' ∨
     (∃ d message, haveObstacle v (map st) d = Ok (Some message) ∧
                   repositionRover v r d st = Ok st') →
     history st' r' = history st r' ∧ position st' r' = position st r' ∧
     (tracked v st → tracked v st')) ∧
  (∀ v st st' r d,
     tracked v st →
     haveObstacle v (map st) d = Ok None →
     repositionRover v r d st = Ok st' →
     tracked v st' ∧ position st' r = Some d ∧
     ∃ h h',
       history st r = Some h ∧ history st' r = Some (h' ++ [d]) ∧ length h' = length h ∧
       (v = part_000 → h' = h ∧ ∀ r', r' ≠ r → history st' r' = history st r')) ∧
  (position (alphaPlaced part_000) 0%nat = Some (Coords 5 5) ∧
   heading (alphaPlaced part_000) 0%nat = Some "N" ∧
   history (alphaPlaced part_000) 0%nat = Some [Coords 5 5] ∧
   ∃ cl' st',
     commandRovers part_000 [Request.Make 0%nat "ff"] (alphaPlaced part_000) = Ok (cl', st') ∧
     position st' 0%nat = Some (Coords 5 3) ∧
     history st' 0%nat = Some [Coords 5 5; Coords 5 4; Coords 5 3]) ∧
  (∃ cl' st' second,
     commandRovers rover_js [Request.Make 0%nat "ff"] (alphaPlaced rover_js) = Ok (cl', st') ∧
     position st' 0%nat = Some (Coords 3 5) ∧
     history st' 0%nat = Some [Coords 5 5; second; Coords 3 5]).
Proof.
  split; [|split; [|split; [|split]]].
  - intros v fuel rnd xSize ySize numObst rs st st' Hnew Hrs Hvalid Hunit H.
    destruct (initializeMap_placing v fuel rnd xSize ySize numObst rs st st' Hrs Hvalid Hunit H)
      as (m & cells & _ & Hp).
    split; [by apply (placing_tracked v (setMap m st) numObst cells (reverse rs))|].
    destruct (placing_deployed _ _ _ _ _ _ Hp) as (_ & _ & _ & _ & Hrov).
    intros r Hr. destruct (Hrov r) as (c & _ & _ & Hpos & Hhist); [by apply elem_of_reverse|].
    by exists c.
  - intros v st st' r r' [H|[H|(d & message & Hh & H)]].
    + apply turnLeft_Ok in H as (rv & Hr & ->).
      rewrite history_setDirection, position_setDirection by done.
      split; [done|]. split; [done|]. intros Ht. by apply tracked_setDirection.
    + apply turnRight_Ok in H as (rv & Hr & ->).
      rewrite history_setDirection, position_setDirection by done.
      split; [done|]. split; [done|]. intros Ht. by apply tracked_setDirection.
    + destruct (repositionRover_Ok v r d st st' H) as [(rv & message' & _ & _ & ->)|Hacc];
        [|congruence].
      split; [done|]. split; [done|]. intros Ht. by apply tracked_print.
  - intros v st st' r d. apply accepted_history.
  - split; [by vm_compute|]. split; [by vm_compute|]. split; [by vm_compute|].
    eexists _, _. split; [vm_compute; reflexivity|]. split; by vm_compute.
  - eexists _, _, _. split; [vm_compute; reflexivity|]. split; by vm_compute.
Qed.

Lemma travelLog_grows_witness :
  tracked part_000 (alphaPlaced part_000) ∧
  ∃ st', repositionRover part_000 0%nat (Coords 5 4) (alphaPlaced part_000) = Ok st' ∧
         history st' 0%nat = Some [Coords 5 5; Coords 5 4].
Proof.
  destruct travelLog_grows as (Hsetup & _ & Hmove & _).
  destruct (Hsetup part_000 1%nat (fun _ => (1 # 2)%Q) 10 10 0%nat [0%nat]
              (setupState [("Alpha", "N")]) (alphaPlaced part_000)) as [Ht _].
  - intros [|[|r]] rv; simpl; [by intros [= <-]|done|done].
  - apply NoDup_singleton.
  - intros r ->%list_elem_of_singleton. simpl. lia.
  - intros k. apply unitSample_half.
  - apply alphaPlaced_run.
  - split; [exact Ht|].
    destruct (repositionRover part_000 0%nat (Coords 5 4) (alphaPlaced part_000))
      as [st'| |] eqn:E; [|vm_compute in E; discriminate..].
    exists st'. split; [reflexivity|].
    destruct (Hmove part_000 (alphaPlaced part_000) st' 0%nat (Coords 5 4) Ht)
      as (_ & _ & h & h' & Hh & Hh' & _ & Happ); [by vm_compute|exact E|].
    destruct (Happ eq_refl) as [-> _]. rewrite Hh'.
    assert (h = [Coords 5 5]) as -> by (vm_compute in Hh; congruence).
    reflexivity.
Defined.

Lemma travelLine_print ln st r : travelLine (print ln st) r = travelLine st r.
Proof. done. Qed.

(** The travel logs are printed in the order of the list. *)
Lemma forEach_showTravel (cl : list Request.t) :
  ∀ st st', forEach (fun p => showTravel (Request.rover p)) cl st = Ok st' →
    ∃ logs, st' = State (map st) (rovers st) (coordObjs st) (console st ++ logs) ∧
            Forall2 (fun q ln => travelLine st (Request.rover q) = Some ln) cl logs.
Proof.
  induction cl as [|q cl IH]; intros st st' H; simpl in H.
  - apply mret_Ok in H. subst st'. exists []. rewrite app_nil_r. split; [by destruct st|constructor].
  - ok_inv.
    match goal with E : showTravel _ _ = Ok _ |- _ => apply showTravel_Ok in E as (ln & Hln & ->) end.
    destruct (IH _ _ H) as (logs & -> & Hlogs).
    exists (ln :: logs). simpl. split; [by rewrite <- app_assoc|].
    constructor; [done|]. done.
Qed.

(** C10, as the claim has it, fails on a batch that is rejected: the
    call returns with the command list in the order of submission, here
    with the shorter string first. *)
Lemma rejected_batch_keeps_order :
  ∃ st',
    commandRovers rover_js [Request.Make 0%nat "x"; Request.Make 1%nat "ff"] twoRovers
    = Ok ([Request.Make 0%nat "x"; Request.Make 1%nat "ff"], st') ∧
    ¬ StronglySorted (fun a b => (commandCount b ≤ commandCount a)%nat)
        [Request.Make 0%nat "x"; Request.Make 1%nat "ff"].
Proof.
  eexists. split; [reflexivity|].
  intros Hs. apply StronglySorted_inv in Hs as [_ Hs].
  apply Forall_cons in Hs as [Hs _]. vm_compute in Hs. lia.
Qed.

(** C10 (amended): when [commandRovers] returns from a batch without
    offending request, the caller's command list is left in the stable
    order sorted by descending command-string length, and the travel
    logs are printed last, in that order; a batch that is rejected is
    left in the order of submission. *)
Theorem commandRovers_sorts_list (v : source) (cl cl' : list Request.t) (st st' : state) :
  commandRovers v cl st = Ok (cl', st') →
  (hasInvalidCommands cl = None →
     stableDescending cl cl' ∧
     ∃ chain st1 logs,
       chainList cl = Ok (chain, cl') ∧
       forEach (runOrder v) chain st = Ok st1 ∧
       console st' = console st1 ++ logs ∧
       Forall2 (fun q ln => travelLine st1 (Request.rover q) = Some ln) cl' logs) ∧
  (hasInvalidCommands cl ≠ None → cl' = cl).
Proof.
  intros H. split.
  - intros Hv.
    destruct (commandRovers_valid v cl st cl' st' Hv H) as (chain & st1 & Hchain & Hrun & Hshow).
    assert (cl ≠ []) as Hne by (by intros ->).
    destruct (chainList_eq cl Hne) as [Hst Heq]. rewrite Heq in Hchain.
    injection Hchain as <- <-. split; [done|].
    destruct (forEach_showTravel _ _ _ Hshow) as (logs & -> & Hlogs).
    eexists _, st1, logs. by repeat split.
  - intros Hv. destruct (hasInvalidCommands cl) as [r|] eqn:E; [|done].
    by destruct (commandRovers_invalid v cl st cl' st' r E H).
Qed.

Lemma commandRovers_sorts_list_witness :
  ∃ st', commandRovers part_000 [Request.Make 0%nat "f"; Request.Make 0%nat "ff"]
           (alphaPlaced part_000)
         = Ok ([Request.Make 0%nat "ff"; Request.Make 0%nat "f"], st') ∧
         stableDescending [Request.Make 0%nat "f"; Request.Make 0%nat "ff"]
                          [Request.Make 0%nat "ff"; Request.Make 0%nat "f"].
Proof.
  destruct (commandRovers part_000 [Request.Make 0%nat "f"; Request.Make 0%nat "ff"]
              (alphaPlaced part_000)) as [[cl' st']| |] eqn:E;
    [|vm_compute in E; discriminate..].
  destruct (commandRovers_sorts_list _ _ _ _ _ E) as [Hsorted _].
  assert (cl' = [Request.Make 0%nat "ff"; Request.Make 0%nat "f"]) as ->.
  { vm_compute in E. congruence. }
  exists st'. split; [reflexivity|]. by apply Hsorted.
Defined.

(** ** Instances of the theorems *)

Lemma destination_offsets_witness :
  moveForward part_000 0%nat (alphaPlaced part_000)
  = repositionRover part_000 0%nat (Coords 5 4) (alphaPlaced part_000).
Proof.
  apply (proj1 (proj2 (proj2 (proj2 destination_offsets)) part_000 0%nat (alphaPlaced part_000)
                  (Rover "Alpha" "N" (Some 0%nat) (Some [1%nat])) 0%nat (Coords 5 5)
                  eq_refl eq_refl eq_refl)).
Defined.

Lemma turns_cycle_witness :
  ((turnRight 0%nat twoRovers ≫= turnRight 0%nat) ≫= turnRight 0%nat) ≫= turnRight 0%nat
  = Ok twoRovers.
Proof.
  apply (proj1 (proj2 (proj2 turns_cycle) 0%nat twoRovers (Rover "Alpha" "N" None None) eq_refl)).
Defined.

(** ** Runs that do not throw *)

(** On a map whose squares are those inside the boundaries,
    [haveObstacle] never throws. *)
Lemma haveObstacle_gridded v st d :
  gridded v st →
  (haveObstacle v (map st) d = Ok (Some "destination out of bounds") ∧
   outOfBounds v (boundaries (map st)) d = true) ∨
  (haveObstacle v (map st) d = Ok (Some "collision warning") ∧
   outOfBounds v (boundaries (map st)) d = false ∧
   ∃ s, squareAt v (map st) d = Some s ∧ s ≠ Empty) ∨
  (haveObstacle v (map st) d = Ok None ∧
   outOfBounds v (boundaries (map st)) d = false ∧
   squareAt v (map st) d = Some Empty).
Proof.
  intros Hg. unfold haveObstacle.
  destruct (outOfBounds v (boundaries (map st)) d) eqn:Hout; [by left|].
  destruct (proj2 (Hg d) Hout) as [s Hs].
  rewrite (squareAt_readSquare _ _ _ _ Hs). simpl.
  destruct (decide (s = Empty)) as [->|Hne].
  - right; right. by rewrite decide_True.
  - right; left. rewrite decide_False by congruence. repeat split; eauto.
Qed.

Lemma gridded_print v ln st : gridded v st → gridded v (print ln st).
Proof. done. Qed.

Lemma gridded_setDirection v r rv d st : gridded v st → gridded v (setDirection r rv d st).
Proof. done. Qed.

Lemma gridded_accepted v r d st st' :
  gridded v st → consistent v st →
  haveObstacle v (map st) d = Ok None →
  repositionRover v r d st = Ok st' →
  gridded v st'.
Proof.
  intros Hg [H1 _] Hh H.
  destruct (repositionRover_accepted v r d st st' Hh H)
    as (rv & l & cur & log & Hr & Hl & Hcur & Hlog & Hb & Hsq & _).
  pose proof (haveObstacle_spec v (map st) d) as Hd. rewrite Hh in Hd. destruct Hd as [Hin Hfree].
  destruct (H1 r rv l Hr Hl) as (c0 & Hc0 & Hhere).
  assert (c0 = cur) as -> by congruence.
  intros c. rewrite Hsq, Hb. case_decide as Hcd; [subst c|case_decide as Hcc; [subst c|]].
  - split; [done|eauto].
  - split; [|eauto]. intros _. apply Hg. by rewrite Hhere.
  - apply Hg.
Qed.

(** A deployed rover on a consistent, gridded map: [repositionRover]
    returns. *)
Lemma repositionRover_returns v r d st :
  gridded v st → consistent v st → deployed st r →
  ∃ st', repositionRover v r d st = Ok st'.
Proof.
  intros Hg [H1 H2] (rv & l & cur & log & Hr & Hn & Hl & Hcur & Hlog).
  destruct (haveObstacle_gridded v st d Hg) as [[Hh _]|[[Hh _]|(Hh & Hin & Hfree)]].
  - eexists. by apply (repositionRover_blocked v r rv).
  - eexists. by apply (repositionRover_blocked v r rv).
  - destruct (H1 r rv l Hr Hl) as (c0 & Hc0 & Hhere).
    assert (c0 = cur) as -> by congruence.
    destruct (writeSquare_Ok v (map st) cur Empty) as [m1 Hw1]; [by rewrite Hhere|].
    pose proof (squareAt_write _ _ _ _ _ Hw1) as [_ Hs1].
    destruct (writeSquare_Ok v m1 d (RoverAt r)) as [m2 Hw2].
    { rewrite Hs1. case_decide; [eauto|]. by rewrite Hfree. }
    assert (l < length (coordObjs st))%nat as Hlt by (by eapply lookup_lt_Some).
    unfold repositionRover. rewrite Hh. simpl. unfold getRover, getCurrent.
    rewrite Hr. simpl. rewrite Hl. simpl. rewrite Hcur. simpl. rewrite Hw1. simpl.
    rewrite list_lookup_insert_eq by (by rewrite !length_insert). simpl.
    destruct d as [dx dy]. simpl. rewrite Hw2. simpl. rewrite Hlog. simpl.
    destruct v; simpl; eauto.
Qed.

Lemma deployed_print ln st r : deployed st r → deployed (print ln st) r.
Proof. done. Qed.

Lemma deployed_setDirection r rv d st r' :
  rovers st !! r = Some rv → deployed st r' → deployed (setDirection r rv d st) r'.
Proof.
  intros Hr (rv' & l & c & log & Hr' & Hn & Hl & Hc & Hlog).
  destruct (decide (r' = r)) as [->|Hne].
  - assert (rv' = rv) as -> by congruence.
    exists (Rover (name rv) d (currentCoords rv) (travelLog rv)), l, c, log.
    simpl. rewrite list_lookup_insert_eq by (by eapply lookup_lt_Some). done.
  - exists rv', l, c, log. simpl. rewrite list_lookup_insert_ne by done. done.
Qed.

Lemma deployed_accepted v r d st st' r' :
  haveObstacle v (map st) d = Ok None →
  repositionRover v r d st = Ok st' →
  deployed st r' → deployed st' r'.
Proof.
  intros Hh H (rv' & l' & c' & log' & Hr' & Hn & Hl' & Hc' & Hlog').
  destruct (repositionRover_accepted v r d st st' Hh H)
    as (rv & l & cur & log & Hr & Hl & Hcur & Hlog & _ & _ & Hrs & Hcs & _).
  assert (is_Some (coordObjs st' !! l')) as [c'' Hc''].
  { apply lookup_lt_is_Some_2. apply lookup_lt_Some in Hc'. rewrite Hcs.
    destruct v; rewrite ?length_app, length_insert; lia. }
  destruct (decide (r' = r)) as [->|Hne].
  - assert (rv' = rv) as -> by congruence.
    assert (l' = l) as -> by congruence.
    exists (Rover (name rv) (direction rv) (Some l) (Some (log ++ [pushed v l st]))),
      l, c'', (log ++ [pushed v l st]).
    rewrite Hrs. rewrite list_lookup_insert_eq by (by eapply lookup_lt_Some). done.
  - exists rv', l', c'', log'. rewrite Hrs, list_lookup_insert_ne by done. done.
Qed.

(** A call of [repositionRover] that returns keeps what the simulation
    relies on. *)
Lemma steady_repositionRover v r d st st' :
  steady v st → repositionRover v r d st = Ok st' →
  steady v st' ∧ ∀ r', deployed st r' → deployed st' r'.
Proof.
  intros [Ht Hg] H.
  destruct (repositionRover_Ok v r d st st' H) as [(rv & message & _ & _ & ->)|Hh].
  - split; [split; [by apply tracked_print|done]|done].
  - split; [split|].
    + by destruct (accepted_history v r d st st' Ht Hh H).
    + apply (gridded_accepted v r d st st' Hg (proj1 Ht) Hh H).
    + intros r'. by apply (deployed_accepted v r d st st').
Qed.

Lemma steady_runOrder v o st st' :
  steady v st → runOrder v o st = Ok st' →
  steady v st' ∧ ∀ r', deployed st r' → deployed st' r'.
Proof.
  intros Hs H. destruct (runOrder_cases v o st st' H) as [H'|[H'|[H'|[H'| ->]]]]; [| | | |done].
  - apply turnLeft_Ok in H' as (rv & Hr & ->). destruct Hs as [Ht Hg].
    split; [split; [by apply tracked_setDirection|done]|].
    intros r'. by apply deployed_setDirection.
  - apply turnRight_Ok in H' as (rv & Hr & ->). destruct Hs as [Ht Hg].
    split; [split; [by apply tracked_setDirection|done]|].
    intros r'. by apply deployed_setDirection.
  - apply moveForward_Ok in H' as (rv & l & cur & _ & _ & _ & H').
    by eapply steady_repositionRover.
  - apply moveBackwards_Ok in H' as (rv & l & cur & _ & _ & _ & H').
    by eapply steady_repositionRover.
Qed.

(** An order for a deployed rover returns. *)
Lemma runOrder_returns v o st :
  steady v st → deployed st (Order.rover o) → ∃ st', runOrder v o st = Ok st'.
Proof.
  intros [Ht Hg] Hd. pose proof Hd as (rv & l & c & log & Hr & Hn & Hl & Hc & Hlog).
  unfold runOrder.
  destruct (Ascii.eqb _ "l"); [rewrite (turnLeft_spec _ rv) by done; eauto|].
  destruct (Ascii.eqb _ "r"); [rewrite (turnRight_spec _ rv) by done; eauto|].
  destruct (Ascii.eqb _ "f").
  { unfold moveForward, getRover, getCurrent. rewrite Hr. simpl. rewrite Hl. simpl.
    rewrite Hc. simpl. by apply repositionRover_returns; [|apply Ht|]. }
  destruct (Ascii.eqb _ "b"); [|eauto].
  unfold moveBackwards, getRover, getCurrent. rewrite Hr. simpl. rewrite Hl. simpl.
  rewrite Hc. simpl. by apply repositionRover_returns; [|apply Ht|].
Qed.

Lemma forEach_runOrder_returns v (chain : list Order.t) :
  ∀ st, steady v st → (∀ o, o ∈ chain → deployed st (Order.rover o)) →
    ∃ st', forEach (runOrder v) chain st = Ok st' ∧ steady v st' ∧
           ∀ r, deployed st r → deployed st' r.
Proof.
  induction chain as [|o chain IH]; intros st Hs Hd.
  - exists st. split; [reflexivity|]. by split.
  - destruct (runOrder_returns v o st Hs) as [st1 H1]; [apply Hd; left|].
    destruct (steady_runOrder v o st st1 Hs H1) as [Hs1 Hd1].
    destruct (IH st1 Hs1) as (st' & H' & Hs' & Hd').
    { intros o' Ho'. apply Hd1, Hd. by right. }
    exists st'. simpl. rewrite H1. simpl. split; [done|]. split; [done|].
    intros r Hr. apply Hd'. by apply Hd1.
Qed.

Lemma showTravel_returns st r :
  logged st → deployed st r → ∃ ln, showTravel r st = Ok (print ln st).
Proof.
  intros Hlog (rv & l & c & log & Hr & Hn & Hl & Hc & Hlg).
  destruct (mapM_lookup_valid (coordObjs st) log) as (h & Hh & _).
  { intros l1 Hl1. by apply (Hlog r rv log l1). }
  unfold showTravel, getRover. rewrite Hr. simpl.
  destruct (name rv) eqn:En; [done|]. simpl. rewrite Hlg. simpl.
  rewrite mapM_defined, Hh. simpl. eauto.
Qed.

Lemma forEach_showTravel_returns (cl : list Request.t) :
  ∀ st, logged st → (∀ q, q ∈ cl → deployed st (Request.rover q)) →
    ∃ st', forEach (fun p => showTravel (Request.rover p)) cl st = Ok st'.
Proof.
  induction cl as [|q cl IH]; intros st Hlog Hd; [exists st; reflexivity|].
  destruct (showTravel_returns st (Request.rover q) Hlog) as [ln Hln]; [apply Hd; left|].
  destruct (IH (print ln st)) as [st' H']; [done| |].
  { intros q' Hq'. apply deployed_print, Hd. by right. }
  exists st'. simpl. rewrite Hln. done.
Qed.

(** ** More on batches *)

Lemma isCommand_known c : isCommand c = true ↔ knownCommand c.
Proof.
  unfold isCommand, knownCommand. rewrite !orb_true_iff, !Ascii.eqb_eq. tauto.
Qed.

Lemma hasWrongCommand_false s :
  hasWrongCommand s = false ↔ ∀ c, c ∈ list_ascii_of_string s → knownCommand c.
Proof.
  unfold hasWrongCommand. rewrite <- not_true_iff_false, existsb_exists. split.
  - intros Hno c Hc. apply isCommand_known.
    destruct (isCommand c) eqn:E; [done|]. exfalso. apply Hno. exists c.
    split; [by apply list_elem_of_In|]. by rewrite E.
  - intros Hall (c & Hc & Hbad). apply list_elem_of_In, Hall, isCommand_known in Hc.
    by rewrite Hc in Hbad.
Qed.

(** Where the orders of a chain come from. *)
Lemma chainList_orders cl chain sorted o :
  chainList cl = Ok (chain, sorted) → o ∈ chain →
  ∃ q, q ∈ cl ∧ Order.rover o = Request.rover q ∧
       Order.command o ∈ list_ascii_of_string (Request.commands q).
Proof.
  intros H Ho. assert (cl ≠ []) as Hne by (by intros ->).
  destruct (chainList_eq cl Hne) as [_ Heq]. rewrite Heq in H.
  injection H as <- <-. unfold interleave in Ho.
  apply list_elem_of_bind in Ho as (i & Ho & _).
  apply list_elem_of_omap in Ho as (q & Hq & Ho).
  exists q. split; [by rewrite <- (sort_perm commandCount cl)|].
  unfold orderAt in Ho. rewrite get_lookup in Ho.
  destruct (list_ascii_of_string (Request.commands q) !! i) as [c|] eqn:Hc; [|done].
  injection Ho as <-. split; [done|]. by eapply list_elem_of_lookup_2.
Qed.

(** X5: [hasInvalidCommands] returns [false] exactly when every character
    of every command string is one of l, r, f, b; the empty string and
    the empty list pass. *)
Theorem hasInvalidCommands_accepts (cl : list Request.t) :
  (hasInvalidCommands cl = None ↔
   ∀ q c, q ∈ cl → c ∈ list_ascii_of_string (Request.commands q) → knownCommand c) ∧
  hasInvalidCommands [] = None ∧
  ∀ r, hasInvalidCommands [Request.Make r EmptyString] = None.
Proof.
  split; [|by split].
  rewrite hasInvalidCommands_None, Forall_forall. unfold offending. split.
  - intros H q c Hq. apply hasWrongCommand_false. apply not_true_iff_false, H, Hq.
  - intros H q Hq. apply not_true_iff_false, hasWrongCommand_false. intros c. by apply H.
Qed.

Lemma hasInvalidCommands_accepts_witness :
  knownCommand "f"%char.
Proof.
  apply (proj1 (proj1 (hasInvalidCommands_accepts [Request.Make 0%nat "lf"]))
           eq_refl (Request.Make 0%nat "lf") "f"%char).
  - left.
  - right. left.
Defined.

(** X6: when a batch has passed [hasInvalidCommands], every order that
    [chainList] builds carries a rover of the batch and one of the
    characters l, r, f, b, so that the [switch] of [commandRovers] always
    takes one of its four cases. *)
Theorem validated_chain (cl sorted : list Request.t) (chain : list Order.t) (o : Order.t) :
  hasInvalidCommands cl = None →
  chainList cl = Ok (chain, sorted) →
  o ∈ chain →
  knownCommand (Order.command o) ∧
  (∃ q, q ∈ cl ∧ Order.rover o = Request.rover q) ∧
  ∀ v st,
    runOrder v o st = turnLeft (Order.rover o) st ∨
    runOrder v o st = turnRight (Order.rover o) st ∨
    runOrder v o st = moveForward v (Order.rover o) st ∨
    runOrder v o st = moveBackwards v (Order.rover o) st.
Proof.
  intros Hv Hc Ho.
  destruct (chainList_orders cl chain sorted o Hc Ho) as (q & Hq & Hr & Hchar).
  assert (knownCommand (Order.command o)) as Hk.
  { apply hasInvalidCommands_None in Hv. rewrite Forall_forall in Hv.
    specialize (Hv q Hq). unfold offending in Hv. apply not_true_iff_false in Hv.
    by apply (proj1 (hasWrongCommand_false _) Hv). }
  split; [done|]. split; [by exists q|].
  intros v st. unfold runOrder.
  destruct Hk as [-> | [-> | [-> | ->]]]; simpl; tauto.
Qed.

Lemma validated_chain_witness :
  knownCommand "b"%char.
Proof.
  apply (proj1 (validated_chain [Request.Make 0%nat "lb"] [Request.Make 0%nat "lb"]
                  [Order.Make 0%nat "l"%char; Order.Make 0%nat "b"%char]
                  (Order.Make 0%nat "b"%char) eq_refl eq_refl ltac:(right; left))).
Defined.

Lemma sort_sorted_id (cl : list Request.t) :
  StronglySorted (fun a b => (commandCount b ≤ commandCount a)%nat) cl →
  sort (fun a b => commandsLength b - commandsLength a) cl = cl.
Proof.
  intros Hs. apply (sorted_filter_unique commandCount); [|done|].
  - apply (sort_sorted commandCount cl).
  - intros n. apply (sort_filter commandCount n cl).
Qed.

Lemma maxLen_perm (l l' : list Request.t) : l ≡ₚ l' → maxLen l = maxLen l'.
Proof.
  unfold maxLen. induction 1; rewrite ?fmap_cons; simpl; lia.
Qed.

(** X7: [chainList] leaves a list that is already in descending order of
    command-string length exactly as it is, ties included; so a second
    call on the list that a first call has left gives the same chain and
    the same list. *)
Theorem chainList_again (cl sorted : list Request.t) (chain : list Order.t) :
  chainList cl = Ok (chain, sorted) →
  chainList sorted = Ok (chain, sorted) ∧
  ∀ cl0, cl0 ≠ [] →
    StronglySorted (fun a b => (commandCount b ≤ commandCount a)%nat) cl0 →
    ∃ chain0, chainList cl0 = Ok (chain0, cl0).
Proof.
  intros H. assert (cl ≠ []) as Hne by (by intros ->).
  destruct (chainList_eq cl Hne) as [[Hs Hf] Heq]. rewrite Heq in H.
  injection H as Hchain Hsorted.
  assert (∀ cl0, cl0 ≠ [] →
            StronglySorted (fun a b => (commandCount b ≤ commandCount a)%nat) cl0 →
            chainList cl0 = Ok (interleave cl0 (maxLen cl0), cl0)) as Hid.
  { intros cl0 Hne0 Hs0. destruct (chainList_eq cl0 Hne0) as [_ Heq0].
    by rewrite (sort_sorted_id cl0 Hs0) in Heq0. }
  split.
  - rewrite Hsorted in Hs.
    assert (sorted ≡ₚ cl) as Hp by (rewrite <- Hsorted; apply (sort_perm commandCount cl)).
    rewrite Hid; [|by intros ->; apply Permutation_nil_l in Hp|done].
    do 2 f_equal. rewrite <- Hchain, Hsorted. by rewrite (maxLen_perm sorted cl Hp).
  - intros cl0 Hne0 Hs0. eexists. by apply Hid.
Qed.

Lemma chainList_again_witness :
  chainList [Request.Make 1%nat "fffbb"; Request.Make 0%nat "lrf"]
  = Ok ([Order.Make 1%nat "f"; Order.Make 0%nat "l"; Order.Make 1%nat "f"; Order.Make 0%nat "r";
         Order.Make 1%nat "f"; Order.Make 0%nat "f"; Order.Make 1%nat "b"; Order.Make 1%nat "b"]%char,
        [Request.Make 1%nat "fffbb"; Request.Make 0%nat "lrf"]).
Proof.
  apply (proj1 (chainList_again [Request.Make 0%nat "lrf"; Request.Make 1%nat "fffbb"] _ _ eq_refl)).
Defined.

(** X8: on a state that [initializeMap] and orders have left, a non-empty
    batch all of whose rovers are deployed and have a name never makes
    [commandRovers] throw: the call returns, whether the batch is valid
    or not, and leaves a state of the same kind. *)
Theorem commandRovers_returns (v : source) (cl : list Request.t) (st : state) :
  steady v st → cl ≠ [] →
  (∀ q, q ∈ cl → deployed st (Request.rover q)) →
  ∃ cl' st', commandRovers v cl st = Ok (cl', st') ∧ steady v st' ∧
             ∀ r, deployed st r → deployed st' r.
Proof.
  intros Hs Hne Hd. unfold commandRovers.
  destruct (hasInvalidCommands cl) as [r|] eqn:Hv.
  - assert (∃ q, q ∈ cl ∧ Request.rover q = r) as (q & Hq & <-).
    { destruct (last_offender cl) as (pre & q & post & -> & Hq & Hpost).
      - destruct (decide (Exists offending cl)) as [Hex|Hno]; [done|].
        apply not_Exists_Forall in Hno; [|apply _].
        apply hasInvalidCommands_None in Hno. congruence.
      - rewrite (hasInvalidCommands_last pre post q Hq Hpost) in Hv.
        injection Hv as <-. exists q. split; [|done]. apply elem_of_app. right. left. }
    destruct (Hd q Hq) as (rv & l & c & log & Hr & Hn & _).
    rewrite (issueWarning_spec _ rv) by done. simpl.
    eexists _, _. split; [done|]. destruct Hs as [Ht Hg].
    split; [split; [by apply tracked_print|done]|done].
  - destruct (chainList_eq cl Hne) as [_ Heq]. rewrite Heq. simpl.
    set (sorted := sort (fun a b => commandsLength b - commandsLength a) cl) in *.
    assert (sorted ≡ₚ cl) as Hp by apply (sort_perm commandCount cl).
    destruct (forEach_runOrder_returns v (interleave sorted (maxLen cl)) st Hs)
      as (st1 & H1 & Hs1 & Hd1).
    { intros o Ho. destruct (chainList_orders cl _ _ o Heq Ho) as (q & Hq & -> & _).
      by apply Hd. }
    rewrite H1. simpl.
    destruct (forEach_showTravel_returns sorted st1) as [st2 H2].
    { apply Hs1. }
    { intros q Hq. apply Hd1, Hd. by rewrite <- Hp. }
    rewrite H2. simpl. eexists _, _. split; [done|].
    destruct (forEach_showTravel sorted st1 st2 H2) as (logs & -> & _).
    destruct Hs1 as [Ht1 Hg1]. split; [by split|]. intros r Hr. by apply Hd1 in Hr.
Qed.

(** ** More on the setup *)

(** X1: [generateMap] returns [false] exactly when a size is not
    positive; otherwise, in both files, the squares of the new map are
    those of coordinates 0 <= x < xSize and 0 <= y < ySize, they all hold
    0, and they are the coordinates [haveObstacle] lets through. *)
Theorem generateMap_shape (v : source) (xSize ySize : Z) :
  (generateMap v xSize ySize = None ↔ xSize ≤ 0 ∨ ySize ≤ 0) ∧
  ∀ m, generateMap v xSize ySize = Some m →
    ∀ c,
      (outOfBounds v (boundaries m) c = false ↔ 0 ≤ x c < xSize ∧ 0 ≤ y c < ySize) ∧
      squareAt v m c = (if outOfBounds v (boundaries m) c then None else Some Empty) ∧
      haveObstacle v m c
      = Ok (if outOfBounds v (boundaries m) c then Some "destination out of bounds" else None).
Proof.
  split.
  - unfold generateMap.
    destruct (Z.ltb_spec 0 xSize), (Z.ltb_spec 0 ySize); simpl;
      try (split; [done|lia]); destruct v; split; (done || lia).
  - intros m Hm c.
    assert (boundaries m = match v with
                           | rover_js => Bounds.Make (-1) ySize (-1) xSize
                           | part_000 => Bounds.Make (-1) xSize (-1) ySize
                           end) as Hb.
    { unfold generateMap in Hm. destruct (_ && _); [|done]. destruct v; by injection Hm as <-. }
    apply generateMap_squares in Hm as (_ & _ & _ & _ & _ & _ & _ & Hsq).
    split; [|split; [apply Hsq|]].
    + rewrite outOfBounds_false, Hb. destruct v; simpl; lia.
    + unfold haveObstacle. destruct (outOfBounds v (boundaries m) c) eqn:E; [done|].
      assert (squareAt v m c = Some Empty) as Hs by (by rewrite Hsq, E).
      by rewrite (squareAt_readSquare _ _ _ _ Hs).
Qed.

Lemma generateMap_shape_witness :
  haveObstacle part_000 (MarsMap (fill 1 (fill 2 Empty)) (Bounds.Make (-1) 2 (-1) 1)) (Coords 1 0)
  = Ok None.
Proof.
  apply (proj2 (proj2 (proj2 (generateMap_shape part_000 2 1) _ eq_refl (Coords 1 0)))).
Defined.

(** X2: [initializeMap] fails without a trace on the rovers: when it
    returns [false] it has printed exactly one message and changed
    nothing else, [landscapeSetup], whose state it goes on with, having
    refused before it touched a rover; the message tells which of the
    two checks failed; a size that is not positive fails before any
    sample is drawn. *)
Theorem initializeMap_false (v : source) (fuel : nat) (rnd : nat → Q) (xSize ySize : Z)
    (numObst : nat) (rs : list ref) (st : state) :
  (∀ st', initializeMap v fuel rnd xSize ySize numObst rs st = Ok (false, st') →
     (st' = print (Message "Map size must be greater than 0") st ∧ (xSize ≤ 0 ∨ ySize ≤ 0)) ∨
     (st' = print (Message "The map hasn't enough space to place all the elements") st ∧
      0 < xSize ∧ 0 < ySize ∧ xSize * ySize < Z.of_nat (numObst + length rs))) ∧
  (xSize ≤ 0 ∨ ySize ≤ 0 →
     initializeMap v fuel rnd xSize ySize numObst rs st
     = Ok (false, print (Message "Map size must be greater than 0") st)).
Proof.
  split.
  - intros st' H. unfold initializeMap in H.
    destruct (generateMap v xSize ySize) as [m|] eqn:Hm.
    + right. pose proof (generateMap_squares v xSize ySize m Hm) as (Hx & Hy & _ & _ & Hsize & _).
      unfold landscapeSetup in H. simpl in H. rewrite Hsize in H.
      destruct (Z.leb_spec (Z.of_nat (numObst + length rs)) (xSize * ySize)) as [Hle|Hgt].
      * destruct (landscapeLoop _ _ _ _ _ _ _ _) as [st1| |]; simpl in H; try done.
      * simpl in H. apply mret_Ok in H. injection H as <-. by repeat split.
    + left. apply mret_Ok in H. injection H as <-. split; [done|].
      unfold generateMap in Hm.
      destruct (Z.ltb_spec 0 xSize), (Z.ltb_spec 0 ySize); simpl in Hm; try lia;
        by destruct v.
  - intros Hbad. unfold initializeMap, generateMap.
    destruct (Z.ltb_spec 0 xSize), (Z.ltb_spec 0 ySize); simpl; try done; lia.
Qed.

Lemma initializeMap_false_witness :
  initializeMap rover_js 0 alternating 0 5 1 [0%nat] twoRovers
  = Ok (false, print (Message "Map size must be greater than 0") twoRovers).
Proof.
  apply (proj2 (initializeMap_false rover_js 0 alternating 0 5 1 [0%nat] twoRovers)).
  left. lia.
Defined.

(** The squares that hold a rover are as many as the rovers deployed. *)
Lemma placing_rover_squares v st0 rocks cells placed st :
  NoDup placed →
  placing v st0 rocks cells placed st →
  roverOf v (map st) <$> filter (fun c => squareAt v (map st) c ≠ Some Rock) cells ≡ₚ placed.
Proof.
  intros Hnd Hp. destruct Hp as [Hb Hcon Hgrid Hcnd Hcells Hcount Hrov Hoth Hobj Hpl Hsqr].
  assert (∀ c, c ∈ filter (fun c => squareAt v (map st) c ≠ Some Rock) cells →
            ∃ r, squareAt v (map st) c = Some (RoverAt r) ∧ roverOf v (map st) c = r) as Hheld.
  { intros c [Hnr Hc]%list_elem_of_filter. apply Hcells in Hc as (s & Hs & Hne).
    unfold roverOf. rewrite Hs. destruct s as [| |r]; [done|congruence|eauto]. }
  apply NoDup_Permutation; [|done|].
  - apply NoDup_fmap_2_strong; [|by apply NoDup_filter].
    intros c1 c2 Hc1 Hc2 Heq.
    destruct (Hheld c1 Hc1) as (r1 & Hs1 & Hr1). destruct (Hheld c2 Hc2) as (r2 & Hs2 & Hr2).
    assert (r1 = r2) as -> by congruence.
    destruct (Hsqr c1 r2 Hs1) as [_ Hp1]. destruct (Hsqr c2 r2 Hs2) as [_ Hp2]. congruence.
  - intros r. rewrite list_elem_of_fmap. split.
    + intros (c & -> & Hc). destruct (Hheld c Hc) as (r & Hs & ->). by apply (Hsqr c r).
    + intros (i & Hi)%list_elem_of_lookup_1.
      destruct (Hpl i r Hi) as (rv0 & c & _ & _ & _ & _ & Hs).
      exists c. split; [unfold roverOf; by rewrite Hs|].
      apply list_elem_of_filter. split; [congruence|]. apply Hcells. by exists (RoverAt r).
Qed.

Lemma placing_rock_squares v st0 rocks cells placed st :
  NoDup placed →
  placing v st0 rocks cells placed st →
  length (filter (fun c => squareAt v (map st) c = Some Rock) cells) = rocks.
Proof.
  intros Hnd Hp.
  pose proof (placing_rover_squares v st0 rocks cells placed st Hnd Hp) as Hr.
  apply Permutation_length in Hr. rewrite length_fmap in Hr.
  pose proof (pl_count _ _ _ _ _ _ Hp) as Hc.
  pose proof (filter_app_complement (fun c => squareAt v (map st) c = Some Rock) cells) as Hsplit.
  apply Permutation_length in Hsplit. rewrite length_app in Hsplit.
  unfold compose in Hsplit. lia.
Qed.

Lemma rockAndAlpha_run v :
  initializeMap v 2 alternating 1 2 1 [0%nat] twoRovers = Ok (true, rockAndAlpha v).
Proof. destruct v; vm_compute; reflexivity. Qed.

Lemma twoRovers_undeployed : undeployed twoRovers.
Proof. intros [|[|[|r]]] rv; simpl; intros [= <-] || done; done. Qed.

Lemma undeployed_setMap m st : undeployed st → undeployed (setMap m st).
Proof. done. Qed.

(** What [initializeMap] leaves when it returns [true]. *)
Lemma initializeMap_steady v fuel rnd xSize ySize numObst rs st st' :
  undeployed st → NoDup rs → (∀ r, r ∈ rs → (r < length (rovers st))%nat) → unitSamples rnd →
  initializeMap v fuel rnd xSize ySize numObst rs st = Ok (true, st') →
  steady v st' ∧
  ∀ r rv, r ∈ rs → rovers st !! r = Some rv → name rv ≠ EmptyString → deployed st' r.
Proof.
  intros Hnew Hrs Hvalid Hunit H.
  destruct (initializeMap_placing v fuel rnd xSize ySize numObst rs st st' Hrs Hvalid Hunit H)
    as (m & cells & _ & Hp).
  split; [split|].
  - by apply (placing_tracked v (setMap m st) numObst cells (reverse rs)).
  - intros c. apply (pl_grid _ _ _ _ _ _ Hp).
  - intros r rv Hr Hrv Hn. apply elem_of_reverse, list_elem_of_lookup_1 in Hr as [i Hi].
    destruct (pl_placed _ _ _ _ _ _ Hp i r Hi) as (rv0 & c & H0 & H1 & H2 & H3 & H4).
    simpl in H0. assert (rv0 = rv) as -> by congruence.
    eexists _, _, c, _. split; [exact H1|]. simpl. by repeat split.
Qed.

(** X3: when [initializeMap] returns [true] for distinct rovers, exactly
    [numObst] squares hold an obstacle, each rover of the list is held by
    exactly one square, and no square holds any other rover. *)
Theorem initializeMap_counts (v : source) (fuel : nat) (rnd : nat → Q) (xSize ySize : Z)
    (numObst : nat) (rs : list ref) (st st' : state) :
  NoDup rs → (∀ r, r ∈ rs → (r < length (rovers st))%nat) → unitSamples rnd →
  initializeMap v fuel rnd xSize ySize numObst rs st = Ok (true, st') →
  (∃ rocks, NoDup rocks ∧ length rocks = numObst ∧
            ∀ c, c ∈ rocks ↔ squareAt v (map st') c = Some Rock) ∧
  (∀ r, r ∈ rs → ∃ c, ∀ c', squareAt v (map st') c' = Some (RoverAt r) ↔ c' = c) ∧
  (∀ c r, squareAt v (map st') c = Some (RoverAt r) → r ∈ rs).
Proof.
  intros Hrs Hvalid Hunit H.
  destruct (initializeMap_placing v fuel rnd xSize ySize numObst rs st st' Hrs Hvalid Hunit H)
    as (m & cells & _ & Hp).
  assert (NoDup (reverse rs)) as Hnd by (by rewrite reverse_Permutation).
  split; [|split].
  - exists (filter (fun c => squareAt v (map st') c = Some Rock) cells).
    split; [apply NoDup_filter, (pl_nodup _ _ _ _ _ _ Hp)|].
    split; [by apply (placing_rock_squares v (setMap m st) numObst cells (reverse rs))|].
    intros c. rewrite list_elem_of_filter. split; [by intros [? _]|].
    intros Hc. split; [done|]. apply (pl_cells _ _ _ _ _ _ Hp). by exists Rock.
  - intros r Hr. apply elem_of_reverse, list_elem_of_lookup_1 in Hr as [i Hi].
    destruct (pl_placed _ _ _ _ _ _ Hp i r Hi) as (rv0 & c & _ & H1 & H2 & _ & H4).
    exists c. intros c'. split; [|by intros ->].
    intros Hc'. destruct (pl_squares _ _ _ _ _ _ Hp c' r Hc') as [_ Hpos].
    unfold position in Hpos. rewrite H1 in Hpos. simpl in Hpos, H2. congruence.
  - intros c r Hc. apply elem_of_reverse. by apply (pl_squares _ _ _ _ _ _ Hp c r).
Qed.

Lemma initializeMap_counts_witness :
  ∃ rocks, length rocks = 1%nat ∧
           ∀ c, c ∈ rocks ↔ squareAt rover_js (map (rockAndAlpha rover_js)) c = Some Rock.
Proof.
  destruct (initializeMap_counts rover_js 2 alternating 1 2 1 [0%nat] twoRovers
              (rockAndAlpha rover_js)) as [(rocks & _ & Hlen & Hrocks) _].
  - apply NoDup_singleton.
  - intros r ->%list_elem_of_singleton. simpl. lia.
  - apply alternating_unit.
  - apply rockAndAlpha_run.
  - exists rocks. split; [exact Hlen | exact Hrocks].
Defined.

(** X4: of the rovers, [initializeMap] changes the coordinates and the
    travel log of those it deploys and nothing else: every rover keeps
    its name and its direction, a rover that is not in the list is left
    as it was, the [{x, y}] objects that existed keep their place and
    their values, and nothing is printed. *)
Theorem initializeMap_frame (v : source) (fuel : nat) (rnd : nat → Q) (xSize ySize : Z)
    (numObst : nat) (rs : list ref) (st st' : state) :
  NoDup rs → (∀ r, r ∈ rs → (r < length (rovers st))%nat) → unitSamples rnd →
  initializeMap v fuel rnd xSize ySize numObst rs st = Ok (true, st') →
  (∀ r rv, rovers st !! r = Some rv →
     ∃ rv', rovers st' !! r = Some rv' ∧ name rv' = name rv ∧ direction rv' = direction rv ∧
            (r ∉ rs → rv' = rv)) ∧
  length (rovers st') = length (rovers st) ∧
  (∃ new, coordObjs st' = coordObjs st ++ new ∧ length new = (2 * length rs)%nat) ∧
  console st' = console st.
Proof.
  intros Hrs Hvalid Hunit H.
  destruct (initializeMap_placing v fuel rnd xSize ySize numObst rs st st' Hrs Hvalid Hunit H)
    as (m & cells & _ & Hp).
  destruct Hp as [Hb Hcon Hgrid Hcnd Hcells Hcount Hrov Hoth Hobj Hpl Hsqr].
  split; [|split; [done|split; [|done]]].
  - intros r rv Hr. destruct (decide (r ∈ rs)) as [Hin|Hout].
    + apply elem_of_reverse, list_elem_of_lookup_1 in Hin as [i Hi].
      destruct (Hpl i r Hi) as (rv0 & c & H0 & H1 & _).
      simpl in H0. assert (rv0 = rv) as -> by congruence.
      eexists. split; [exact H1|]. simpl. repeat split; try done.
      intros Hno. exfalso. apply Hno, elem_of_reverse. by eapply list_elem_of_lookup_2.
    + exists rv. rewrite Hoth by (by rewrite elem_of_reverse). by repeat split.
  - destruct Hobj as (new & Hnew & Hlen). exists new. split; [done|].
    by rewrite length_reverse in Hlen.
Qed.

Lemma initializeMap_frame_witness :
  rovers (rockAndAlpha part_000) !! 1%nat = Some (Rover "Beta" "E" None None).
Proof.
  destruct (initializeMap_frame part_000 2 alternating 1 2 1 [0%nat] twoRovers
              (rockAndAlpha part_000)) as (Hrov & _).
  - apply NoDup_singleton.
  - intros r ->%list_elem_of_singleton. simpl. lia.
  - apply alternating_unit.
  - apply rockAndAlpha_run.
  - destruct (Hrov 1%nat (Rover "Beta" "E" None None) eq_refl) as (rv' & Hr & _ & _ & Hsame).
    rewrite Hr. f_equal. apply Hsame. intros Hin. apply list_elem_of_singleton in Hin. done.
Defined.
Lemma commandRovers_returns_witness :
  ∃ cl' st',
    commandRovers part_000 [Request.Make 0%nat "frbl"] (rockAndAlpha part_000) = Ok (cl', st').
Proof.
  destruct (initializeMap_steady part_000 2 alternating 1 2 1 [0%nat] twoRovers
              (rockAndAlpha part_000)) as [Hs Hd].
  - apply twoRovers_undeployed.
  - apply NoDup_singleton.
  - intros r ->%list_elem_of_singleton. simpl. lia.
  - apply alternating_unit.
  - apply rockAndAlpha_run.
  - destruct (commandRovers_returns part_000 [Request.Make 0%nat "frbl"]
                (rockAndAlpha part_000) Hs) as (cl' & st' & H & _).
    + discriminate.
    + intros q ->%list_elem_of_singleton.
      apply (Hd 0%nat (Rover "Alpha" "N" None None)); [left|reflexivity|discriminate].
    + by exists cl', st'.
Defined.

Lemma sameLandscape_refl v st : sameLandscape v st st.
Proof. by repeat split. Qed.

Lemma sameLandscape_trans v st1 st2 st3 :
  sameLandscape v st1 st2 → sameLandscape v st2 st3 → sameLandscape v st1 st3.
Proof.
  intros (Hb1 & He1 & Hr1 & Ho1) (Hb2 & He2 & Hr2 & Ho2). split; [congruence|]. split; [|split].
  - intros c. by rewrite He2, He1.
  - intros c. by rewrite Hr2, Hr1.
  - intros r. by rewrite Ho2, Ho1.
Qed.

Lemma sameLandscape_repositionRover v r d st st' :
  consistent v st → repositionRover v r d st = Ok st' → sameLandscape v st st'.
Proof.
  intros [H1 H2] H.
  destruct (repositionRover_Ok v r d st st' H) as [(rv & message & _ & _ & ->)|Hh];
    [exact (sameLandscape_refl v st)|].
  destruct (repositionRover_accepted v r d st st' Hh H)
    as (rv & l & cur & log & Hr & Hl & Hcur & Hlog & Hb & Hsq & _).
  pose proof (haveObstacle_spec v (map st) d) as Hd. rewrite Hh in Hd. destruct Hd as [_ Hfree].
  destruct (H1 r rv l Hr Hl) as (c0 & Hc0 & Hhere).
  assert (c0 = cur) as -> by congruence.
  split; [done|]. split; [|split].
  - intros c. rewrite Hsq. case_decide; [subst; rewrite Hfree; split; eauto|].
    case_decide; [subst; rewrite Hhere; split; eauto|done].
  - intros c. rewrite Hsq. case_decide; [subst; rewrite Hfree; split; done|].
    case_decide; [subst; rewrite Hhere; split; done|done].
  - intros r'. split.
    + intros [c Hc]. rewrite Hsq in Hc. case_decide; [injection Hc as <-; eauto|].
      case_decide; [done|eauto].
    + intros [c Hc]. destruct (decide (r' = r)) as [->|Hne].
      * exists d. rewrite Hsq. by rewrite decide_True.
      * exists c. rewrite Hsq. rewrite !decide_False; [done| |]; intros ->; congruence.
Qed.

Lemma sameLandscape_runOrder v o st st' :
  consistent v st → runOrder v o st = Ok st' → sameLandscape v st st'.
Proof.
  intros Hc H. destruct (runOrder_cases v o st st' H) as [H'|[H'|[H'|[H'| ->]]]].
  - apply turnLeft_Ok in H' as (rv & Hr & ->). exact (sameLandscape_refl v st).
  - apply turnRight_Ok in H' as (rv & Hr & ->). exact (sameLandscape_refl v st).
  - apply moveForward_Ok in H' as (rv & l & cur & _ & _ & _ & H').
    by eapply sameLandscape_repositionRover.
  - apply moveBackwards_Ok in H' as (rv & l & cur & _ & _ & _ & H').
    by eapply sameLandscape_repositionRover.
  - apply sameLandscape_refl.
Qed.

(** X9: a batch of orders never moves, removes or adds an obstacle, never
    changes the boundaries or the squares the map has, and never takes a
    rover off the map or puts one on it: on a map that agrees with the
    rovers, the obstacles and the rovers on the map are the same after
    the batch as before it. *)
Theorem commandRovers_keeps_landscape (v : source) (st st' : state)
    (cl cl' : list Request.t) :
  consistent v st →
  commandRovers v cl st = Ok (cl', st') →
  sameLandscape v st st'.
Proof.
  intros Hc H.
  destruct (hasInvalidCommands cl) as [r|] eqn:Hv.
  - destruct (commandRovers_invalid v cl st cl' st' r Hv H) as (_ & rv & _ & ->).
    exact (sameLandscape_refl v st).
  - destruct (commandRovers_valid v cl st cl' st' Hv H) as (chain & st1 & _ & H1 & H2).
    assert (consistent v st1 ∧ sameLandscape v st st1) as [Hc1 Hl1].
    { revert H1. apply (forEach_invariant (fun s => consistent v s ∧ sameLandscape v st s));
        [|split; [done|apply sameLandscape_refl]].
      intros o' s s' [Hcs Hls] Ho'. split; [by eapply consistent_runOrder|].
      eapply sameLandscape_trans; [exact Hls|]. by eapply sameLandscape_runOrder. }
    destruct (forEach_showTravel _ _ _ H2) as (logs & -> & _). exact Hl1.
Qed.

Lemma commandRovers_keeps_landscape_witness :
  ∃ cl' st', commandRovers rover_js [Request.Make 0%nat "frb"] (rockAndAlpha rover_js) = Ok (cl', st') ∧
         squareAt rover_js (map st') (Coords 0 0) = Some Rock.
Proof.
  destruct (initializeMap_steady rover_js 2 alternating 1 2 1 [0%nat] twoRovers
              (rockAndAlpha rover_js)) as [[[Hc _] _] _].
  - apply twoRovers_undeployed.
  - apply NoDup_singleton.
  - intros r ->%list_elem_of_singleton. simpl. lia.
  - apply alternating_unit.
  - apply rockAndAlpha_run.
  - destruct (commandRovers rover_js [Request.Make 0%nat "frb"] (rockAndAlpha rover_js))
      as [[cl' st']| |] eqn:E; [|vm_compute in E; discriminate..].
    exists cl', st'. split; [reflexivity|].
    destruct (commandRovers_keeps_landscape rover_js (rockAndAlpha rover_js) st'
                [Request.Make 0%nat "frb"] cl' Hc E) as (_ & _ & Hrock & _).
    apply Hrock. by vm_compute.
Defined.
(** ** Where the rovers are *)

Lemma steady_print v ln st : steady v st → steady v (print ln st).
Proof. intros [Ht Hg]. split; [by apply tracked_print|done]. Qed.

Lemma steady_commandRovers v cl st cl' st' :
  steady v st → commandRovers v cl st = Ok (cl', st') → steady v st'.
Proof.
  intros Hs H. destruct (hasInvalidCommands cl) as [r|] eqn:Hv.
  - destruct (commandRovers_invalid v cl st cl' st' r Hv H) as (_ & rv & _ & ->).
    by apply steady_print.
  - destruct (commandRovers_valid v cl st cl' st' Hv H) as (chain & st1 & _ & H1 & H2).
    assert (steady v st1) as Hs1.
    { revert H1. apply forEach_invariant; [|done].
      intros o s s' Hss Ho. by destruct (steady_runOrder v o s s' Hss Ho). }
    revert H2. apply forEach_invariant; [|done].
    intros p s s' Hss (ln & _ & ->)%showTravel_Ok. by apply steady_print.
Qed.

Lemma consistent_position v st r c :
  consistent v st → position st r = Some c → squareAt v (map st) c = Some (RoverAt r).
Proof.
  intros [H1 _] Hp. unfold position in Hp.
  destruct (rovers st !! r) as [rv|] eqn:Hr; simpl in Hp; [|done].
  destruct (currentCoords rv) as [l|] eqn:Hl; simpl in Hp; [|done].
  destruct (H1 r rv l Hr Hl) as (c' & Hc' & Hsq). congruence.
Qed.

(** X10: after a batch, as before it, every rover that has coordinates
    stands on a square inside the boundaries, that square of the map
    holds this rover, not an obstacle, and no other rover has the same
    coordinates. *)
Theorem rovers_stay_inside (v : source) (cl cl' : list Request.t) (st st' : state)
    (r : ref) (c : coords) :
  steady v st →
  commandRovers v cl st = Ok (cl', st') →
  position st' r = Some c →
  outOfBounds v (boundaries (map st')) c = false ∧
  squareAt v (map st') c = Some (RoverAt r) ∧
  ∀ r2, position st' r2 = Some c → r2 = r.
Proof.
  intros Hs H Hp. apply (steady_commandRovers v cl st cl' st') in Hs as [[Hc _] Hg]; [|done].
  pose proof (consistent_position v st' r c Hc Hp) as Hsq.
  split; [|split; [done|]].
  - apply Hg. by rewrite Hsq.
  - intros r2 Hp2. apply (consistent_position v st' r2 c Hc) in Hp2. congruence.
Qed.

Lemma rovers_stay_inside_witness :
  ∃ cl' st' c,
    commandRovers part_000 [Request.Make 0%nat "fflfrb"] (rockAndAlpha part_000) = Ok (cl', st') ∧
    position st' 0%nat = Some c ∧
    outOfBounds part_000 (boundaries (map st')) c = false.
Proof.
  destruct (initializeMap_steady part_000 2 alternating 1 2 1 [0%nat] twoRovers
              (rockAndAlpha part_000)) as [Hs _].
  - apply twoRovers_undeployed.
  - apply NoDup_singleton.
  - intros r ->%list_elem_of_singleton. simpl. lia.
  - apply alternating_unit.
  - apply rockAndAlpha_run.
  - destruct (commandRovers part_000 [Request.Make 0%nat "fflfrb"] (rockAndAlpha part_000))
      as [[cl' st']| |] eqn:E; [|vm_compute in E; discriminate..].
    destruct (position st' 0%nat) as [c|] eqn:Ep.
    + exists cl', st', c. split; [reflexivity|]. split; [done|].
      by destruct (rovers_stay_inside part_000 _ cl' _ st' 0%nat c Hs E Ep).
    + exfalso. vm_compute in E. injection E as <- <-. vm_compute in Ep. discriminate.
Defined.
(** ** A direction that is no heading *)

Lemma destination_stray v d cur :
  ¬ isHeading d →
  moveForward_destination v d cur = cur ∧ moveBackwards_destination v d cur = cur.
Proof.
  intros Hd. unfold isHeading in Hd.
  unfold moveForward_destination, moveBackwards_destination.
  destruct (String.eqb_spec d "N"); [tauto|].
  destruct (String.eqb_spec d "E"); [tauto|].
  destruct (String.eqb_spec d "S"); [tauto|].
  destruct (String.eqb_spec d "W"); [tauto|].
  by destruct v, cur.
Qed.

Lemma turn_stray d : ¬ isHeading d → turnLeft_case d = None ∧ turnRight_case d = None.
Proof.
  intros Hd. unfold isHeading in Hd. unfold turnLeft_case, turnRight_case.
  destruct (String.eqb_spec d "N"); [tauto|].
  destruct (String.eqb_spec d "E"); [tauto|].
  destruct (String.eqb_spec d "S"); [tauto|].
  destruct (String.eqb_spec d "W"); [tauto|]. done.
Qed.

(** A rover asked to move to the square it stands on collides with
    itself. *)
Lemma repositionRover_own_square v r rv l cur st :
  consistent v st → gridded v st →
  rovers st !! r = Some rv → name rv ≠ EmptyString →
  currentCoords rv = Some l → coordObjs st !! l = Some cur →
  repositionRover v r cur st = Ok (print (Warning (name rv) "collision warning") st).
Proof.
  intros [H1 _] Hg Hr Hn Hl Hcur.
  destruct (H1 r rv l Hr Hl) as (c0 & Hc0 & Hhere).
  assert (c0 = cur) as -> by congruence.
  destruct (haveObstacle_gridded v st cur Hg) as [[_ Hout]|[[Hh _]|(_ & _ & Hfree)]].
  - assert (outOfBounds v (boundaries (map st)) cur = false) by (apply Hg; by rewrite Hhere).
    congruence.
  - by apply repositionRover_blocked.
  - congruence.
Qed.

(** X11: the [switch] statements on the direction have no default case.
    For a deployed rover whose direction is none of N, E, S and W, a turn
    to either side changes nothing, and a move forward or backwards has
    the square of the rover itself for destination: the rover is warned
    of a collision and stays where it is. *)
Theorem stray_direction (v : source) (r : ref) (rv : rover) (st : state) :
  consistent v st → gridded v st → deployed st r →
  rovers st !! r = Some rv → ¬ isHeading (direction rv) →
  turnLeft r st = Ok st ∧ turnRight r st = Ok st ∧
  moveForward v r st = Ok (print (Warning (name rv) "collision warning") st) ∧
  moveBackwards v r st = Ok (print (Warning (name rv) "collision warning") st).
Proof.
  intros Hc Hg (rv' & l & cur & log & Hr' & Hn & Hl & Hcur & Hlog) Hr Hd.
  assert (rv' = rv) as -> by congruence.
  destruct (turn_stray _ Hd) as [Hleft Hright].
  destruct (destination_stray v _ cur Hd) as [Hf Hb].
  split; [|split; [|split]].
  - unfold turnLeft, getRover. rewrite Hr. simpl. by rewrite Hleft.
  - unfold turnRight, getRover. rewrite Hr. simpl. by rewrite Hright.
  - unfold moveForward, getRover, getCurrent. rewrite Hr. simpl. rewrite Hl. simpl.
    rewrite Hcur. simpl. rewrite Hf. by apply (repositionRover_own_square v r rv l).
  - unfold moveBackwards, getRover, getCurrent. rewrite Hr. simpl. rewrite Hl. simpl.
    rewrite Hcur. simpl. rewrite Hb. by apply (repositionRover_own_square v r rv l).
Qed.

Lemma strayPlaced_run v :
  initializeMap v 1 (fun _ => 0%Q) 1 1 0 [0%nat] (setupState [("Gamma", "n")])
  = Ok (true, strayPlaced v).
Proof. destruct v; vm_compute; reflexivity. Qed.

Lemma stray_direction_witness :
  moveForward rover_js 0%nat (strayPlaced rover_js)
  = Ok (print (Warning "Gamma" "collision warning") (strayPlaced rover_js)).
Proof.
  destruct (initializeMap_steady rover_js 1 (fun _ => 0%Q) 1 1 0 [0%nat]
              (setupState [("Gamma", "n")]) (strayPlaced rover_js)) as [[[Hc _] Hg] Hd].
  - intros [|r] rv; simpl; [intros [= <-]; done|done].
  - apply NoDup_singleton.
  - intros r ->%list_elem_of_singleton. simpl. lia.
  - intros k. apply unitSample_zero.
  - apply strayPlaced_run.
  - apply (stray_direction rover_js 0%nat (Rover "Gamma" "n" (Some 0%nat) (Some [1%nat]))
             (strayPlaced rover_js) Hc Hg).
    + apply (Hd 0%nat (Rover "Gamma" "n" None None)); [left|reflexivity|discriminate].
    + by vm_compute.
    + unfold isHeading. simpl. intros [H|[H|[H|H]]]; discriminate.
Defined.
(** ** Throwing *)

(** Only the loop of [landscapeSetup] is cut short by the fuel: a call
    of another function returns or throws. *)
Lemma bind_fuel {A B} (m : outcome A) (f : A → outcome B) :
  m ≠ OutOfFuel → (∀ a, f a ≠ OutOfFuel) → m ≫= f ≠ OutOfFuel.
Proof. destruct m; simpl; [auto|done|done]. Qed.

Lemma defined_fuel {A} (o : option A) : defined o ≠ OutOfFuel.
Proof. by destruct o. Qed.

Lemma mret_fuel {A} (a : A) : (mret a : outcome A) ≠ OutOfFuel.
Proof. done. Qed.

Lemma capitalize_fuel word : capitalize word ≠ OutOfFuel.
Proof. by destruct word. Qed.

Ltac fuel :=
  repeat first
    [ apply mret_fuel
    | apply defined_fuel
    | apply capitalize_fuel
    | apply bind_fuel; [|intros ?]
    | match goal with
      | |- (let '(_, _) := ?p in _) ≠ OutOfFuel => destruct p
      | |- (if ?b then _ else _) ≠ OutOfFuel => destruct b
      | |- (match ?o with Some _ => _ | None => _ end) ≠ OutOfFuel => destruct o
      end ].

Lemma mapM_fuel {A B} (f : A → option B) (l : list A) :
  mapM (fun a => defined (f a)) l ≠ OutOfFuel.
Proof. rewrite mapM_defined. apply defined_fuel. Qed.

Lemma issueWarning_fuel r message st : issueWarning r message st ≠ OutOfFuel.
Proof. unfold issueWarning, getRover. fuel. Qed.

Lemma showTravel_fuel r st : showTravel r st ≠ OutOfFuel.
Proof. unfold showTravel, getRover. fuel. apply mapM_fuel. Qed.

Lemma repositionRover_fuel v r d st : repositionRover v r d st ≠ OutOfFuel.
Proof.
  unfold repositionRover, haveObstacle, readSquare, writeSquare, getRover, getCurrent.
  fuel; try apply issueWarning_fuel; destruct v; fuel.
Qed.

Lemma runOrder_fuel v o st : runOrder v o st ≠ OutOfFuel.
Proof.
  unfold runOrder.
  destruct (Ascii.eqb _ "l"); [unfold turnLeft, getRover; fuel|].
  destruct (Ascii.eqb _ "r"); [unfold turnRight, getRover; fuel|].
  destruct (Ascii.eqb _ "f").
  { unfold moveForward, getRover, getCurrent.
    apply bind_fuel; [fuel|intros rv]. apply bind_fuel; [fuel|intros [l c]].
    apply repositionRover_fuel. }
  destruct (Ascii.eqb _ "b"); [|done].
  unfold moveBackwards, getRover, getCurrent.
  apply bind_fuel; [fuel|intros rv]. apply bind_fuel; [fuel|intros [l c]].
  apply repositionRover_fuel.
Qed.

Lemma forEach_fuel {A} (f : A → state → outcome state) (l : list A) :
  (∀ a st, f a st ≠ OutOfFuel) → ∀ st, forEach f l st ≠ OutOfFuel.
Proof.
  intros Hf. induction l as [|a l IH]; intros st; simpl; [done|].
  apply bind_fuel; [apply Hf|apply IH].
Qed.

Lemma commandRovers_fuel v cl st : commandRovers v cl st ≠ OutOfFuel.
Proof.
  unfold commandRovers. destruct (hasInvalidCommands cl) as [r|].
  - apply bind_fuel; [apply issueWarning_fuel|done].
  - apply bind_fuel; [unfold chainList; fuel|intros [orders sorted]].
    apply bind_fuel; [apply forEach_fuel, runOrder_fuel|intros st1].
    apply bind_fuel; [|done].
    apply forEach_fuel. intros p s. apply showTravel_fuel.
Qed.

(** No order gives a travel log to a rover that has none. *)
Lemma runOrder_no_log v o st st' r :
  (∃ rv, rovers st !! r = Some rv ∧ travelLog rv = None) →
  runOrder v o st = Ok st' →
  ∃ rv, rovers st' !! r = Some rv ∧ travelLog rv = None.
Proof.
  intros (rv & Hr & Hlog) H.
  assert (∀ r' rv' d, rovers st !! r' = Some rv' →
            ∃ rv, rovers (setDirection r' rv' d st) !! r = Some rv ∧ travelLog rv = None) as Hturn.
  { intros r' rv' d Hr'. destruct (decide (r = r')) as [->|Hne].
    - rewrite (setDirection_lookup _ _ _ _ Hr'). eexists. split; [done|]. simpl. congruence.
    - exists rv. unfold setDirection, setRover. simpl.
      by rewrite list_lookup_insert_ne. }
  assert (∀ r' d, repositionRover v r' d st = Ok st' →
            ∃ rv, rovers st' !! r = Some rv ∧ travelLog rv = None) as Hmove.
  { intros r' d H'.
    destruct (repositionRover_Ok v r' d st st' H') as [(rv' & message & _ & _ & ->)|Hh];
      [by exists rv|].
    destruct (repositionRover_accepted v r' d st st' Hh H')
      as (rv' & l & cur & log & Hr' & _ & _ & Hlog' & _ & _ & Hrs & _).
    destruct (decide (r = r')) as [->|Hne]; [congruence|].
    exists rv. by rewrite Hrs, list_lookup_insert_ne. }
  destruct (runOrder_cases v o st st' H) as [H'|[H'|[H'|[H'| ->]]]].
  - apply turnLeft_Ok in H' as (rv' & Hr' & ->). by apply Hturn.
  - apply turnRight_Ok in H' as (rv' & Hr' & ->). by apply Hturn.
  - apply moveForward_Ok in H' as (rv' & l & cur & _ & _ & _ & H'). by eapply Hmove.
  - apply moveBackwards_Ok in H' as (rv' & l & cur & _ & _ & _ & H'). by eapply Hmove.
  - by exists rv.
Qed.

(** X12: [commandRovers] throws when a batch of valid commands names a
    rover that [initializeMap] has not deployed and which so has no
    travel log, whatever the commands for this rover and for the others
    are. *)
Theorem commandRovers_throws (v : source) (cl : list Request.t) (st : state)
    (q : Request.t) (rv : rover) :
  hasInvalidCommands cl = None →
  q ∈ cl →
  rovers st !! Request.rover q = Some rv →
  travelLog rv = None →
  commandRovers v cl st = TypeError.
Proof.
  intros Hv Hq Hr Hlog.
  destruct (commandRovers v cl st) as [[cl' st']| |] eqn:E;
    [exfalso|done|by apply commandRovers_fuel in E].
  destruct (commandRovers_valid v cl st cl' st' Hv E) as (chain & st1 & Hch & H1 & H2).
  assert (cl ≠ []) as Hne by (intros ->; by apply elem_of_nil in Hq).
  destruct (chainList_eq cl Hne) as [_ Heq]. rewrite Heq in Hch. injection Hch as _ <-.
  assert (q ∈ sort (fun a b => commandsLength b - commandsLength a) cl) as Hq'
    by (by rewrite (sort_perm commandCount cl)).
  assert (∃ rv1, rovers st1 !! Request.rover q = Some rv1 ∧ travelLog rv1 = None)
    as (rv1 & Hr1 & Hlog1).
  { revert H1. apply (forEach_invariant
      (fun s => ∃ rv1, rovers s !! Request.rover q = Some rv1 ∧ travelLog rv1 = None));
      [|by exists rv].
    intros o s s' Hs Ho. by apply (runOrder_no_log v o s s'). }
  destruct (forEach_showTravel _ _ _ H2) as (logs & _ & Hlogs).
  apply list_elem_of_lookup_1 in Hq' as [i Hi].
  destruct (Forall2_lookup_l _ _ _ _ _ Hlogs Hi) as (ln & _ & Hln).
  unfold travelLine, history in Hln. rewrite Hr1 in Hln. simpl in Hln.
  rewrite Hlog1 in Hln. done.
Qed.

Lemma commandRovers_throws_witness :
  commandRovers rover_js [Request.Make 0%nat "ff"; Request.Make 1%nat "l"]
    (rockAndAlpha rover_js) = TypeError.
Proof.
  apply (commandRovers_throws rover_js _ _ (Request.Make 1%nat "l") (Rover "Beta" "E" None None)).
  - reflexivity.
  - right. left.
  - by vm_compute.
  - reflexivity.
Defined.
(** ** There and back *)

Lemma destination_back v d c :
  moveBackwards_destination v d (moveForward_destination v d c) = c ∧
  moveForward_destination v d (moveBackwards_destination v d c) = c.
Proof.
  unfold moveForward_destination, moveBackwards_destination. destruct c as [cx cy].
  destruct v; destruct (String.eqb d "N"), (String.eqb d "E"), (String.eqb d "S"),
    (String.eqb d "W"); simpl; split; f_equal; lia.
Qed.

(** An accepted move returns, whatever the name of the rover. *)
Lemma repositionRover_accepts v r rv l cur log d st :
  consistent v st →
  rovers st !! r = Some rv → currentCoords rv = Some l → coordObjs st !! l = Some cur →
  travelLog rv = Some log →
  haveObstacle v (map st) d = Ok None →
  ∃ st', repositionRover v r d st = Ok st'.
Proof.
  intros [H1 _] Hr Hl Hcur Hlog Hh.
  pose proof (haveObstacle_spec v (map st) d) as Hd. rewrite Hh in Hd. destruct Hd as [_ Hfree].
  destruct (H1 r rv l Hr Hl) as (c0 & Hc0 & Hhere).
  assert (c0 = cur) as -> by congruence.
  destruct (writeSquare_Ok v (map st) cur Empty) as [m1 Hw1]; [by rewrite Hhere|].
  pose proof (squareAt_write _ _ _ _ _ Hw1) as [_ Hs1].
  destruct (writeSquare_Ok v m1 d (RoverAt r)) as [m2 Hw2].
  { rewrite Hs1. case_decide; [eauto|]. by rewrite Hfree. }
  assert (l < length (coordObjs st))%nat as Hlt by (by eapply lookup_lt_Some).
  unfold repositionRover. rewrite Hh. simpl. unfold getRover, getCurrent.
  rewrite Hr. simpl. rewrite Hl. simpl. rewrite Hcur. simpl. rewrite Hw1. simpl.
  rewrite list_lookup_insert_eq by (by rewrite !length_insert). simpl.
  destruct d as [dx dy]. simpl. rewrite Hw2. simpl. rewrite Hlog. simpl.
  destruct v; simpl; eauto.
Qed.

(** An accepted move, then a move to the square the rover has left. *)
Lemma there_and_back v r rv l cur d st st1 :
  steady v st →
  rovers st !! r = Some rv → currentCoords rv = Some l → coordObjs st !! l = Some cur →
  haveObstacle v (map st) d = Ok None →
  repositionRover v r d st = Ok st1 →
  (∃ rv1, rovers st1 !! r = Some rv1 ∧ direction rv1 = direction rv ∧
          currentCoords rv1 = Some l ∧ coordObjs st1 !! l = Some d) ∧
  ∃ st2, repositionRover v r cur st1 = Ok st2 ∧ sameScene v st st2 ∧
    (v = part_000 → ∀ h, history st r = Some h → history st2 r = Some (h ++ [d; cur])).
Proof.
  intros [Ht Hg] Hr Hl Hcur Hh H.
  pose proof Ht as (Hc & _ & _). pose proof Hc as [Hc1 Hc2].
  destruct (accepted_history v r d st st1 Ht Hh H) as (Ht1 & Hpos1 & h0 & h0' & Hh0 & Hh0' & _ & Hcopy).
  pose proof (gridded_accepted v r d st st1 Hg Hc Hh H) as Hg1.
  destruct (repositionRover_accepted v r d st st1 Hh H)
    as (rv' & l' & cur' & log & Hr' & Hl' & Hcur' & Hlog & Hb & Hsq & Hrs & Hcs & Hout).
  assert (rv' = rv) as -> by congruence.
  assert (l' = l) as -> by congruence.
  assert (cur' = cur) as -> by congruence.
  pose proof (haveObstacle_spec v (map st) d) as Hd. rewrite Hh in Hd. destruct Hd as [Hin Hfree].
  destruct (Hc1 r rv l Hr Hl) as (c0 & Hc0 & Hhere).
  assert (c0 = cur) as -> by congruence.
  assert (cur ≠ d) as Hne by (intros ->; congruence).
  assert (l < length (coordObjs st))%nat as Hlt by (by eapply lookup_lt_Some).
  assert (r < length (rovers st))%nat as Hrlt by (by eapply lookup_lt_Some).
  assert (rovers st1 !! r = Some (Rover (name rv) (direction rv) (Some l)
                                     (Some (log ++ [pushed v l st])))) as Hr1
    by (rewrite Hrs; by apply list_lookup_insert_eq).
  assert (coordObjs st1 !! l = Some d) as Hl1.
  { rewrite Hcs. destruct v; [by apply list_lookup_insert_eq|].
    rewrite lookup_app_l by (by rewrite length_insert). by apply list_lookup_insert_eq. }
  split; [eexists; split; [exact Hr1|]; by repeat split|].
  assert (haveObstacle v (map st1) cur = Ok None) as Hh1.
  { destruct (haveObstacle_gridded v st1 cur Hg1) as [[_ Hout1]|[(_ & _ & s & Hs & Hs')|[Hh1 _]]];
      [| |done].
    - assert (outOfBounds v (boundaries (map st1)) cur = false) as Hin1.
      { apply Hg1. rewrite Hsq. rewrite decide_False, decide_True by done. eauto. }
      congruence.
    - rewrite Hsq, decide_False, decide_True in Hs by done. congruence. }
  destruct Ht1 as (Hcons1 & Hlogged1 & Hapart1).
  destruct (repositionRover_accepts v r _ l d _ cur st1 Hcons1 Hr1 eq_refl Hl1 eq_refl Hh1)
    as [st2 H2].
  exists st2. split; [done|].
  destruct (accepted_history v r cur st1 st2 (conj Hcons1 (conj Hlogged1 Hapart1)) Hh1 H2)
    as (_ & Hpos2 & h1 & h1' & Hh1' & Hh2 & _ & Hcopy2).
  destruct (repositionRover_accepted v r cur st1 st2 Hh1 H2)
    as (rv2 & l2 & cur2 & log2 & Hr2 & Hl2 & Hcur2 & Hlog2 & Hb2 & Hsq2 & Hrs2 & Hcs2 & Hout2).
  assert (rv2 = Rover (name rv) (direction rv) (Some l) (Some (log ++ [pushed v l st])))
    as -> by congruence.
  simpl in Hl2. assert (l2 = l) as -> by congruence.
  assert (cur2 = d) as -> by congruence.
  split; [|intros ->].
  - split; [congruence|]. split; [|split; [|split; [|congruence]]].
    + intros c. rewrite Hsq2, Hsq. case_decide as E1; [subst c; by rewrite Hhere|].
      case_decide as E2; [subst c; by rewrite Hfree|done].
    + intros r'. unfold position. rewrite Hrs2, Hrs. simpl.
      assert (∀ l', (l' < length (coordObjs st))%nat → coordObjs st2 !! l' = coordObjs st !! l')
        as Hsame.
      { clear Hl'. intros l' Hl'. rewrite Hcs2, Hcs. destruct v.
        - rewrite list_insert_insert_eq. by rewrite list_insert_id.
        - rewrite lookup_app_l by (rewrite length_insert, length_app, length_insert; lia).
          destruct (decide (l' = l)) as [->|Hnl].
          + rewrite list_lookup_insert_eq by (rewrite length_app, length_insert; lia). done.
          + rewrite list_lookup_insert_ne by done.
            rewrite lookup_app_l by (by rewrite length_insert).
            by rewrite list_lookup_insert_ne. }
      destruct (decide (r' = r)) as [->|Hnr].
      * rewrite list_lookup_insert_eq by (by rewrite length_insert). simpl.
        rewrite Hr. simpl. rewrite Hl. simpl. by apply Hsame.
      * rewrite !list_lookup_insert_ne by done.
        destruct (rovers st !! r') as [rv3|] eqn:Er'; simpl; [|done].
        destruct (currentCoords rv3) as [l3|] eqn:El'; simpl; [|done].
        destruct (Hc1 r' rv3 l3 Er' El') as (c' & Hc' & _).
        apply Hsame. by eapply lookup_lt_Some.
    + intros r'. unfold heading. rewrite Hrs2, Hrs.
      destruct (decide (r' = r)) as [->|Hnr].
      * rewrite list_lookup_insert_eq by (by rewrite length_insert). by rewrite Hr.
      * by rewrite !list_lookup_insert_ne.
  - intros h Hh'. destruct (Hcopy eq_refl) as [-> _]. destruct (Hcopy2 eq_refl) as [-> _].
    rewrite Hh2. assert (h1 = h0 ++ [d]) as -> by congruence.
    assert (h0 = h) as -> by congruence. by rewrite <- app_assoc.
Qed.

(** X13: a move forward that takes the rover to another square followed
    by a move backwards, or a move backwards that does followed by a
    move forward, brings the rover back: the second move is accepted and
    leaves every square of the map, the position and the direction of
    every rover and the console as they were before the first one.  In
    [part_000] the travel log of the rover has two more entries, the
    square it went to and the square it is back on. *)
Theorem move_and_return (v : source) (r : ref) (cur : coords) (st st1 : state) :
  steady v st →
  position st r = Some cur →
  position st1 r ≠ Some cur →
  (moveForward v r st = Ok st1 →
   ∃ st2, moveBackwards v r st1 = Ok st2 ∧ sameScene v st st2 ∧
     (v = part_000 → ∀ h d, history st r = Some h → position st1 r = Some d →
        history st2 r = Some (h ++ [d; cur]))) ∧
  (moveBackwards v r st = Ok st1 →
   ∃ st2, moveForward v r st1 = Ok st2 ∧ sameScene v st st2 ∧
     (v = part_000 → ∀ h d, history st r = Some h → position st1 r = Some d →
        history st2 r = Some (h ++ [d; cur]))).
Proof.
  intros Hs Hpos Hmoved.
  assert (∀ d, repositionRover v r d st = Ok st1 →
            ∃ rv rv1 l, rovers st !! r = Some rv ∧
              rovers st1 !! r = Some rv1 ∧ direction rv1 = direction rv ∧
              currentCoords rv1 = Some l ∧ coordObjs st1 !! l = Some d ∧
              ∃ st2, repositionRover v r cur st1 = Ok st2 ∧ sameScene v st st2 ∧
                (v = part_000 → ∀ h d', history st r = Some h → position st1 r = Some d' →
                   history st2 r = Some (h ++ [d'; cur]))) as Hback.
  { intros d H. unfold position in Hpos.
    destruct (rovers st !! r) as [rv|] eqn:Hr; simpl in Hpos; [|done].
    destruct (currentCoords rv) as [l|] eqn:Hl; simpl in Hpos; [|done].
    destruct (repositionRover_Ok v r d st st1 H) as [(rv' & message & _ & _ & ->)|Hh].
    { exfalso. apply Hmoved. rewrite position_print. unfold position.
      rewrite Hr. simpl. by rewrite Hl. }
    destruct (there_and_back v r rv l cur d st st1 Hs Hr Hl Hpos Hh H)
      as [(rv1 & Hr1 & Hd1 & Hl1 & Hc1) (st2 & H2 & Hscene & Hhist)].
    exists rv, rv1, l. repeat (split; [done|]). exists st2. split; [done|]. split; [done|].
    intros -> h d' Hh' Hd'. unfold position in Hd'. rewrite Hr1 in Hd'. simpl in Hd'.
    rewrite Hl1 in Hd'. simpl in Hd'. assert (d' = d) as -> by congruence. by apply Hhist. }
  split; intros H.
  - apply moveForward_Ok in H as (rv & l & cur' & Hr & Hl & Hcur & H).
    assert (cur' = cur) as ->.
    { unfold position in Hpos. rewrite Hr in Hpos. simpl in Hpos. rewrite Hl in Hpos.
      simpl in Hpos. congruence. }
    destruct (Hback _ H) as (rv' & rv1 & l1 & Hr' & Hr1 & Hd1 & Hl1 & Hc1 & st2 & H2 & Hrest).
    assert (rv' = rv) as -> by congruence.
    exists st2. split; [|done].
    unfold moveBackwards, getRover, getCurrent. rewrite Hr1. simpl. rewrite Hl1. simpl.
    rewrite Hc1. simpl. rewrite Hd1. by rewrite (proj1 (destination_back v _ cur)).
  - apply moveBackwards_Ok in H as (rv & l & cur' & Hr & Hl & Hcur & H).
    assert (cur' = cur) as ->.
    { unfold position in Hpos. rewrite Hr in Hpos. simpl in Hpos. rewrite Hl in Hpos.
      simpl in Hpos. congruence. }
    destruct (Hback _ H) as (rv' & rv1 & l1 & Hr' & Hr1 & Hd1 & Hl1 & Hc1 & st2 & H2 & Hrest).
    assert (rv' = rv) as -> by congruence.
    exists st2. split; [|done].
    unfold moveForward, getRover, getCurrent. rewrite Hr1. simpl. rewrite Hl1. simpl.
    rewrite Hc1. simpl. rewrite Hd1. by rewrite (proj2 (destination_back v _ cur)).
Qed.

Lemma move_and_return_witness :
  ∃ st1 st2,
    moveForward part_000 0%nat (alphaPlaced part_000) = Ok st1 ∧
    moveBackwards part_000 0%nat st1 = Ok st2 ∧
    history st2 0%nat = Some [Coords 5 5; Coords 5 4; Coords 5 5].
Proof.
  destruct (initializeMap_steady part_000 1 (fun _ => (1 # 2)%Q) 10 10 0 [0%nat]
              (setupState [("Alpha", "N")]) (alphaPlaced part_000)) as [Hs _].
  - intros [|r] rv; simpl; [intros [= <-]; done|done].
  - apply NoDup_singleton.
  - intros r ->%list_elem_of_singleton. simpl. lia.
  - intros k. apply unitSample_half.
  - apply alphaPlaced_run.
  - destruct (moveForward part_000 0%nat (alphaPlaced part_000)) as [st1| |] eqn:E;
      [|vm_compute in E; discriminate..].
    assert (position st1 0%nat = Some (Coords 5 4)) as Hp1.
    { vm_compute in E. injection E as <-. by vm_compute. }
    destruct (move_and_return part_000 0%nat (Coords 5 5) (alphaPlaced part_000) st1 Hs)
      as [Hback _].
    + by vm_compute.
    + rewrite Hp1. discriminate.
    + destruct (Hback E) as (st2 & H2 & _ & Hh).
      exists st1, st2. split; [reflexivity|]. split; [exact H2|].
      apply (Hh eq_refl [Coords 5 5] (Coords 5 4)); [by vm_compute|exact Hp1].
Defined.
(** ** The travel log of [rover.js] *)

Lemma mapM_replicate {A B} (f : A → option B) (a : A) (b : B) (k : nat) :
  f a = Some b → mapM f (replicate k a) = Some (replicate k b).
Proof. intros Hf. induction k as [|k IH]; simpl; [done|]. by rewrite Hf, IH. Qed.

(** What such a log prints. *)
Lemma aliased_history st r rv l l0 k c :
  rovers st !! r = Some rv → travelLog rv = Some (l0 :: replicate k l) →
  coordObjs st !! l = Some c →
  history st r = c0 ← coordObjs st !! l0; Some (c0 :: replicate k c).
Proof.
  intros Hr Hlog Hl. unfold history. rewrite Hr. simpl. rewrite Hlog. simpl.
  destruct (coordObjs st !! l0) as [c0|]; simpl; [|done].
  by rewrite (mapM_replicate _ l c k Hl).
Qed.

Lemma aliased_print ln st : aliased st → aliased (print ln st).
Proof. done. Qed.

Lemma aliased_setDirection r rv d st :
  rovers st !! r = Some rv → aliased st → aliased (setDirection r rv d st).
Proof.
  intros Hr Ha.
  assert (∀ r2 rv2, rovers (setDirection r rv d st) !! r2 = Some rv2 →
            ∃ rv2', rovers st !! r2 = Some rv2' ∧ currentCoords rv2' = currentCoords rv2 ∧
                    travelLog rv2' = travelLog rv2) as Hkept.
  { intros r2 rv2 H2. destruct (decide (r2 = r)) as [->|Hne].
    - rewrite (setDirection_lookup _ _ _ _ Hr) in H2. injection H2 as <-. by exists rv.
    - unfold setDirection, setRover in H2. simpl in H2.
      rewrite list_lookup_insert_ne in H2 by done. by exists rv2. }
  intros r1 rv1 l log H1 Hl Hlog.
  destruct (Hkept r1 rv1 H1) as (rv1' & H1' & Hcc & Htl).
  destruct (Ha r1 rv1' l log H1') as (l0 & k & -> & Hapart); [congruence..|].
  exists l0, k. split; [done|]. intros r2 rv2 H2.
  destruct (Hkept r2 rv2 H2) as (rv2' & H2' & Hcc2 & _). rewrite <- Hcc2. by eapply Hapart.
Qed.

Lemma aliased_accepted r d st st' :
  aliased st →
  haveObstacle rover_js (map st) d = Ok None →
  repositionRover rover_js r d st = Ok st' →
  aliased st'.
Proof.
  intros Ha Hh H.
  destruct (repositionRover_accepted rover_js r d st st' Hh H)
    as (rv & l & cur & log & Hr & Hl & Hcur & Hlog & _ & _ & Hrs & _).
  simpl in Hrs.
  assert (r < length (rovers st))%nat as Hrlt by (by eapply lookup_lt_Some).
  assert (∀ r2 rv2, rovers st' !! r2 = Some rv2 →
            ∃ rv2', rovers st !! r2 = Some rv2' ∧ currentCoords rv2' = currentCoords rv2) as Hkept.
  { intros r2 rv2 H2. rewrite Hrs in H2. destruct (decide (r2 = r)) as [->|Hne].
    - rewrite list_lookup_insert_eq in H2 by done. injection H2 as <-. by exists rv.
    - rewrite list_lookup_insert_ne in H2 by done. by exists rv2. }
  intros r1 rv1 l1 log1 H1 Hl1 Hlog1.
  assert (∃ l0 k, log1 = l0 :: replicate k l1 ∧
            ∀ r2 rv2, rovers st !! r2 = Some rv2 → currentCoords rv2 ≠ Some l0)
    as (l0 & k & -> & Hapart).
  { rewrite Hrs in H1. destruct (decide (r1 = r)) as [->|Hne].
    - rewrite list_lookup_insert_eq in H1 by done. injection H1 as <-.
      simpl in Hl1, Hlog1. injection Hl1 as <-. injection Hlog1 as <-.
      destruct (Ha r rv l log Hr Hl Hlog) as (l0 & k & -> & Hapart).
      exists l0, (S k). split; [|done].
      rewrite <- app_comm_cons. f_equal. symmetry. apply replicate_S_end.
    - rewrite list_lookup_insert_ne in H1 by done. by apply (Ha r1 rv1). }
  exists l0, k. split; [done|]. intros r2 rv2 H2.
  destruct (Hkept r2 rv2 H2) as (rv2' & H2' & Hcc2). rewrite <- Hcc2. by eapply Hapart.
Qed.

Lemma sinceState_refl st : sinceState st st.
Proof. intros r rv Hr. exists rv. split; [done|]. split; [done|]. eauto. Qed.

Lemma sinceState_print st ln s : sinceState st s → sinceState st (print ln s).
Proof. done. Qed.

Lemma sinceState_setDirection st r rv d s :
  rovers s !! r = Some rv → sinceState st s → sinceState st (setDirection r rv d s).
Proof.
  intros Hr Hs r1 rv1 H1. destruct (decide (r1 = r)) as [->|Hne].
  - rewrite (setDirection_lookup _ _ _ _ Hr) in H1. injection H1 as <-. exact (Hs r rv Hr).
  - unfold setDirection, setRover in H1. simpl in H1.
    rewrite list_lookup_insert_ne in H1 by done. by apply Hs.
Qed.

Lemma sinceState_accepted st r d s s' :
  aliased s → sinceState st s →
  haveObstacle rover_js (map s) d = Ok None →
  repositionRover rover_js r d s = Ok s' →
  sinceState st s'.
Proof.
  intros Ha Hs Hh H.
  destruct (repositionRover_accepted rover_js r d s s' Hh H)
    as (rv & l & cur & log & Hr & Hl & Hcur & Hlog & _ & _ & Hrs & Hcs & _).
  simpl in Hrs.
  assert (r < length (rovers s))%nat as Hrlt by (by eapply lookup_lt_Some).
  intros r1 rv1 H1. rewrite Hrs in H1.
  assert (∃ rv1', rovers s !! r1 = Some rv1' ∧ currentCoords rv1' = currentCoords rv1 ∧
            ∀ l0 rest, travelLog rv1' = Some (l0 :: rest) →
              ∃ rest', travelLog rv1 = Some (l0 :: rest')) as (rv1' & H1' & Hcc & Htl).
  { destruct (decide (r1 = r)) as [->|Hne].
    - rewrite list_lookup_insert_eq in H1 by done. injection H1 as <-.
      exists rv. split; [done|]. split; [done|]. simpl. intros l0 rest Hrest.
      rewrite Hlog in Hrest. injection Hrest as ->. by exists (rest ++ [l]).
    - rewrite list_lookup_insert_ne in H1 by done. exists rv1. eauto. }
  destruct (Hs r1 rv1' H1') as (rv0 & H0 & Hcc0 & Hfirst).
  exists rv0. split; [done|]. split; [congruence|].
  intros l1 l0 rest c0 Hl1 Hrest Hc0.
  destruct (Hfirst l1 l0 rest c0 Hl1 Hrest Hc0) as (rest' & Hrest' & Hc0').
  destruct (Htl l0 rest' Hrest') as (rest'' & Hrest'').
  exists rest''. split; [done|].
  destruct (Ha r1 rv1' l1 (l0 :: rest') H1') as (l0' & k & Heq & Hapart); [congruence|done|].
  injection Heq as <- _.
  rewrite Hcs. simpl. rewrite list_lookup_insert_ne; [done|].
  intros <-. by apply (Hapart r rv Hr).
Qed.

Lemma aliased_runOrder st o s s' :
  aliased s ∧ sinceState st s → runOrder rover_js o s = Ok s' →
  aliased s' ∧ sinceState st s'.
Proof.
  intros [Ha Hs] H.
  assert (∀ d, repositionRover rover_js (Order.rover o) d s = Ok s' →
            aliased s' ∧ sinceState st s') as Hmove.
  { intros d H'.
    destruct (repositionRover_Ok rover_js _ d s s' H') as [(rv & message & _ & _ & ->)|Hh];
      [done|].
    split; [by eapply aliased_accepted|by eapply sinceState_accepted]. }
  destruct (runOrder_cases rover_js o s s' H) as [H'|[H'|[H'|[H'| ->]]]]; [| | | |done].
  - apply turnLeft_Ok in H' as (rv & Hr & ->).
    split; [by apply aliased_setDirection|by apply sinceState_setDirection].
  - apply turnRight_Ok in H' as (rv & Hr & ->).
    split; [by apply aliased_setDirection|by apply sinceState_setDirection].
  - apply moveForward_Ok in H' as (rv & l & cur & _ & _ & _ & H'). by eapply Hmove.
  - apply moveBackwards_Ok in H' as (rv & l & cur & _ & _ & _ & H'). by eapply Hmove.
Qed.

(** X14: in [rover.js] the entries that the moves push on a travel log
    are the [currentCoords] object of the rover, so that the log shows
    the first position of the rover followed by its present position,
    repeated: after a batch, the log of a rover reads as the value its
    first entry had before the batch, then only copies of the position
    the rover has now. *)
Theorem travelLog_repeats_position (cl cl' : list Request.t) (st st' : state)
    (r : ref) (c0 c : coords) (h0 : list coords) :
  aliased st →
  commandRovers rover_js cl st = Ok (cl', st') →
  history st r = Some (c0 :: h0) →
  position st' r = Some c →
  ∃ k, history st' r = Some (c0 :: replicate k c).
Proof.
  intros Ha H Hh Hp.
  assert (aliased st' ∧ sinceState st st') as [Ha' Hs'].
  { destruct (hasInvalidCommands cl) as [r'|] eqn:Hv.
    - destruct (commandRovers_invalid rover_js cl st cl' st' r' Hv H) as (_ & rv & _ & ->).
      split; [done|apply sinceState_print, sinceState_refl].
    - destruct (commandRovers_valid rover_js cl st cl' st' Hv H) as (chain & st1 & _ & H1 & H2).
      assert (aliased st1 ∧ sinceState st st1) as H1'.
      { revert H1. apply (forEach_invariant (fun s => aliased s ∧ sinceState st s));
          [|split; [done|apply sinceState_refl]].
        intros o s s'. apply aliased_runOrder. }
      revert H2. apply (forEach_invariant (fun s => aliased s ∧ sinceState st s)); [|done].
      intros p s s' Hs (ln & _ & ->)%showTravel_Ok. done. }
  unfold position in Hp.
  destruct (rovers st' !! r) as [rv'|] eqn:Hr'; simpl in Hp; [|done].
  destruct (currentCoords rv') as [l|] eqn:Hl'; simpl in Hp; [|done].
  destruct (Hs' r rv' Hr') as (rv & Hr & Hcc & Hfirst).
  unfold history in Hh. rewrite Hr in Hh. simpl in Hh.
  destruct (travelLog rv) as [[|l0 rest]|] eqn:Hlog; simpl in Hh; [done| |done].
  destruct (coordObjs st !! l0) as [c0'|] eqn:Hc0; simpl in Hh; [|done].
  assert (c0' = c0) as ->.
  { destruct (mapM _ rest); simpl in Hh; [|done]. by injection Hh as -> _. }
  destruct (Hfirst l l0 rest c0) as (rest' & Hrest' & Hc0'); [congruence|done|done|].
  destruct (Ha' r rv' l (l0 :: rest') Hr' Hl' Hrest') as (l0' & k & Heq & _).
  exists k. rewrite (aliased_history st' r rv' l l0 k c Hr'); [by rewrite Hc0'| |done].
  rewrite Hrest'. f_equal. injection Heq as -> ->. done.
Qed.

(** The travel logs that [landscapeSetup] makes have this shape. *)
Lemma placing_aliased v st0 rocks cells placed st :
  undeployed st0 → placing v st0 rocks cells placed st → aliased st.
Proof.
  intros Hnew Hp. destruct Hp as [Hb Hcon Hgrid Hnd Hcells Hcount Hrov Hoth Hobj Hpl Hsqr].
  intros r rv l log Hr Hl Hlog.
  destruct (decide (r ∈ placed)) as [Hin|Hout].
  - apply list_elem_of_lookup_1 in Hin as [i Hi].
    destruct (Hpl i r Hi) as (rv0 & c & H0 & H1 & H2 & H3 & H4).
    rewrite H1 in Hr. injection Hr as <-. simpl in Hl, Hlog.
    injection Hl as <-. injection Hlog as <-.
    eexists _, 0%nat. split; [reflexivity|].
    intros r2 rv2 Hr2 Hcur.
    destruct (decide (r2 ∈ placed)) as [Hin2|Hout2].
    + apply list_elem_of_lookup_1 in Hin2 as [i2 Hi2].
      destruct (Hpl i2 r2 Hi2) as (rv1 & c2 & H0' & H1' & _).
      rewrite H1' in Hr2. injection Hr2 as <-. simpl in Hcur. injection Hcur as Hcur. lia.
    + rewrite (Hoth r2 Hout2) in Hr2. apply Hnew in Hr2 as [Hr2 _]. congruence.
  - rewrite (Hoth r Hout) in Hr. apply Hnew in Hr as [Hr _]. congruence.
Qed.

Lemma initializeMap_aliased v fuel rnd xSize ySize numObst rs st st' :
  undeployed st → NoDup rs → (∀ r, r ∈ rs → (r < length (rovers st))%nat) → unitSamples rnd →
  initializeMap v fuel rnd xSize ySize numObst rs st = Ok (true, st') →
  aliased st'.
Proof.
  intros Hnew Hrs Hvalid Hunit H.
  destruct (initializeMap_placing v fuel rnd xSize ySize numObst rs st st' Hrs Hvalid Hunit H)
    as (m & cells & _ & Hp).
  by apply (placing_aliased v (setMap m st) numObst cells (reverse rs)).
Qed.

Lemma travelLog_repeats_position_witness :
  ∃ cl' st' k,
    commandRovers rover_js [Request.Make 0%nat "ffrf"] (alphaPlaced rover_js) = Ok (cl', st') ∧
    history st' 0%nat = Some (Coords 5 5 :: replicate k (Coords 3 6)).
Proof.
  assert (aliased (alphaPlaced rover_js)) as Ha.
  { apply (initializeMap_aliased rover_js 1 (fun _ => (1 # 2)%Q) 10 10 0 [0%nat]
             (setupState [("Alpha", "N")])).
    - intros [|r] rv; simpl; [intros [= <-]; done|done].
    - apply NoDup_singleton.
    - intros r ->%list_elem_of_singleton. simpl. lia.
    - intros k. apply unitSample_half.
    - apply alphaPlaced_run. }
  destruct (commandRovers rover_js [Request.Make 0%nat "ffrf"] (alphaPlaced rover_js))
    as [[cl' st']| |] eqn:E; [|vm_compute in E; discriminate..].
  assert (position st' 0%nat = Some (Coords 3 6)) as Hp.
  { vm_compute in E. injection E as _ <-. by vm_compute. }
  destruct (travelLog_repeats_position _ cl' _ st' 0%nat (Coords 5 5) (Coords 3 6) [] Ha E)
    as [k Hk]; [by vm_compute|exact Hp|].
  exists cl', st', k. split; [reflexivity|exact Hk].
Defined.
(** ** The other rovers *)

(** X15: an order changes neither the position nor the direction of a
    rover other than the one it is given to, the map and the rovers
    agreeing before: no two rovers share their coordinates object. *)
Theorem runOrder_others (v : source) (o : Order.t) (st st' : state) (r : ref) :
  consistent v st →
  runOrder v o st = Ok st' →
  r ≠ Order.rover o →
  position st' r = position st r ∧ heading st' r = heading st r.
Proof.
  intros [Hc1 Hc2] H Hne.
  assert (∀ rv d, rovers st !! Order.rover o = Some rv →
            position (setDirection (Order.rover o) rv d st) r = position st r ∧
            heading (setDirection (Order.rover o) rv d st) r = heading st r) as Hturn.
  { intros rv d Hr. split; [by apply position_setDirection|].
    unfold heading, setDirection, setRover. simpl. by rewrite list_lookup_insert_ne. }
  assert (∀ d, repositionRover v (Order.rover o) d st = Ok st' →
            position st' r = position st r ∧ heading st' r = heading st r) as Hmove.
  { intros d H'.
    destruct (repositionRover_Ok v _ d st st' H') as [(rv & message & _ & _ & ->)|Hh]; [done|].
    destruct (repositionRover_accepted v _ d st st' Hh H')
      as (rv & l & cur & log & Hr & Hl & Hcur & Hlog & _ & _ & Hrs & Hcs & _).
    destruct (Hc1 _ rv l Hr Hl) as (c0 & Hc0 & Hhere).
    split; [|unfold heading; by rewrite Hrs, list_lookup_insert_ne].
    unfold position. rewrite Hrs, list_lookup_insert_ne by done.
    destruct (rovers st !! r) as [rv2|] eqn:Hr2; simpl; [|done].
    destruct (currentCoords rv2) as [l2|] eqn:Hl2; simpl; [|done].
    destruct (Hc1 r rv2 l2 Hr2 Hl2) as (c2 & Hc2' & Hhere2).
    assert (l2 ≠ l) as Hnl by (intros ->; congruence).
    rewrite Hcs. destruct v.
    - by rewrite list_lookup_insert_ne.
    - rewrite lookup_app_l by (rewrite length_insert; by eapply lookup_lt_Some).
      by rewrite list_lookup_insert_ne. }
  destruct (runOrder_cases v o st st' H) as [H'|[H'|[H'|[H'| ->]]]]; [| | | |done].
  - apply turnLeft_Ok in H' as (rv & Hr & ->). by apply Hturn.
  - apply turnRight_Ok in H' as (rv & Hr & ->). by apply Hturn.
  - apply moveForward_Ok in H' as (rv & l & cur & _ & _ & _ & H'). by eapply Hmove.
  - apply moveBackwards_Ok in H' as (rv & l & cur & _ & _ & _ & H'). by eapply Hmove.
Qed.

Lemma bothPlaced_run :
  initializeMap rover_js 2 alternating 1 3 0 [1%nat; 0%nat] twoRovers = Ok (true, bothPlaced).
Proof. vm_compute; reflexivity. Qed.

Lemma runOrder_others_witness :
  ∃ st', runOrder rover_js (Order.Make 1%nat "f") bothPlaced = Ok st' ∧
         position st' 1%nat = Some (Coords 0 2) ∧
         position st' 0%nat = Some (Coords 0 0).
Proof.
  destruct (initializeMap_steady rover_js 2 alternating 1 3 0 [1%nat; 0%nat] twoRovers
              bothPlaced) as [[[Hc _] _] _].
  - apply twoRovers_undeployed.
  - apply NoDup_cons. split; [|apply NoDup_singleton].
    intros H%list_elem_of_singleton. discriminate.
  - intros r [->| ->%list_elem_of_singleton]%elem_of_cons; simpl; lia.
  - apply alternating_unit.
  - apply bothPlaced_run.
  - destruct (runOrder rover_js (Order.Make 1%nat "f") bothPlaced) as [st'| |] eqn:E;
      [|vm_compute in E; discriminate..].
    exists st'. split; [reflexivity|]. split.
    + vm_compute in E. injection E as <-. by vm_compute.
    + destruct (runOrder_others rover_js _ _ st' 0%nat Hc E) as [-> _]; [discriminate|].
      by vm_compute.
Defined.
